(** * Vintage cohorts from capacity statistics

    A shallow embedding of [derive_vintage_cohorts_from_statistics]
    (heuristics.py) and of the four functions nested in it, together with
    the properties the design document states about them, and of the
    aggregations of the same module: [aggregate_RES_by_yeardiff],
    [average_empty_commyears] and [aggregate_RES_by_commyear].

    Conventions of the embedding.
    - A Python float is an exact rational ([Q]); a cell of a float
      DataFrame is an [option Q], [None] standing for NaN.  Equalities
      between capacities are stated with [Qeq] (written [==]).
    - A year is a [Z]; [range a b] is the list [a; ...; b-1].
    - The cohort matrix is a pandas DataFrame whose row and column labels
      are integers: the row labels in their order ([index]), the column
      labels ([columns]), and the cells that hold a number, keyed by
      (row label, column label).
    - Code that may raise returns [Result A]: [inl e] for an exception,
      [inr x] for a value.
    - [df.groupby] is pandas' own; the embedding of
      [derive_vintage_cohorts_from_statistics] starts from the groups it
      yields, one [Partition] per (Country, Technology).  The aggregations
      take a frame as the list of its rows; a group is the sublist of the
      rows with one key, the keys coming in ascending order. *)

From Stdlib Require Import ZArith QArith Qabs Lqa Lia Sorted.
From stdpp Require Import gmap strings list fin_maps sorting.

Local Open Scope Z_scope.

(** ** Python runtime: exceptions, [range], float comparisons *)

Module Py.

Inductive key : Type :=
| KInt (z : Z)
| KStr (s : string).

(** The exceptions the embedded statements can raise. *)
Inductive exn : Type :=
| KeyError (k : key)
| IndexError
| ZeroDivisionError.

Definition class_name (e : exn) : string :=
  match e with
  | KeyError _ => "KeyError"
  | IndexError => "IndexError"
  | ZeroDivisionError => "ZeroDivisionError"
  end.


Definition Result (A : Type) : Type := (exn + A)%type.

Definition ret {A} (x : A) : Result A := inr x.
Definition raise {A} (e : exn) : Result A := inl e.
Definition bind {A B} (m : Result A) (f : A -> Result B) : Result B :=
  match m with
  | inl e => inl e
  | inr x => f x
  end.

(** A [for] loop whose body may raise. *)
Fixpoint for_each {S A} (body : S -> A -> Result S) (s : S) (l : list A)
  : Result S :=
  match l with
  | [] => ret s
  | x :: l' => bind (body s x) (fun s' => for_each body s' l')
  end.

Definition range (a b : Z) : list Z := seqZ a (b - a).

Definition Qlt_bool (x y : Q) : bool := negb (Qle_bool y x).

(** [x / n] for a float [x] and an integer [n]. *)
Definition fdiv (x : Q) (n : Z) : Result Q :=
  if n =? 0 then raise ZeroDivisionError else ret (x / inject_Z n)%Q.

(** [sum] of a float Series: NaN entries are skipped. *)
Definition nansum (l : list (option Q)) : Q :=
  foldr (fun o acc => match o with Some v => (v + acc)%Q | None => acc end)
        0%Q l.

(** [d[k]] on a dict. *)
Definition dict_get_Z (d : gmap Z Q) (k : Z) : Result Q :=
  match d !! k with
  | Some v => ret v
  | None => raise (KeyError (KInt k))
  end.

Definition dict_get_str (d : gmap string Z) (k : string) : Result Z :=
  match d !! k with
  | Some v => ret v
  | None => raise (KeyError (KStr k))
  end.

End Py.

Import Py.

Notation "'let*' x ':=' m 'in' k" := (bind m (fun x => k))
  (at level 10, x name, m at level 100, k at level 200).

(** ** The float DataFrame with integer labels ([mat]) *)

Record DataFrame : Type := mkDataFrame {
  index : list Z;
  columns : list Z;
  cells : gmap (Z * Z) Q
}.

(** [pd.DataFrame(columns=cols, index=idx).astype(np.float)]: every cell
    NaN. *)
Definition DataFrame_new (cols idx : list Z) : DataFrame :=
  mkDataFrame idx cols ∅.

(** [mat.index[0]] *)
Definition index_first (mat : DataFrame) : Result Z :=
  match index mat with
  | [] => raise IndexError
  | y :: _ => ret y
  end.

(** [mat.columns[-1]] *)
Definition columns_last (mat : DataFrame) : Result Z :=
  match last (columns mat) with
  | None => raise IndexError
  | Some c => ret c
  end.

(** The labels a label slice [a:b] selects in a sorted axis: both ends
    are included, and neither has to be a label of the axis. *)
Definition label_slice (axis : list Z) (a b : Z) : list Z :=
  filter (fun c => a <= c <= b) axis.

(** [mat.loc[r, a:b] = v].  A row label that is not in the index is
    appended to it (setting with enlargement), its cells NaN. *)
Definition loc_set (mat : DataFrame) (r a b : Z) (v : Q) : DataFrame :=
  mkDataFrame
    (if decide (r ∈ index mat) then index mat else index mat ++ [r])
    (columns mat)
    (foldr (fun c m => <[(r, c) := v]> m) (cells mat)
           (label_slice (columns mat) a b)).

(** [mat.loc[:, c]]: the column as a list, in index order. *)
Definition loc_column (mat : DataFrame) (c : Z) : Result (list (option Q)) :=
  if decide (c ∈ columns mat)
  then ret ((fun r => cells mat !! (r, c)) <$> index mat)
  else raise (KeyError (KInt c)).

(** [mat.loc[r, c]] *)
Definition loc_get (mat : DataFrame) (r c : Z) : Result (option Q) :=
  if decide (r ∈ index mat) then
    if decide (c ∈ columns mat) then ret (cells mat !! (r, c))
    else raise (KeyError (KInt c))
  else raise (KeyError (KInt r)).

(** ** The statistics of one (Country, Technology) group ([dfs]) *)

Record Partition : Type := mkPartition {
  Country : string;
  Technology : string;
  Fueltype : string;       (* dfs.Fueltype.iloc[0] *)
  Set_ : string;           (* dfs.Set.iloc[0] *)
  rows : list (Z * Q)      (* Year, Capacity; the index is the Year column *)
}.

Definition years (df : Partition) : list Z := fst <$> rows df.

(** [df.index[i]] *)
Definition index_nth (df : Partition) (i : nat) : Result Z :=
  match years df !! i with
  | Some y => ret y
  | None => raise IndexError
  end.

(** [df.index[-1]] *)
Definition index_last (df : Partition) : Result Z :=
  match last (years df) with
  | Some y => ret y
  | None => raise IndexError
  end.

(** [df.index.max()] on a non-empty index. *)
Definition index_max (df : Partition) : Z :=
  match years df with
  | [] => 0
  | y :: l => foldr Z.max y l
  end.

(** [df.loc[year].Capacity]; the years of a partition are unique, so the
    row is the first one that carries the year. *)
Definition loc_Capacity (df : Partition) (year : Z) : Result Q :=
  match list_find (fun row => fst row = year) (rows df) with
  | Some (_, row) => ret (snd row)
  | None => raise (KeyError (KInt year))
  end.

(** ** The functions nested in [derive_vintage_cohorts_from_statistics] *)

(** The body of the loop shared by the two initial distributions:
    [y_end = min(y+life-1, mat.columns[-1]); mat.loc[y, y:y_end] = h]. *)
Definition setInitial_row (life : Z) (mat : DataFrame) (y : Z) (h : Q)
  : Result DataFrame :=
  let* last_col := columns_last mat in
  let y_end := Z.min (y + life - 1) last_col in
  ret (loc_set mat y y y_end h).

Definition setInitial_Flat (mat : DataFrame) (df : Partition) (life : Z)
  : Result DataFrame :=
  let* y_start := index_nth df 0 in
  let* cap := loc_Capacity df y_start in
  let* height_flat := fdiv cap life in
  let* first_row := index_first mat in
  for_each (fun mat y => setInitial_row life mat y height_flat)
           mat (range first_row (y_start + 1)).

(** [[(height_tri - i*decr) for i in range(0, life)][::-1]] *)
Definition triangle_series (height_tri decr : Q) (life : Z) : list Q :=
  reverse ((fun i => (height_tri - inject_Z i * decr)%Q) <$> range 0 life).

(** The dictionary [dic] of [setInitial_Triangle]: the capacity of each
    of the [life] vintage years up to [y_start]. *)
Definition triangle_dic (y_start : Z) (cap : Q) (life : Z)
  : Result (gmap Z Q) :=
  let years := range (y_start - life + 1) (y_start + 1) in
  let* height_flat := fdiv cap life in
  let* decr := fdiv (2 * height_flat)%Q life in
  let height_tri := (2 * height_flat - decr / 2)%Q in
  let series := triangle_series height_tri decr life in
  ret (list_to_map (zip years series)).

Definition setInitial_Triangle (mat : DataFrame) (df : Partition) (life : Z)
  : Result DataFrame :=
  let* y_start := index_nth df 0 in
  let* cap := loc_Capacity df y_start in
  let* dic := triangle_dic y_start cap life in
  let* first_row := index_first mat in
  for_each (fun mat y => let* h := dict_get_Z dic y in
                         setInitial_row life mat y h)
           mat (range first_row (y_start + 1)).

(** One turn of the [for year in mat.index] loop of [reduceVintages];
    [None] in the first component is the [break]. *)
Definition reduce_row (life y_pres : Z) (addition : Q) (mat : DataFrame)
    (year : Z) : Result (option Q * DataFrame) :=
  let* val_rem := loc_get mat year y_pres in
  match val_rem with
  | Some R =>
      if Qlt_bool 0 R then
        if Qlt_bool R (Qabs addition) then
          ret (Some (addition + R)%Q,
               loc_set mat year y_pres (year + life - 1) 0%Q)
        else
          ret (None,
               loc_set mat year y_pres (year + life - 1) (R + addition)%Q)
      else ret (Some addition, mat)
  | None => ret (Some addition, mat)
  end.

Fixpoint reduce_loop (life y_pres : Z) (addition : Q) (mat : DataFrame)
    (todo : list Z) : Result DataFrame :=
  match todo with
  | [] => ret mat
  | year :: todo' =>
      let* r := reduce_row life y_pres addition mat year in
      match r with
      | (Some addition', mat') => reduce_loop life y_pres addition' mat' todo'
      | (None, mat') => ret mat'
      end
  end.

Definition reduceVintages (addition : Q) (mat : DataFrame) (life y_pres : Z)
  : Result DataFrame :=
  reduce_loop life y_pres addition mat (index mat).

(** [mat.loc[:, year].sum()] *)
Definition column_sum (mat : DataFrame) (year : Z) : Result Q :=
  let* col := loc_column mat year in
  ret (nansum col).

(** The body of the [while] loop of [setHistorical]. *)
Definition setHistorical_year (df : Partition) (life : Z) (mat : DataFrame)
    (year : Z) : Result DataFrame :=
  if decide (year ∈ years df) then
    let* cap := loc_Capacity df year in
    let* surviving := column_sum mat year in
    let addition := (cap - surviving)%Q in
    if Qle_bool 0 addition then
      ret (loc_set mat year year (year + life - 1) addition)
    else
      reduceVintages addition (loc_set mat year year (year + life - 1) 0%Q)
                     life year
  else
    ret (loc_set mat year year (year + life - 1) 0%Q).

(** [year] runs from [df.index[1]] to [df.index.max()], one by one. *)
Definition setHistorical (mat : DataFrame) (df : Partition) (life : Z)
  : Result DataFrame :=
  let* year := index_nth df 1 in
  for_each (setHistorical_year df life) mat (range year (index_max df + 1)).

(** ** [derive_vintage_cohorts_from_statistics] *)

(** A row of the result: the statistic's columns, [Year] renamed to
    [YearCommissioned]. *)
Record Cohort : Type := mkCohort {
  cCountry : string;
  cTechnology : string;
  cFueltype : string;
  cSet : string;
  YearCommissioned : Z;
  Capacity : Q
}.

(** The fuel types that get the triangle distribution. *)
Definition triangle_fueltypes : list string :=
  ["Solar"; "Wind"; "Bioenergy"; "Geothermal"]%string.

(** [np.isclose(x, 0)] with numpy's default tolerances: [|x| <= 1e-8]. *)
Definition isclose0 (x : Q) : bool := Qle_bool (Qabs x) (1 # 100000000).

(** [add[add.Capacity > 0.0]], one row of it: the rows of [add] pair the
    labels of [mat.index] with the cells of the column at [base_year]. *)
Definition cohort_row (dfs : Partition) (row : Z * option Q)
  : option Cohort :=
  match row.2 with
  | Some v =>
      if Qlt_bool 0 v
      then Some (mkCohort (Country dfs) (Technology dfs) (Fueltype dfs)
                          (Set_ dfs) row.1 v)
      else None
  | None => None
  end.

(** The matrix as it is created: vintage years up to the year before
    the last observed one as rows, [life - 1] more years as columns on
    the right. *)
Definition fresh_matrix (y_start y_end life : Z) : DataFrame :=
  DataFrame_new (range (y_start - life + 1) (y_end + life))
                (range (y_start - life + 1) y_end).

(** The choice between the two initial distributions. *)
Definition setInitial (mat : DataFrame) (dfs : Partition) (life : Z)
  : Result DataFrame :=
  if decide (Fueltype dfs ∈ triangle_fueltypes)
  then setInitial_Triangle mat dfs life
  else setInitial_Flat mat dfs life.

(** The matrix of a partition after the initial distribution and the
    walk through the observed years. *)
Definition cohort_matrix (fueltype_to_life : gmap string Z) (dfs : Partition)
  : Result (Z * DataFrame) :=
  let* y_start := index_nth dfs 0 in
  let* y_end := index_last dfs in
  let* life := dict_get_str fueltype_to_life (Fueltype dfs) in
  let* mat := setInitial (fresh_matrix y_start y_end life) dfs life in
  let* mat := if decide (y_end > y_start)
              then setHistorical mat dfs life
              else ret mat in
  ret (life, mat).

(** The body of the loop over the groups: the rows one partition adds to
    the result. *)
Definition derive_partition (fueltype_to_life : gmap string Z)
    (base_year : Z) (dfs : Partition) : Result (list Cohort) :=
  let* lm := cohort_matrix fueltype_to_life dfs in
  let mat := lm.2 in
  let* caps := loc_column mat base_year in
  ret (omap (cohort_row dfs) (zip (index mat) caps)).

(** The body of the loop over the groups: [dfe = pd.concat([dfe, add])]. *)
Definition append_partition (fueltype_to_life : gmap string Z)
    (base_year : Z) (dfe : list Cohort) (dfs : Partition)
  : Result (list Cohort) :=
  let* add := derive_partition fueltype_to_life base_year dfs in
  ret (dfe ++ add).

Definition derive_vintage_cohorts_from_statistics
    (fueltype_to_life : gmap string Z) (df : list Partition) (base_year : Z)
  : Result (list Cohort) :=
  let* dfe := for_each (append_partition fueltype_to_life base_year) [] df in
  ret (filter (fun row => isclose0 (Capacity row) = false) dfe).

(** ** Logging *)

(** The records the module hands to [logger]: the one warning of
    [aggregate_RES_by_yeardiff], with the country and the technology it
    is formatted with. *)
Inductive log_record : Type :=
| YearColumnNotContinuous (country technology : string).

(** A computation of the module: the records it logs, and its value. *)
Definition Logged (A : Type) : Type := (list log_record * A)%type.

(** [(stats.Year.diff().fillna(1) != 1).any()] *)
Fixpoint year_not_continuous (ys : list Z) : bool :=
  match ys with
  | y :: ((y' :: _) as rest) =>
      negb (y' - y =? 1) || year_not_continuous rest
  | _ => false
  end.

(** [stats.Capacity.diff()], after the first row. *)
Fixpoint Capacity_diff (previous : Q) (l : list (Z * Q)) : list (Z * Q) :=
  match l with
  | [] => []
  | (y, c) :: l' => (y, (c - previous)%Q) :: Capacity_diff c l'
  end.

(** The body of the loop of [aggregate_RES_by_yeardiff] on one group: the
    warning when the years are not consecutive, then the additions
    [stats.Capacity.diff().fillna(stats.Capacity.iloc[0])] by year. *)
Definition aggregate_RES_by_yeardiff_group (stats : Partition)
  : Logged (list (Z * Q)) :=
  (if year_not_continuous (years stats)
   then [YearColumnNotContinuous (Country stats) (Technology stats)]
   else [],
   match rows stats with
   | [] => []
   | (y, c) :: l => (y, c) :: Capacity_diff c l
   end).


(** * Predicates and quantities of the properties *)

(** ** The cohort matrix and its invariants *)

Definition cell (mat : DataFrame) (r c : Z) : option Q := cells mat !! (r, c).

(** The row labels are distinct, only cells of the frame hold a number,
    and the column labels are consecutive years. *)
Definition well_formed (mat : DataFrame) : Prop :=
  NoDup (index mat)
  /\ (forall r c, is_Some (cell mat r c) -> r ∈ index mat /\ c ∈ columns mat)
  /\ exists lo hi, columns mat = range lo hi.

Definition non_negative (mat : DataFrame) : Prop :=
  forall r c v, cell mat r c = Some v -> (0 <= v)%Q.

(** The cell holds a number other than zero. *)
Definition nonzero (mat : DataFrame) (r c : Z) : Prop :=
  exists v, cell mat r c = Some v /\ ~ (v == 0)%Q.

(** The non-zero cells of every row [r] lie in [[r, r+life-1]] and have
    no gap between them. *)
Definition span_ok (life : Z) (mat : DataFrame) : Prop :=
  forall r,
    (forall c, nonzero mat r c -> r <= c <= r + life - 1)
    /\ (forall c1 c c2, nonzero mat r c1 -> nonzero mat r c2 ->
                        c1 <= c <= c2 -> nonzero mat r c).

(** The invariant of the rows' spans, with the well-formedness of the
    frame it is kept together with. *)
Definition span_invariant (life : Z) (mat : DataFrame) : Prop :=
  well_formed mat /\ span_ok life mat.

(** The matrix of a partition whose oldest vintage year is [lo] and whose
    last observed year is [y_end]: the columns it was created with, and
    as rows the vintage years in ascending order, up to [y_end - 1] or,
    once that row has been written, up to [y_end]. *)
Definition matrix_shape (lo y_end life : Z) (mat : DataFrame) : Prop :=
  well_formed mat
  /\ columns mat = range lo (y_end + life)
  /\ (index mat = range lo y_end \/ index mat = range lo (y_end + 1)).

(** No row from the vintage year [y] on holds a number. *)
Definition unassigned_from (y : Z) (mat : DataFrame) : Prop :=
  forall r c, y <= r -> cell mat r c = None.

(** ** Sums over a column, and the waterfall *)

(** The value a cell adds to a sum: NaN adds nothing. *)
Definition nan0 (o : option Q) : Q := default 0%Q o.

(** [mat.loc[:, c].sum()] when [c] is a column. *)
Definition colsum (mat : DataFrame) (c : Z) : Q :=
  nansum ((fun r => cell mat r c) <$> index mat).

(** The positive part of a cell: what the row can still give up. *)
Definition pos (o : option Q) : Q :=
  match o with
  | Some v => if Qlt_bool 0 v then v else 0%Q
  | None => 0%Q
  end.

(** The capacity of the vintages [l] that is alive at the year [Y]. *)
Definition surviving (mat : DataFrame) (Y : Z) (l : list Z) : Q :=
  foldr (fun r acc => (pos (cell mat r Y) + acc)%Q) 0%Q l.

(** The vintage rows older than [r]. *)
Definition older_vintages (mat : DataFrame) (r : Z) : list Z :=
  filter (fun r' => r' < r) (index mat).

(** What the waterfall leaves in the row [r], when the older vintages
    hold [older] at the year [Y] and the deficit is [D]: a row with a
    positive value [v] at [Y] is zeroed from [Y] to its scheduled end when
    the deficit left for it exceeds [v], is set to what remains of [v]
    when the deficit ends in it, and is left alone when the older rows
    absorbed the deficit; outside [[Y, r+life-1]] nothing changes, and a
    row without a positive value at [Y] is left alone. *)
Definition waterfall_row (life Y : Z) (D older : Q) (mat mat' : DataFrame)
    (r : Z) : Prop :=
  (forall c, ~ (Y <= c <= r + life - 1 /\ c ∈ columns mat) ->
     cell mat' r c = cell mat r c)
  /\ (forall v, cell mat r Y = Some v -> (0 < v)%Q ->
        ((older + v < D)%Q ->
           forall c, Y <= c <= r + life - 1 -> c ∈ columns mat ->
             cell mat' r c = Some 0%Q)
        /\ ((older < D)%Q -> (D <= older + v)%Q ->
              forall c, Y <= c <= r + life - 1 -> c ∈ columns mat ->
                exists v', cell mat' r c = Some v'
                           /\ (v' == v - (D - older))%Q)
        /\ ((D <= older)%Q -> forall c, cell mat' r c = cell mat r c))
  /\ ((forall v, cell mat r Y = Some v -> (v <= 0)%Q) ->
      forall c, cell mat' r c = cell mat r c).

(** ** The values of the initial distributions *)

(** [height_flat], [decr] and [height_tri] as [setInitial_Flat] and
    [setInitial_Triangle] compute them from the first capacity. *)
Definition flat_height (cap : Q) (life : Z) : Q := (cap / inject_Z life)%Q.
Definition triangle_decr (cap : Q) (life : Z) : Q :=
  (2 * flat_height cap life / inject_Z life)%Q.
Definition triangle_height (cap : Q) (life : Z) : Q :=
  (2 * flat_height cap life - triangle_decr cap life / 2)%Q.

(** The term of index [i] of the comprehension: the capacity of the
    vintage year [i] years before the first observed one. *)
Definition triangle_value (cap : Q) (life : Z) (i : Z) : Q :=
  (triangle_height cap life - inject_Z i * triangle_decr cap life)%Q.

(** The capacity the chosen policy gives the vintage year [y]. *)
Definition initial_value (dfs : Partition) (cap : Q) (life y_start y : Z)
  : Q :=
  if decide (Fueltype dfs ∈ triangle_fueltypes)
  then triangle_value cap life (y_start - y)
  else flat_height cap life.

(** ** Stretches of the loops *)

(** Both [setInitial_Flat] and [setInitial_Triangle] end in this loop,
    with [value y] the capacity they give the vintage year [y]. *)
Definition initial_loop (value : Z -> Result Q) (life : Z)
    (mat : DataFrame) (rows : list Z) : Result DataFrame :=
  for_each (fun mat y => let* h := value y in setInitial_row life mat y h)
           mat rows.

(** The turns of the [while] loop for the years [from .. to_ - 1]. *)
Definition walk (df : Partition) (life : Z) (mat : DataFrame)
    (from to_ : Z) : Result DataFrame :=
  for_each (setHistorical_year df life) mat (range from to_).

(** ** Inputs and exceptions *)

(** The years of the partition are in strictly increasing order: every
    year at most once, the first observed year first. *)
Definition sorted_years (df : Partition) : Prop :=
  StronglySorted Z.lt (years df).



Definition is_KeyError (e : exn) : Prop := exists k, e = KeyError k.

(** ** The inputs of the examples *)

(** The scenario of the design document: one partition of a fuel type with
    the flat distribution, a life of three years, three observed years. *)
Definition scenario : Partition :=
  mkPartition "DE" "Run-Of-River" "Hydro" "PP"
    [(2000, 100%Q); (2001, 120%Q); (2002, 90%Q)].

Definition scenario_lifetimes : gmap string Z := {[ "Hydro"%string := 3 ]}.

(** A partition of a fuel type with the triangle distribution. *)
Definition scenario_wind : Partition :=
  mkPartition "DE" "Onshore" "Wind" "PP"
    [(2000, 100%Q); (2001, 120%Q); (2002, 90%Q)].

(** A partition with a gap: no statistic for 2002. *)
Definition gap_scenario : Partition :=
  mkPartition "DE" "Run-Of-River" "Hydro" "PP"
    [(2000, 100%Q); (2001, 120%Q); (2003, 90%Q)].

(** A partition observed at a decline: 100 in 2000, 40 in 2001. *)
Definition decline_scenario : Partition :=
  mkPartition "DE" "Run-Of-River" "Hydro" "PP"
    [(2000, 100%Q); (2001, 40%Q)].

(** One statistic, for the year 2000. *)
Definition lone_year (fueltype : string) : Partition :=
  mkPartition "DE" "-" fueltype "PP" [(2000, 100%Q)].

(** ** The result frame *)





(** The rows a partition contributes, read off its matrix: one for every
    vintage row whose cell at [base_year] is positive. *)
Definition cohorts_of (dfs : Partition) (mat : DataFrame) (base_year : Z)
  : list Cohort :=
  omap (cohort_row dfs)
       (zip (index mat) ((fun r => cell mat r base_year) <$> index mat)).

(** * The aggregations of the module *)

(** ** Frames of statistics, row by row *)

(** A row of a frame of capacity statistics, with the columns the module
    reads.  [Technology] can be missing (NaN); the other columns hold a
    value in every row.  The index of a frame is unique: the embedding
    labels the rows by their position. *)
Record Statistic : Type := mkStatistic {
  sCountry : string;
  sTechnology : option string;
  sFueltype : string;
  sSet : string;
  sYear : Z;
  sCapacity : Q
}.

(** A row of the result of [aggregate_RES_by_yeardiff]: [Year] renamed to
    [YearCommissioned], and [Addition], a float column, to [Capacity]. *)
Record Addition : Type := mkAddition {
  aCountry : string;
  aTechnology : option string;
  aFueltype : string;
  aSet : string;
  aYearCommissioned : Z;
  aCapacity : option Q
}.

(** The order of Python strings. *)
Definition str_le (a b : string) : Prop := String.leb a b = true.

Definition str_le_dec (a b : string) : Decision (str_le a b) :=
  decide (String.leb a b = true).

(** The keys of a [groupby] as it yields them: each once, in ascending
    order. *)
Definition group_keys (l : list string) : list string :=
  @merge_sort string str_le str_le_dec (remove_dups l).

(** The rows with their index labels. *)
Definition labelled {A} (df : list A) : list (nat * A) :=
  zip (seq 0 (length df)) df.

(** ** [aggregate_RES_by_yeardiff] *)

Definition default_target_fueltypes : list string :=
  ["Wind"; "Solar"; "Bioenergy"]%string.

(** [Capacity.diff()], after the first row. *)
Fixpoint diff (previous : Q) (l : list Q) : list Q :=
  match l with
  | [] => []
  | c :: l' => (c - previous)%Q :: diff c l'
  end.

(** [stats.Capacity.diff().fillna(stats.Capacity.iloc[0])] *)
Definition diff_fillna_first (l : list Q) : list Q :=
  match l with
  | [] => []
  | c :: l' => c :: diff c l'
  end.

(** [df.update(stats)], on the column [Addition]: the values of [stats]
    replace those of the rows with the same labels. *)
Definition update_Addition (addition : gmap nat Q) (stats : list (nat * Q))
  : gmap nat Q :=
  list_to_map stats ∪ addition.

(** The body of the inner loop: the warning, then the additions of the
    group written into [df].  The state is the log and the column
    [Addition], a missing key standing for NaN. *)
Definition yeardiff_group (c tech : string) (stats : list (nat * Statistic))
    (st : Logged (gmap nat Q)) : Logged (gmap nat Q) :=
  (st.1 ++ (if year_not_continuous ((fun ir => sYear ir.2) <$> stats)
            then [YearColumnNotContinuous c tech] else []),
   update_Addition st.2
     (zip (fst <$> stats)
          (diff_fillna_first ((fun ir => sCapacity ir.2) <$> stats)))).

(** The body of the outer loop: [df_country.groupby(['Technology'])]
    leaves out the rows without a technology. *)
Definition yeardiff_country (df : list (nat * Statistic))
    (st : Logged (gmap nat Q)) (c : string) : Logged (gmap nat Q) :=
  let df_country := filter (fun ir => sCountry ir.2 = c) df in
  foldl (fun st tech =>
           yeardiff_group c tech
             (filter (fun ir => sTechnology ir.2 = Some tech) df_country) st)
        st (group_keys (omap (fun ir => sTechnology ir.2) df_country)).

Definition aggregate_RES_by_yeardiff (df : list Statistic)
    (target_fueltypes : option (list string)) : Logged (list Addition) :=
  let target_fueltypes := default default_target_fueltypes target_fueltypes in
  let df := labelled (filter (fun row => sFueltype row ∈ target_fueltypes)
                             df) in
  let st := foldl (yeardiff_country df) ([], ∅)
                  (group_keys ((fun ir => sCountry ir.2) <$> df)) in
  (st.1,
   (fun ir => mkAddition (sCountry ir.2) (sTechnology ir.2) (sFueltype ir.2)
                         (sSet ir.2) (sYear ir.2) (st.2 !! ir.1)) <$> df).

(** ** Quantities of the properties of the aggregations *)

(** The rows of a frame of statistics the function keeps, and among them
    those of one (Country, Technology) group, in the order of the frame. *)
Definition kept_statistics (target_fueltypes : option (list string))
    (df : list Statistic) : list Statistic :=
  filter (fun row => sFueltype row
                     ∈ default default_target_fueltypes target_fueltypes) df.

Definition statistics_group (c tech : string) (df : list Statistic)
  : list Statistic :=
  filter (fun row => sCountry row = c /\ sTechnology row = Some tech) df.

Definition additions_group (c tech : string) (out : list Addition)
  : list Addition :=
  filter (fun row => aCountry row = c /\ aTechnology row = Some tech) out.

(** The groups the two loops of [aggregate_RES_by_yeardiff] run through,
    in their order, and what the body does for one of them: the rows
    [stats], the values it writes into [Addition], the records it logs. *)
Definition groups_of (df : list (nat * Statistic)) : list (string * string) :=
  group_keys ((fun ir => sCountry ir.2) <$> df) ≫= fun c =>
    (fun tech => (c, tech))
      <$> group_keys (omap (fun ir => sTechnology ir.2)
                           (filter (fun ir => sCountry ir.2 = c) df)).

Definition group_stats (df : list (nat * Statistic)) (g : string * string)
  : list (nat * Statistic) :=
  filter (fun ir => sTechnology ir.2 = Some g.2)
         (filter (fun ir => sCountry ir.2 = g.1) df).

Definition group_additions (df : list (nat * Statistic))
    (g : string * string) : gmap nat Q :=
  list_to_map
    (zip (fst <$> group_stats df g)
         (diff_fillna_first ((fun ir => sCapacity ir.2)
                               <$> group_stats df g))).

Definition group_warning (df : list (nat * Statistic))
    (g : string * string) : list log_record :=
  if year_not_continuous ((fun ir => sYear ir.2) <$> group_stats df g)
  then [YearColumnNotContinuous g.1 g.2] else [].

(** ** Frames of units, row by row *)

(** A row of a frame of power plant units, with the columns
    [average_empty_commyears] and [aggregate_RES_by_commyear] read.
    [YearCommissioned] is a float column, NaN where the year is not
    known; [Technology] can be missing. *)
Record Unit : Type := mkUnit {
  uCountry : string;
  uFueltype : string;
  uTechnology : option string;
  uYearCommissioned : option Q;
  uCapacity : Q
}.

(** A row once [YearCommissioned] is an integer column. *)
Record DatedUnit : Type := mkDatedUnit {
  dCountry : string;
  dFueltype : string;
  dTechnology : option string;
  dYearCommissioned : Z;
  dCapacity : Q
}.

(** ** [average_empty_commyears] *)

(** The [ValueError] of [average_empty_commyears], with the count its
    message is formatted with. *)
Inductive ValueError : Type :=
| EmptyYearCommissioned (count : nat).

(** The numbers of a float Series. *)
Definition notnull (l : list (option Q)) : list Q := omap id l.

(** [Series.mean()]: NaN entries are skipped, and the mean of no number
    is NaN. *)
Definition nanmean (l : list (option Q)) : option Q :=
  match notnull l with
  | [] => None
  | ys => Some (nansum l / inject_Z (Z.of_nat (length ys)))%Q
  end.

(** [df.groupby(keys).YearCommissioned.transform("mean")], at the row
    [row]: the mean of the group of the row. *)
Definition transform_mean {K} `{EqDecision K} (key : Unit -> K)
    (df : list Unit) (row : Unit) : option Q :=
  nanmean (uYearCommissioned <$> filter (fun r => key r = key row) df).

(** [df.YearCommissioned.fillna(
       df.groupby(keys).YearCommissioned.transform("mean"),
       inplace=True)]; the fill reaches the frame. *)
Definition fillna_row {K} `{EqDecision K} (key : Unit -> K)
    (df : list Unit) (row : Unit) : Unit :=
  match uYearCommissioned row with
  | Some _ => row
  | None => mkUnit (uCountry row) (uFueltype row) (uTechnology row)
                   (transform_mean key df row) (uCapacity row)
  end.

Definition fillna_mean {K} `{EqDecision K} (key : Unit -> K)
    (df : list Unit) : list Unit :=
  fillna_row key df <$> df.

(** [astype(int)] on a float: the fraction is cut off. *)
Definition astype_int (x : Q) : Z := Z.quot (Qnum x) (Z.pos (Qden x)).

Definition with_int_year (row : Unit) : option DatedUnit :=
  match uYearCommissioned row with
  | Some y => Some (mkDatedUnit (uCountry row) (uFueltype row)
                                (uTechnology row) (astype_int y)
                                (uCapacity row))
  | None => None
  end.

Definition average_empty_commyears (df : list Unit)
  : ValueError + list DatedUnit :=
  let df := fillna_mean (fun row => (uCountry row, uFueltype row)) df in
  let df := fillna_mean uFueltype df in
  let df := fillna_mean uCountry df in
  let empty := filter (fun row => uYearCommissioned row = None) df in
  if decide (empty = []) then inr (omap with_int_year df)
  else inl (EmptyYearCommissioned (length empty)).

(** ** Quantities of the properties of [average_empty_commyears] *)

(** The fuel type of the row has a commissioning year in some row of
    the frame. *)
Definition fueltype_dated (df : list Unit) (row : Unit) : Prop :=
  Exists (fun r => uFueltype r = uFueltype row
                   /\ is_Some (uYearCommissioned r)) df.

(** The country of the row has a row of such a fuel type. *)
Definition fillable (df : list Unit) (row : Unit) : Prop :=
  Exists (fun r => uCountry r = uCountry row /\ fueltype_dated df r) df.

#[global] Instance fueltype_dated_dec (df : list Unit) (row : Unit) :
  Decision (fueltype_dated df row).
Proof. unfold fueltype_dated. apply _. Defined.

#[global] Instance fillable_dec (df : list Unit) (row : Unit) :
  Decision (fillable df row).
Proof. unfold fillable. apply _. Defined.

(** The row after the three fills. *)
Definition filled (df : list Unit) (row : Unit) : Unit :=
  let df1 := fillna_mean (fun r => (uCountry r, uFueltype r)) df in
  let df2 := fillna_mean uFueltype df1 in
  fillna_row uCountry df2
    (fillna_row uFueltype df1
       (fillna_row (fun r => (uCountry r, uFueltype r)) df row)).



(** A frame of units for the examples: two years are known for wind in
    DE, none for solar. *)
Definition units_example : list Unit :=
  [mkUnit "DE" "Wind" (Some "Onshore") (Some 2000%Q) 10%Q;
   mkUnit "DE" "Wind" None None 5%Q;
   mkUnit "DE" "Wind" (Some "-") (Some 2003%Q) 2%Q;
   mkUnit "FR" "Wind" None None 1%Q;
   mkUnit "FR" "Solar" (Some "PV") None 3%Q]%string.

(** ** [aggregate_RES_by_commyear] *)

(** A row of the result: one cohort per country, commissioning year,
    fuel type and technology.  The three string columns are NaN where
    [replace] found the placeholder. *)
Record CommyearCohort : Type := mkCommyearCohort {
  gCountry : option string;
  gYearCommissioned : Z;
  gFueltype : option string;
  gTechnology : option string;
  gCapacity : Q;
  gSet : string
}.

(** The key of a row in
    [groupby(['Country','YearCommissioned','Fueltype','Technology'])],
    after [df.Technology.fillna('-')]. *)
Definition commyear_key : Type := (string * Z * string * string)%type.

Definition commyear_key_of (row : DatedUnit) : commyear_key :=
  (dCountry row, dYearCommissioned row, dFueltype row,
   default "-"%string (dTechnology row)).

(** The order of the group keys: tuples compare level by level. *)
Definition commyear_key_compare (a b : commyear_key) : comparison :=
  match String.compare a.1.1.1 b.1.1.1 with
  | Eq => match Z.compare a.1.1.2 b.1.1.2 with
          | Eq => match String.compare a.1.2 b.1.2 with
                  | Eq => String.compare a.2 b.2
                  | o => o
                  end
          | o => o
          end
  | o => o
  end.

Definition commyear_key_le (a b : commyear_key) : Prop :=
  commyear_key_compare a b <> Gt.

Definition commyear_key_le_dec (a b : commyear_key)
  : Decision (commyear_key_le a b) :=
  decide (commyear_key_compare a b <> Gt).

(** [Series.sum()] on a float column without NaN. *)
Definition Qsum (l : list Q) : Q := foldr Qplus 0%Q l.

(** [replace({'-': np.NaN})], on one string. *)
Definition replace_dash (s : string) : option string :=
  if decide (s = "-"%string) then None else Some s.

(** The row of one group: the key, the sum of the capacities of the
    group, and the [Set] the function assigns. *)
Definition commyear_cohort (df : list DatedUnit) (k : commyear_key)
  : CommyearCohort :=
  mkCommyearCohort (replace_dash k.1.1.1) k.1.1.2 (replace_dash k.1.2)
    (replace_dash k.2)
    (Qsum (dCapacity <$> filter (fun row => commyear_key_of row = k) df))
    "PP".

Definition aggregate_RES_by_commyear (df : list Unit)
    (target_fueltypes : option (list string))
  : ValueError + list CommyearCohort :=
  let target_fueltypes := default default_target_fueltypes target_fueltypes in
  let df := filter (fun row => uFueltype row ∈ target_fueltypes) df in
  match average_empty_commyears df with
  | inl e => inl e
  | inr df =>
      let keys := @merge_sort commyear_key commyear_key_le
                    commyear_key_le_dec
                    (remove_dups (commyear_key_of <$> df)) in
      inr (commyear_cohort df <$> keys)
  end.

(** ** Quantities of the properties of [aggregate_RES_by_commyear] *)

(** The units the function keeps. *)
Definition kept_units (target_fueltypes : option (list string))
    (df : list Unit) : list Unit :=
  filter (fun row => uFueltype row
                     ∈ default default_target_fueltypes target_fueltypes) df.

(** ** Statistics of later years *)

(** The partition with the statistics of later years appended. *)
Definition extend (dfs : Partition) (later : list (Z * Q)) : Partition :=
  mkPartition (Country dfs) (Technology dfs) (Fueltype dfs) (Set_ dfs)
              (rows dfs ++ later).

(** Two matrices hold the same cells. *)
Definition same_cells (m' m : DataFrame) : Prop :=
  forall r c, cell m' r c = cell m r c.

(** The matrix [m'] of the statistics up to the year [Y] and the matrix
    [m] of a partition with statistics up to a later year [y_end], at
    the same point of the two runs. *)
Definition same_run (lo Y y_end life : Z) (m' m : DataFrame) : Prop :=
  matrix_shape lo Y life m' /\ matrix_shape lo y_end life m
  /\ same_cells m' m.

(** The statistics of [dfs] reach a year at or after [base_year], its
    matrix is created with a row, and [later] holds statistics of the
    years after. *)
Definition extended_after (fueltype_to_life : gmap string Z)
    (base_year : Z) (dfs : Partition) (later : list (Z * Q)) : Prop :=
  sorted_years (extend dfs later)
  /\ exists y_start Y life,
       index_nth dfs 0 = inr y_start /\ index_last dfs = inr Y
       /\ fueltype_to_life !! Fueltype dfs = Some life /\ 0 < life
       /\ y_start - life + 1 < Y /\ base_year <= Y.

(** ** Years without a statistic *)

(** A positive value is held only in the row of an observed year, or of
    a year up to [y_start]. *)
Definition positive_rows_observed (dfs : Partition) (y_start : Z)
    (mat : DataFrame) : Prop :=
  forall r c v, cell mat r c = Some v -> (0 < v)%Q ->
                r ∈ years dfs \/ r <= y_start.

(** ** Base years after the last statistic *)


(** The cohort has not reached its lifetime in the year [b]. *)
Definition alive_in (life b : Z) (row : Cohort) : Prop :=
  b <= YearCommissioned row + life - 1.

#[global] Instance alive_in_dec (life b : Z) (row : Cohort) :
  Decision (alive_in life b row).
Proof. unfold alive_in. apply _. Defined.

(** * Properties *)

(** ** The error monad and the float comparisons *)

Lemma bind_inr {A B} (m : Result A) (f : A -> Result B) (y : B) :
  bind m f = inr y <-> exists x, m = inr x /\ f x = inr y.
Proof.
  destruct m as [e|x]; simpl; split.
  - discriminate.
  - intros (x & Hx & _). discriminate.
  - eauto.
  - intros (x' & Hx & Hf). congruence.
Qed.

Lemma bind_inl {A B} (m : Result A) (f : A -> Result B) (e : exn) :
  bind m f = inl e <-> m = inl e \/ exists x, m = inr x /\ f x = inl e.
Proof.
  destruct m as [e'|x]; simpl; split.
  - intros [= ->]. by left.
  - intros [H | (x & Hx & _)]; congruence.
  - eauto.
  - intros [H | (x' & Hx & Hf)]; congruence.
Qed.

Lemma for_each_app {S A} (body : S -> A -> Result S) s (l1 l2 : list A) :
  for_each body s (l1 ++ l2)
  = bind (for_each body s l1) (fun s' => for_each body s' l2).
Proof.
  revert s; induction l1 as [|x l1 IH]; intros s; simpl; [done|].
  destruct (body s x) as [e|s']; simpl; [done|apply IH].
Qed.

(** A loop whose body keeps an invariant and cannot raise returns, with
    the invariant. *)
Lemma for_each_total {S A} (I : S -> Prop) (body : S -> A -> Result S)
    (l : list A) (s : S) :
  (forall s x, x ∈ l -> I s -> exists s', body s x = inr s' /\ I s') ->
  I s -> exists s', for_each body s l = inr s' /\ I s'.
Proof.
  revert s; induction l as [|x l IH]; intros s Hbody Hs; simpl.
  - eauto.
  - destruct (Hbody s x) as (s1 & -> & Hs1); [left|done|]. simpl.
    apply IH; [|done]. intros s2 y Hy. apply Hbody. by right.
Qed.

(** A loop keeps what each turn of its body keeps. *)
Lemma for_each_preserves {S A} (I : S -> Prop) (body : S -> A -> Result S)
    (l : list A) (s s' : S) :
  (forall s x s', x ∈ l -> I s -> body s x = inr s' -> I s') ->
  I s -> for_each body s l = inr s' -> I s'.
Proof.
  revert s; induction l as [|x l IH]; intros s Hbody Hs H; simpl in H.
  - by injection H as <-.
  - apply bind_inr in H as (s1 & H1 & H).
    apply (IH s1); [|apply (Hbody s x s1); [left|done|done]|done].
    intros s2 y s3 Hy. apply Hbody. by right.
Qed.

Lemma Qlt_bool_true (x y : Q) : Qlt_bool x y = true <-> (x < y)%Q.
Proof.
  unfold Qlt_bool. rewrite negb_true_iff.
  destruct (Qle_bool y x) eqn:E.
  - apply Qle_bool_iff in E. split; [discriminate|]. intros H.
    exfalso. by apply (Qlt_not_le x y).
  - split; [|done]. intros _. apply Qnot_le_lt. intros H.
    apply Qle_bool_iff in H. congruence.
Qed.

Lemma Qlt_bool_false (x y : Q) : Qlt_bool x y = false <-> (y <= x)%Q.
Proof.
  unfold Qlt_bool. rewrite negb_false_iff. apply Qle_bool_iff.
Qed.

Lemma Qle_bool_false (x y : Q) : Qle_bool x y = false <-> (y < x)%Q.
Proof.
  pose proof (Qlt_bool_true y x) as H. unfold Qlt_bool in H.
  rewrite negb_true_iff in H. exact H.
Qed.

Lemma elem_of_range (a b k : Z) : k ∈ range a b <-> a <= k < b.
Proof. unfold range. rewrite elem_of_seqZ. lia. Qed.

Lemma NoDup_range (a b : Z) : NoDup (range a b).
Proof. apply NoDup_seqZ. Qed.

(** ** Reading the matrix after a write *)

Lemma elem_of_label_slice (axis : list Z) (a b c : Z) :
  c ∈ label_slice axis a b <-> a <= c <= b /\ c ∈ axis.
Proof. unfold label_slice. by rewrite list_elem_of_filter. Qed.

Lemma lookup_foldr_insert (r : Z) (v : Q) (l : list Z) (m : gmap (Z * Z) Q)
    (r' c' : Z) :
  foldr (fun c m => <[(r, c) := v]> m) m l !! (r', c')
  = if decide (r' = r /\ c' ∈ l) then Some v else m !! (r', c').
Proof.
  induction l as [|c l IH]; simpl.
  - case_decide as H; [|done]. destruct H as [_ H]. by apply elem_of_nil in H.
  - destruct (decide ((r, c) = (r', c'))) as [[= <- <-]|Hne].
    + rewrite lookup_insert_eq. rewrite decide_True; [done|].
      split; [done|left].
    + rewrite lookup_insert_ne by done. rewrite IH.
      repeat case_decide; try done.
      * exfalso. destruct H as [-> H]. apply H0. split; [done|by right].
      * exfalso. destruct H0 as [-> H0]. apply elem_of_cons in H0 as [->|H0].
        -- by apply Hne.
        -- by apply H.
Qed.

Lemma loc_set_lookup (mat : DataFrame) (r a b : Z) (v : Q) (r' c' : Z) :
  cells (loc_set mat r a b v) !! (r', c')
  = if decide (r' = r /\ a <= c' <= b /\ c' ∈ columns mat)
    then Some v else cells mat !! (r', c').
Proof.
  unfold loc_set; simpl. rewrite lookup_foldr_insert.
  repeat case_decide; try done; exfalso.
  - destruct H as [-> H]. apply elem_of_label_slice in H. tauto.
  - destruct H0 as (-> & H1 & H2). apply H. split; [done|].
    by apply elem_of_label_slice.
Qed.

Lemma loc_set_lookup_in (mat : DataFrame) (r a b : Z) (v : Q) (c : Z) :
  a <= c <= b -> c ∈ columns mat ->
  cells (loc_set mat r a b v) !! (r, c) = Some v.
Proof. intros. rewrite loc_set_lookup. by rewrite decide_True. Qed.

Lemma loc_set_lookup_other_row (mat : DataFrame) (r a b : Z) (v : Q)
    (r' c : Z) :
  r' <> r -> cells (loc_set mat r a b v) !! (r', c) = cells mat !! (r', c).
Proof. intros. rewrite loc_set_lookup. rewrite decide_False; [done|tauto]. Qed.

Lemma loc_set_columns (mat : DataFrame) (r a b : Z) (v : Q) :
  columns (loc_set mat r a b v) = columns mat.
Proof. done. Qed.

Lemma loc_set_index (mat : DataFrame) (r a b : Z) (v : Q) (r' : Z) :
  r' ∈ index (loc_set mat r a b v) <-> r' ∈ index mat \/ r' = r.
Proof.
  unfold loc_set; simpl. case_decide as H.
  - split; [tauto|]. intros [?| ->]; done.
  - rewrite elem_of_app, list_elem_of_singleton. tauto.
Qed.

(** ** Invariants of the cohort matrix *)

Lemma cell_new (cols idx : list Z) (r c : Z) :
  cell (DataFrame_new cols idx) r c = None.
Proof. apply lookup_empty. Qed.

Lemma well_formed_new (cols_lo cols_hi : Z) (idx : list Z) :
  NoDup idx -> well_formed (DataFrame_new (range cols_lo cols_hi) idx).
Proof.
  intros Hnd. split; [done|]. split; [|by eexists _, _].
  intros r c [v Hv]. by rewrite cell_new in Hv.
Qed.

Lemma non_negative_new (cols idx : list Z) :
  non_negative (DataFrame_new cols idx).
Proof. intros r c v Hv. by rewrite cell_new in Hv. Qed.

Lemma span_ok_new (life : Z) (cols idx : list Z) :
  span_ok life (DataFrame_new cols idx).
Proof.
  assert (forall r c, ~ nonzero (DataFrame_new cols idx) r c) as Hnone.
  { intros r c (v & Hv & _). by rewrite cell_new in Hv. }
  intros r. split.
  - intros c H. by apply Hnone in H.
  - intros c1 c c2 H. by apply Hnone in H.
Qed.

Lemma well_formed_loc_set (mat : DataFrame) (r a b : Z) (v : Q) :
  well_formed mat -> well_formed (loc_set mat r a b v).
Proof.
  intros (Hnd & Hdom & Hcols). split; [|split; [|done]].
  - unfold loc_set; simpl. case_decide as Hr; [done|].
    apply NoDup_app. split; [done|]. split; [|apply NoDup_singleton].
    intros x Hx ->%list_elem_of_singleton. done.
  - intros r' c'. unfold cell. rewrite loc_set_lookup, loc_set_index.
    case_decide as H.
    + destruct H as (-> & _ & Hc). by auto.
    + intros H'. apply Hdom in H'. tauto.
Qed.

Lemma non_negative_loc_set (mat : DataFrame) (r a b : Z) (v : Q) :
  (0 <= v)%Q -> non_negative mat -> non_negative (loc_set mat r a b v).
Proof.
  intros Hv Hmat r' c' v'. unfold cell. rewrite loc_set_lookup.
  case_decide; [by intros [= <-]|apply Hmat].
Qed.

Lemma nonzero_loc_set (mat : DataFrame) (r a b : Z) (v : Q) (r' c : Z) :
  nonzero (loc_set mat r a b v) r' c
  <-> (r' = r /\ a <= c <= b /\ c ∈ columns mat /\ ~ (v == 0)%Q)
      \/ (~ (r' = r /\ a <= c <= b /\ c ∈ columns mat) /\ nonzero mat r' c).
Proof.
  unfold nonzero, cell. rewrite loc_set_lookup. case_decide as H.
  - split.
    + intros (v' & [= <-] & Hv). left. tauto.
    + intros [(_ & _ & _ & Hv)|[Hn _]]; [by eauto|tauto].
  - split.
    + intros Hnz. right. by split.
    + intros [?|[_ ?]]; [tauto|done].
Qed.

Lemma nonzero_column (mat : DataFrame) (r c : Z) :
  well_formed mat -> nonzero mat r c -> c ∈ columns mat.
Proof.
  intros (_ & Hdom & _) (v & Hv & _). apply (Hdom r c). by eexists.
Qed.

Lemma columns_convex (mat : DataFrame) (c1 c c2 : Z) :
  well_formed mat -> c1 ∈ columns mat -> c2 ∈ columns mat ->
  c1 <= c <= c2 -> c ∈ columns mat.
Proof.
  intros (_ & _ & lo & hi & ->). rewrite !elem_of_range. lia.
Qed.

(** Writing one value over [[a, b]] in row [r] keeps the span invariant
    when the row holds nothing past [b], and what it holds before [a]
    reaches [a]. *)
Lemma span_ok_loc_set (life : Z) (mat : DataFrame) (r a b : Z) (v : Q) :
  well_formed mat -> span_ok life mat ->
  r <= a -> b <= r + life - 1 ->
  (forall c, nonzero mat r c -> c <= b) ->
  (forall c, nonzero mat r c -> a <= c) \/ nonzero mat r a ->
  span_ok life (loc_set mat r a b v).
Proof.
  intros Hwf Hspan Hra Hb Hpast Hbefore r'.
  destruct (decide (r' = r)) as [->|Hne].
  2:{ destruct (Hspan r') as [Hin Hconv]. split.
      - intros c [?|[_ H]]%nonzero_loc_set; [tauto|by apply Hin].
      - intros c1 c c2 [?|[_ H1]]%nonzero_loc_set [?|[_ H2]]%nonzero_loc_set Hc;
          try tauto.
        apply nonzero_loc_set. right. split; [tauto|by apply (Hconv c1 c c2)]. }
  destruct (Hspan r) as [Hin Hconv]. split.
  - intros c [(_ & Hc & _)|[_ H]]%nonzero_loc_set; [lia|by apply Hin].
  - intros c1 c c2 H1 H2 Hc.
    assert (c1 ∈ columns mat) as Hc1.
    { apply nonzero_loc_set in H1 as [?|[_ H1]]; [tauto|].
      by apply (nonzero_column mat r). }
    assert (c2 ∈ columns mat) as Hc2.
    { apply nonzero_loc_set in H2 as [?|[_ H2]]; [tauto|].
      by apply (nonzero_column mat r). }
    assert (c ∈ columns mat) as Hcc by by apply (columns_convex mat c1 c c2).
    apply nonzero_loc_set. destruct (decide (a <= c)) as [Hac|Hac].
    + left. apply nonzero_loc_set in H2 as [(_ & ? & _ & ?)|[Hn H2]].
      * repeat split; try done; lia.
      * apply Hpast in H2 as H2'. exfalso. apply Hn.
        repeat split; try done; lia.
    + right. split; [lia|].
      apply nonzero_loc_set in H1 as [?|[_ H1]]; [lia|].
      destruct Hbefore as [Hbefore|Ha].
      * apply Hbefore in H1. lia.
      * apply (Hconv c1 c a); [done|done|lia].
Qed.

Lemma last_range (lo hi : Z) : lo < hi -> last (range lo hi) = Some (hi - 1).
Proof.
  intros H. unfold range.
  replace (hi - lo) with (Z.of_nat (S (Z.to_nat (hi - lo - 1)))) by lia.
  rewrite seqZ_S, last_snoc. f_equal. lia.
Qed.

Lemma columns_last_max (mat : DataFrame) (l c : Z) :
  well_formed mat -> columns_last mat = inr l -> c ∈ columns mat -> c <= l.
Proof.
  intros (_ & _ & lo & hi & Hcols). unfold columns_last. rewrite Hcols.
  rewrite elem_of_range. intros Hl Hc. rewrite last_range in Hl by lia.
  injection Hl as <-. lia.
Qed.

Lemma loc_get_inr (mat : DataFrame) (r c : Z) (o : option Q) :
  loc_get mat r c = inr o <->
  r ∈ index mat /\ c ∈ columns mat /\ cell mat r c = o.
Proof.
  unfold loc_get, cell. repeat case_decide; split; try discriminate.
  - by intros [= <-].
  - by intros (_ & _ & ->).
  - tauto.
  - tauto.
Qed.

(** *** One row of the initial distribution *)

Section InitialRow.
Context (life : Z) (mat mat' : DataFrame) (y : Z) (h : Q).
Hypothesis Hrow : setInitial_row life mat y h = inr mat'.

Lemma setInitial_row_inr :
  exists last_col, columns_last mat = inr last_col
    /\ mat' = loc_set mat y y (Z.min (y + life - 1) last_col) h.
Proof.
  unfold setInitial_row in Hrow. apply bind_inr in Hrow as (l & Hl & Hrow).
  injection Hrow as <-. by exists l.
Qed.

Lemma well_formed_setInitial_row : well_formed mat -> well_formed mat'.
Proof.
  destruct setInitial_row_inr as (l & _ & ->). apply well_formed_loc_set.
Qed.

Lemma non_negative_setInitial_row :
  (0 <= h)%Q -> non_negative mat -> non_negative mat'.
Proof.
  destruct setInitial_row_inr as (l & _ & ->). apply non_negative_loc_set.
Qed.

Lemma span_ok_setInitial_row :
  well_formed mat -> span_ok life mat -> span_ok life mat'.
Proof.
  destruct setInitial_row_inr as (l & Hl & ->). intros Hwf Hspan.
  destruct (Hspan y) as [Hin _].
  apply span_ok_loc_set; [done|done|lia|lia| |].
  - intros c Hc. apply Hin in Hc as Hc'.
    apply (nonzero_column _ _ _ Hwf) in Hc.
    pose proof (columns_last_max _ _ _ Hwf Hl Hc). lia.
  - left. intros c Hc. apply Hin in Hc. lia.
Qed.
End InitialRow.

(** *** One turn of the retirement loop *)

Lemma reduce_row_inr (life y_pres : Z) (addition : Q) (mat : DataFrame)
    (year : Z) (r : option Q * DataFrame) :
  reduce_row life y_pres addition mat year = inr r ->
  year ∈ index mat /\ y_pres ∈ columns mat /\
  ((r = (Some addition, mat)
    /\ forall R, cell mat year y_pres = Some R -> (R <= 0)%Q)
   \/ (exists R, cell mat year y_pres = Some R /\ (0 < R)%Q
         /\ (R < Qabs addition)%Q
         /\ r = (Some (addition + R)%Q,
                 loc_set mat year y_pres (year + life - 1) 0%Q))
   \/ (exists R, cell mat year y_pres = Some R /\ (0 < R)%Q
         /\ (Qabs addition <= R)%Q
         /\ r = (None,
                 loc_set mat year y_pres (year + life - 1) (R + addition)%Q))).
Proof.
  unfold reduce_row. intros H. apply bind_inr in H as (o & Ho & H).
  apply loc_get_inr in Ho as (Hy & Hc & Ho). split; [done|]. split; [done|].
  rewrite Ho. destruct o as [R|].
  - destruct (Qlt_bool 0 R) eqn:E0.
    + apply Qlt_bool_true in E0. destruct (Qlt_bool R (Qabs addition)) eqn:E1.
      * apply Qlt_bool_true in E1. injection H as <-. right. left. by exists R.
      * apply Qlt_bool_false in E1. injection H as <-. right. right.
        by exists R.
    + apply Qlt_bool_false in E0. injection H as <-. left. split; [done|].
      by intros R' [= <-].
  - injection H as <-. left. split; [done|]. intros R' [=].
Qed.

Section RetirementTurn.
Context (life y_pres : Z) (addition : Q) (mat : DataFrame) (year : Z)
        (r : option Q * DataFrame).
Hypothesis Hturn : reduce_row life y_pres addition mat year = inr r.

Lemma well_formed_reduce_row : well_formed mat -> well_formed r.2.
Proof.
  destruct (reduce_row_inr _ _ _ _ _ _ Hturn) as
    (_ & _ & [[-> _]|[(R & _ & _ & _ & ->)|(R & _ & _ & _ & ->)]]);
    simpl; auto using well_formed_loc_set.
Qed.

Lemma non_negative_reduce_row : non_negative mat -> non_negative r.2.
Proof.
  destruct (reduce_row_inr _ _ _ _ _ _ Hturn) as
    (_ & _ & [[-> _]|[(R & _ & _ & _ & ->)|(R & _ & _ & HR & ->)]]);
    simpl; [done| |].
  - apply non_negative_loc_set. apply Qle_refl.
  - apply non_negative_loc_set. apply Qabs_Qle_condition in HR. lra.
Qed.

Lemma span_ok_reduce_row :
  well_formed mat -> span_ok life mat -> span_ok life r.2.
Proof.
  intros Hwf Hspan.
  assert (forall R v, cell mat year y_pres = Some R -> (0 < R)%Q ->
            span_ok life (loc_set mat year y_pres (year + life - 1) v))
    as Hset.
  { intros R v HR Hpos. destruct (Hspan year) as [Hin _].
    assert (nonzero mat year y_pres) as Hnz.
    { exists R. split; [done|]. intros H0. rewrite H0 in Hpos.
      by apply Qlt_irrefl in Hpos. }
    apply Hin in Hnz as Hle.
    apply span_ok_loc_set; [done|done|lia|lia| |by right].
    intros c Hc. apply Hin in Hc. lia. }
  destruct (reduce_row_inr _ _ _ _ _ _ Hturn) as
    (_ & _ & [[-> _]|[(R & HR & Hpos & _ & ->)|(R & HR & Hpos & _ & ->)]]);
    simpl; eauto.
Qed.

Lemma index_reduce_row : index r.2 = index mat.
Proof.
  destruct (reduce_row_inr _ _ _ _ _ _ Hturn) as
    (Hy & _ & [[-> _]|[(R & _ & _ & _ & ->)|(R & _ & _ & _ & ->)]]);
    simpl; [done| |]; by rewrite decide_True.
Qed.

Lemma columns_reduce_row : columns r.2 = columns mat.
Proof.
  destruct (reduce_row_inr _ _ _ _ _ _ Hturn) as
    (_ & _ & [[-> _]|[(R & _ & _ & _ & ->)|(R & _ & _ & _ & ->)]]); done.
Qed.
End RetirementTurn.

(** *** The retirement loop *)

Lemma reduce_loop_preserves (I : DataFrame -> Prop) (life y_pres : Z) :
  (forall a m y r, I m -> reduce_row life y_pres a m y = inr r -> I r.2) ->
  forall todo a m m',
    I m -> reduce_loop life y_pres a m todo = inr m' -> I m'.
Proof.
  intros Hrow todo. induction todo as [|y todo IH]; intros a m m' Hm H;
    simpl in H.
  - by injection H as <-.
  - apply bind_inr in H as ([o m1] & H1 & H).
    apply Hrow in H1 as Hm1; [|done]. simpl in Hm1.
    destruct o as [a'|]; [by apply (IH a' m1)|by injection H as <-].
Qed.

Lemma reduce_loop_frame (life y_pres : Z) (todo : list Z) (a : Q)
    (m m' : DataFrame) :
  reduce_loop life y_pres a m todo = inr m' ->
  index m' = index m /\ columns m' = columns m.
Proof.
  apply (reduce_loop_preserves
           (fun m' => index m' = index m /\ columns m' = columns m));
    [|done].
  intros a' m1 y r [Hi Hc] Hr.
  rewrite (index_reduce_row _ _ _ _ _ _ Hr).
  by rewrite (columns_reduce_row _ _ _ _ _ _ Hr).
Qed.

(** The loop raises nothing when it runs over rows of the frame, at a
    year that is one of its columns. *)
Lemma reduce_loop_total (life y_pres : Z) (todo : list Z) (a : Q)
    (m : DataFrame) :
  y_pres ∈ columns m -> todo ⊆ index m ->
  exists m', reduce_loop life y_pres a m todo = inr m'.
Proof.
  revert a m. induction todo as [|y todo IH]; intros a m Hc Hsub; simpl.
  - by eexists.
  - assert (exists r, reduce_row life y_pres a m y = inr r) as [r Hr].
    { unfold reduce_row, loc_get.
      rewrite decide_True by (apply Hsub; left).
      rewrite decide_True by done. simpl.
      destruct (cells m !! (y, y_pres)) as [R|]; [|by eexists].
      destruct (Qlt_bool 0 R); [|by eexists].
      destruct (Qlt_bool R (Qabs a)); by eexists. }
    rewrite Hr. simpl. destruct r as [[a'|] m1]; [|by eexists].
    pose proof (columns_reduce_row _ _ _ _ _ _ Hr) as Hc1.
    pose proof (index_reduce_row _ _ _ _ _ _ Hr) as Hi1. simpl in Hc1, Hi1.
    apply IH.
    + by rewrite Hc1.
    + rewrite Hi1. intros x Hx. apply Hsub. by right.
Qed.

Lemma reduceVintages_total (addition : Q) (mat : DataFrame)
    (life y_pres : Z) :
  y_pres ∈ columns mat ->
  exists mat', reduceVintages addition mat life y_pres = inr mat'.
Proof. intros Hc. by apply reduce_loop_total. Qed.

(** *** One year of the allocator *)

Lemma column_sum_inr (mat : DataFrame) (year : Z) (s : Q) :
  column_sum mat year = inr s <->
  year ∈ columns mat /\ s = nansum ((fun r => cell mat r year) <$> index mat).
Proof.
  unfold column_sum, loc_column. case_decide as Hc; simpl.
  - split; [by intros [= <-]|by intros [_ ->]].
  - split; [discriminate|tauto].
Qed.

(** The matrix after the year's own row is written, and the retirement
    loop that follows when the statistic fell. *)
Lemma setHistorical_year_inr (df : Partition) (life : Z)
    (mat mat' : DataFrame) (year : Z) :
  setHistorical_year df life mat year = inr mat' ->
  exists v, (0 <= v)%Q /\
    (mat' = loc_set mat year year (year + life - 1) v
     \/ exists a, reduceVintages a
                    (loc_set mat year year (year + life - 1) v) life year
                  = inr mat').
Proof.
  unfold setHistorical_year. case_decide as Hin.
  - intros H. apply bind_inr in H as (cap & _ & H).
    apply bind_inr in H as (s & _ & H).
    destruct (Qle_bool 0 (cap - s)) eqn:E.
    + apply Qle_bool_iff in E. injection H as <-. eauto.
    + exists 0%Q. split; [apply Qle_refl|]. eauto.
  - intros [= <-]. exists 0%Q. split; [apply Qle_refl|]. eauto.
Qed.

Section AllocatorYear.
Context (df : Partition) (life : Z) (mat mat' : DataFrame) (year : Z).
Hypothesis Hyear : setHistorical_year df life mat year = inr mat'.

Lemma well_formed_setHistorical_year : well_formed mat -> well_formed mat'.
Proof.
  intros Hwf.
  destruct (setHistorical_year_inr _ _ _ _ _ Hyear) as (v & _ & [->|[a H]]).
  - by apply well_formed_loc_set.
  - revert H. apply (reduce_loop_preserves well_formed).
    + intros a' m y r Hm Hr. by apply (well_formed_reduce_row _ _ _ _ _ _ Hr).
    + by apply well_formed_loc_set.
Qed.

Lemma non_negative_setHistorical_year :
  non_negative mat -> non_negative mat'.
Proof.
  intros Hnn.
  destruct (setHistorical_year_inr _ _ _ _ _ Hyear) as (v & Hv & [->|[a H]]).
  - by apply non_negative_loc_set.
  - revert H. apply (reduce_loop_preserves non_negative).
    + intros a' m y r Hm Hr.
      by apply (non_negative_reduce_row _ _ _ _ _ _ Hr).
    + by apply non_negative_loc_set.
Qed.

Lemma span_ok_setHistorical_year :
  well_formed mat -> span_ok life mat -> span_ok life mat'.
Proof.
  intros Hwf Hspan.
  assert (forall v, span_ok life (loc_set mat year year (year + life - 1) v))
    as Hset.
  { intros v. destruct (Hspan year) as [Hin _].
    apply span_ok_loc_set; [done|done|lia|lia| |].
    - intros c Hc. apply Hin in Hc. lia.
    - left. intros c Hc. apply Hin in Hc. lia. }
  destruct (setHistorical_year_inr _ _ _ _ _ Hyear) as (v & _ & [->|[a H]]).
  - apply Hset.
  - revert H.
    apply (reduce_loop_preserves
             (fun m => well_formed m /\ span_ok life m)).
    + intros a' m y r [Hm1 Hm2] Hr. split.
      * by apply (well_formed_reduce_row _ _ _ _ _ _ Hr).
      * by apply (span_ok_reduce_row _ _ _ _ _ _ Hr).
    + split; [by apply well_formed_loc_set|apply Hset].
Qed.
End AllocatorYear.

(** ** The values of the two initial distributions *)

Lemma fdiv_inr (x : Q) (n : Z) :
  n <> 0 -> fdiv x n = inr (x / inject_Z n)%Q.
Proof. intros Hn. unfold fdiv. by rewrite (proj2 (Z.eqb_neq n 0)). Qed.

Lemma inject_Z_pos (n : Z) : 0 < n -> (0 < inject_Z n)%Q.
Proof. intros H. change 0%Q with (inject_Z 0). by rewrite <- Zlt_Qlt. Qed.

Lemma inject_Z_nonzero (n : Z) : 0 < n -> ~ (inject_Z n == 0)%Q.
Proof. intros H%inject_Z_pos E. rewrite E in H. by apply Qlt_irrefl in H. Qed.

Section Values.
Context (cap : Q) (life : Z).
Hypothesis Hlife : 0 < life.

Lemma flat_height_nonneg : (0 <= cap)%Q -> (0 <= flat_height cap life)%Q.
Proof.
  intros Hcap. unfold flat_height, Qdiv. apply Qmult_le_0_compat; [done|].
  apply Qinv_le_0_compat, Qlt_le_weak. by apply inject_Z_pos.
Qed.


(** The term of index [i] is the share [cap / life^2] of the first
    capacity, [2*life - 1 - 2*i] times. *)
Lemma triangle_value_share (i : Z) :
  (triangle_value cap life i
   == cap / (inject_Z life * inject_Z life)
      * (2 * inject_Z life - 1 - 2 * inject_Z i))%Q.
Proof.
  unfold triangle_value, triangle_height, triangle_decr, flat_height.
  field. by apply inject_Z_nonzero.
Qed.

Lemma triangle_value_nonneg (i : Z) :
  (0 <= cap)%Q -> 0 <= i < life -> (0 <= triangle_value cap life i)%Q.
Proof.
  intros Hcap Hi. rewrite triangle_value_share.
  apply Qmult_le_0_compat.
  - unfold Qdiv. apply Qmult_le_0_compat; [done|].
    apply Qinv_le_0_compat, Qmult_le_0_compat;
      apply Qlt_le_weak; by apply inject_Z_pos.
  - assert (inject_Z i + 1 <= inject_Z life)%Q as H.
    { change 1%Q with (inject_Z 1).
      rewrite <- inject_Z_plus, <- Zle_Qle. lia. }
    lra.
Qed.


Lemma triangle_dic_inr (y_start : Z) :
  triangle_dic y_start cap life
  = inr (list_to_map
           (zip (range (y_start - life + 1) (y_start + 1))
                (triangle_series (triangle_height cap life)
                                 (triangle_decr cap life) life))).
Proof.
  unfold triangle_dic. rewrite fdiv_inr by lia. simpl.
  rewrite fdiv_inr by lia. done.
Qed.

Lemma triangle_series_length (ht d : Q) :
  length (triangle_series ht d life) = Z.to_nat life.
Proof.
  unfold triangle_series, range.
  rewrite length_reverse, length_fmap, length_seqZ. f_equal. lia.
Qed.

Lemma triangle_series_lookup (k : nat) :
  (k < Z.to_nat life)%nat ->
  triangle_series (triangle_height cap life) (triangle_decr cap life) life
    !! k
  = Some (triangle_value cap life (life - 1 - Z.of_nat k)).
Proof.
  intros Hk. unfold triangle_series, range.
  rewrite reverse_lookup by (rewrite length_fmap, length_seqZ; lia).
  rewrite length_fmap, length_seqZ, list_lookup_fmap.
  rewrite lookup_seqZ_lt by lia. simpl. unfold triangle_value.
  by replace (0 + Z.of_nat (Z.to_nat (life - 0) - S k))
    with (life - 1 - Z.of_nat k) by lia.
Qed.

(** [dic[y]] for a year [y] of the initial span. *)
Lemma triangle_dic_lookup (y_start : Z) (dic : gmap Z Q) (y : Z) :
  triangle_dic y_start cap life = inr dic ->
  y_start - life + 1 <= y <= y_start ->
  dic !! y = Some (triangle_value cap life (y_start - y)).
Proof.
  rewrite triangle_dic_inr. intros [= <-] Hy. unfold range.
  pose proof (triangle_series_length (triangle_height cap life)
                (triangle_decr cap life)) as Hlen.
  replace (y_start + 1 - (y_start - life + 1)) with
    (Z.of_nat (length (triangle_series (triangle_height cap life)
                         (triangle_decr cap life) life)))
    by (rewrite Hlen; lia).
  rewrite list_to_map_zip_seqZ. apply lookup_map_seqZ_Some.
  split; [lia|]. rewrite triangle_series_lookup by lia.
  by replace (life - 1 - Z.of_nat (Z.to_nat (y - (y_start - life + 1))))
    with (y_start - y) by lia.
Qed.
End Values.

(** ** The loop of the initial distributions *)

Lemma initial_loop_cells (value : Z -> Result Q) (life : Z) (l : list Z) :
  NoDup l ->
  forall mat mat',
    well_formed mat -> initial_loop value life mat l = inr mat' ->
    columns mat' = columns mat
    /\ (forall r, r ∈ index mat' <-> r ∈ index mat \/ r ∈ l)
    /\ (forall r c, r ∈ l -> r <= c <= r + life - 1 -> c ∈ columns mat ->
          exists h, value r = inr h /\ cell mat' r c = Some h)
    /\ (forall r c, ~ (r ∈ l /\ r <= c <= r + life - 1 /\ c ∈ columns mat) ->
          cell mat' r c = cell mat r c).
Proof.
  unfold initial_loop.
  induction 1 as [|y l Hy Hnd IH]; intros mat mat' Hwf H; simpl in H.
  - injection H as <-. split; [done|]. split; [|split]; try done.
    + intros r. rewrite elem_of_nil. tauto.
    + intros r c Hr. by apply elem_of_nil in Hr.
  - apply bind_inr in H as (mat1 & H1 & H).
    apply bind_inr in H1 as (h & Hh & H1).
    pose proof (well_formed_setInitial_row _ _ _ _ _ H1 Hwf) as Hwf1.
    destruct (setInitial_row_inr _ _ _ _ _ H1) as (lc & Hlc & Hmat1).
    destruct (IH mat1 mat' Hwf1 H) as (Hcols & Hidx & Hin & Hout).
    assert (columns mat1 = columns mat) as Hcols1 by by rewrite Hmat1.
    split; [congruence|]. split; [|split].
    + intros r. rewrite Hidx, Hmat1, loc_set_index, elem_of_cons. tauto.
    + intros r c Hr Hc Hcol. apply elem_of_cons in Hr as [->|Hr].
      * exists h. split; [done|]. rewrite Hout.
        -- rewrite Hmat1. apply loc_set_lookup_in; [|done].
           pose proof (columns_last_max _ _ _ Hwf Hlc Hcol). lia.
        -- intros (Hy' & _). done.
      * apply Hin; [done|done|by rewrite Hcols1].
    + intros r c Hn. rewrite Hout.
      * rewrite Hmat1. unfold cell. rewrite loc_set_lookup.
        rewrite decide_False; [done|]. intros (-> & Hc & Hcol).
        apply Hn. split; [left|]. split; [lia|done].
      * rewrite Hcols1. intros (Hr & Hc & Hcol). apply Hn.
        split; [by right|done].
Qed.

Lemma initial_loop_total (value : Z -> Result Q) (life : Z) (l : list Z)
    (mat : DataFrame) (last_col : Z) :
  columns_last mat = inr last_col ->
  (forall y, y ∈ l -> exists h, value y = inr h) ->
  exists mat', initial_loop value life mat l = inr mat'.
Proof.
  intros Hlc Hval.
  destruct (for_each_total
              (fun m => columns_last m = inr last_col)
              (fun mat y => let* h := value y in setInitial_row life mat y h)
              l mat) as (mat' & H & _); [|done|by exists mat'].
  intros m y Hy Hm. destruct (Hval y Hy) as [h ->]. simpl.
  unfold setInitial_row. rewrite Hm. simpl. eexists. split; [done|].
  unfold columns_last in *. by rewrite loc_set_columns.
Qed.

(** What each policy does before the loop, and the value it hands to it. *)
Lemma setInitial_Flat_inr (mat mat' : DataFrame) (df : Partition)
    (life : Z) :
  setInitial_Flat mat df life = inr mat' <->
  exists y_start cap first_row,
    index_nth df 0 = inr y_start /\ loc_Capacity df y_start = inr cap
    /\ life <> 0 /\ index_first mat = inr first_row
    /\ initial_loop (fun _ => ret (flat_height cap life)) life mat
         (range first_row (y_start + 1)) = inr mat'.
Proof.
  unfold setInitial_Flat, initial_loop. split.
  - intros H. apply bind_inr in H as (y_start & Hy & H).
    apply bind_inr in H as (cap & Hcap & H).
    apply bind_inr in H as (h & Hh & H).
    apply bind_inr in H as (first_row & Hf & H).
    exists y_start, cap, first_row. unfold fdiv in Hh.
    destruct (Z.eqb_spec life 0) as [->|Hne]; [done|].
    injection Hh as <-. done.
  - intros (y_start & cap & first_row & Hy & Hcap & Hne & Hf & H).
    rewrite Hy; simpl. rewrite Hcap; simpl. rewrite fdiv_inr by done; simpl.
    by rewrite Hf.
Qed.

Lemma setInitial_Triangle_inr (mat mat' : DataFrame) (df : Partition)
    (life : Z) :
  setInitial_Triangle mat df life = inr mat' <->
  exists y_start cap dic first_row,
    index_nth df 0 = inr y_start /\ loc_Capacity df y_start = inr cap
    /\ triangle_dic y_start cap life = inr dic
    /\ index_first mat = inr first_row
    /\ initial_loop (dict_get_Z dic) life mat
         (range first_row (y_start + 1)) = inr mat'.
Proof.
  unfold setInitial_Triangle, initial_loop. split.
  - intros H. apply bind_inr in H as (y_start & Hy & H).
    apply bind_inr in H as (cap & Hcap & H).
    apply bind_inr in H as (dic & Hdic & H).
    apply bind_inr in H as (first_row & Hf & H).
    by exists y_start, cap, dic, first_row.
  - intros (y_start & cap & dic & first_row & Hy & Hcap & Hdic & Hf & H).
    rewrite Hy; simpl. rewrite Hcap; simpl. rewrite Hdic; simpl.
    by rewrite Hf.
Qed.

Lemma loc_Capacity_inr (df : Partition) (year : Z) (cap : Q) :
  loc_Capacity df year = inr cap -> (year, cap) ∈ rows df.
Proof.
  unfold loc_Capacity.
  destruct (list_find _ _) as [[i [y c]]|] eqn:E; [|discriminate].
  intros [= <-]. apply list_find_Some in E as (Hi & Hy & _).
  simpl in Hy. subst y. by apply list_elem_of_lookup_2 in Hi.
Qed.

Lemma loc_Capacity_total (df : Partition) (year : Z) :
  year ∈ years df -> exists cap, loc_Capacity df year = inr cap.
Proof.
  unfold years, loc_Capacity. intros ([y c] & -> & Hin)%list_elem_of_fmap.
  destruct (list_find (fun row => row.1 = (y, c).1) (rows df))
    as [[i [y' c']]|] eqn:E.
  - by eexists.
  - exfalso. eapply list_find_None in E. rewrite Forall_forall in E.
    by apply (E (y, c)).
Qed.

Lemma triangle_dic_lookup_Some (cap : Q) (life y_start : Z)
    (dic : gmap Z Q) (y : Z) (h : Q) :
  0 < life -> triangle_dic y_start cap life = inr dic -> dic !! y = Some h ->
  y_start - life + 1 <= y <= y_start
  /\ h = triangle_value cap life (y_start - y).
Proof.
  intros Hlife Hdic Hy.
  assert (y_start - life + 1 <= y <= y_start) as Hspan.
  { rewrite triangle_dic_inr in Hdic by done. injection Hdic as <-.
    apply elem_of_list_to_map_2, elem_of_zip_l, elem_of_range in Hy. lia. }
  split; [done|].
  rewrite (triangle_dic_lookup cap life Hlife y_start dic y Hdic Hspan) in Hy.
  by injection Hy as <-.
Qed.

Lemma initial_loop_preserves (I : DataFrame -> Prop)
    (value : Z -> Result Q) (life : Z) (l : list Z) (mat mat' : DataFrame) :
  (forall m y h m', y ∈ l -> I m -> value y = inr h ->
                    setInitial_row life m y h = inr m' -> I m') ->
  I mat -> initial_loop value life mat l = inr mat' -> I mat'.
Proof.
  intros Hrow. apply for_each_preserves. intros m y m1 Hy Hm H.
  apply bind_inr in H as (h & Hh & H). by apply (Hrow m y h).
Qed.

(** *** The initial distribution keeps the invariants *)

Section InitialDistribution.
Context (mat mat' : DataFrame) (df : Partition) (life : Z).
Hypothesis Hinit : setInitial mat df life = inr mat'.

(** The loop the chosen policy runs, and the capacity it starts from. *)
Lemma setInitial_inr :
  exists y_start cap first_row value,
    index_nth df 0 = inr y_start /\ loc_Capacity df y_start = inr cap
    /\ life <> 0 /\ index_first mat = inr first_row
    /\ initial_loop value life mat (range first_row (y_start + 1))
       = inr mat'
    /\ (0 < life -> (0 <= cap)%Q ->
        forall y h, value y = inr h -> (0 <= h)%Q).
Proof.
  unfold setInitial in Hinit. case_decide as Hfuel.
  - apply setInitial_Triangle_inr in Hinit
      as (y_start & cap & dic & first_row & Hy & Hcap & Hdic & Hf & H).
    exists y_start, cap, first_row, (dict_get_Z dic).
    repeat split; try done.
    + intros ->. discriminate Hdic.
    + intros Hlife Hcap0 y h Hh. unfold dict_get_Z in Hh.
      destruct (dic !! y) as [h'|] eqn:E; [|discriminate].
      injection Hh as <-.
      destruct (triangle_dic_lookup_Some _ _ _ _ _ _ Hlife Hdic E)
        as [Hspan ->].
      apply triangle_value_nonneg; [done|done|lia].
  - apply setInitial_Flat_inr in Hinit
      as (y_start & cap & first_row & Hy & Hcap & Hne & Hf & H).
    exists y_start, cap, first_row, (fun _ => ret (flat_height cap life)).
    repeat split; try done.
    intros Hlife Hcap0 y h [= <-]. by apply flat_height_nonneg.
Qed.

Lemma well_formed_setInitial : well_formed mat -> well_formed mat'.
Proof.
  destruct setInitial_inr as (y_start & cap & fr & value & _ & _ & _ & _
                              & H & _).
  intros Hwf. revert H. apply initial_loop_preserves; [|done].
  intros m y h m' _ Hm _ Hrow.
  by apply (well_formed_setInitial_row _ _ _ _ _ Hrow).
Qed.

Lemma span_ok_setInitial :
  well_formed mat -> span_ok life mat -> span_ok life mat'.
Proof.
  destruct setInitial_inr as (y_start & cap & fr & value & _ & _ & _ & _
                              & H & _).
  intros Hwf Hspan.
  apply (initial_loop_preserves
           (fun m => well_formed m /\ span_ok life m)) in H; [tauto| |done].
  intros m y h m' _ [Hm1 Hm2] _ Hrow. split.
  - by apply (well_formed_setInitial_row _ _ _ _ _ Hrow).
  - by apply (span_ok_setInitial_row _ _ _ _ _ Hrow).
Qed.

Lemma non_negative_setInitial :
  0 < life -> Forall (fun row => (0 <= row.2)%Q) (rows df) ->
  non_negative mat -> non_negative mat'.
Proof.
  destruct setInitial_inr as (y_start & cap & fr & value & _ & Hcap & _ & _
                              & H & Hval).
  intros Hlife Hcaps Hnn.
  assert (0 <= cap)%Q as Hcap0.
  { apply loc_Capacity_inr in Hcap. rewrite Forall_forall in Hcaps.
    by apply Hcaps in Hcap. }
  revert H. apply initial_loop_preserves; [|done].
  intros m y h m' _ Hm Hh Hrow.
  apply (non_negative_setInitial_row _ _ _ _ _ Hrow); [|done].
  by apply (Hval Hlife Hcap0 y).
Qed.
End InitialDistribution.

(** ** Column sums *)

Lemma column_sum_colsum (mat : DataFrame) (c : Z) :
  c ∈ columns mat -> column_sum mat c = inr (colsum mat c).
Proof. intros Hc. by apply column_sum_inr. Qed.

Lemma nansum_cons (o : option Q) (l : list (option Q)) :
  (nansum (o :: l) == nan0 o + nansum l)%Q.
Proof. destruct o; simpl; [reflexivity|]. unfold nan0; simpl. lra. Qed.

Lemma nansum_app (l1 l2 : list (option Q)) :
  (nansum (l1 ++ l2) == nansum l1 + nansum l2)%Q.
Proof.
  induction l1 as [|o l1 IH].
  - simpl. lra.
  - rewrite <- app_comm_cons, !nansum_cons, IH. lra.
Qed.

Lemma nansum_ext (f g : Z -> option Q) (l : list Z) :
  (forall r, r ∈ l -> f r = g r) -> nansum (f <$> l) = nansum (g <$> l).
Proof.
  intros H. f_equal. apply list_fmap_ext. intros i r Hr.
  apply H. by apply list_elem_of_lookup_2 in Hr.
Qed.

(** Changing the term of one label of a duplicate-free list changes the
    sum by the difference. *)
Lemma nansum_update (f g : Z -> option Q) (l : list Z) (r : Z) :
  NoDup l -> r ∈ l -> (forall r', r' ∈ l -> r' <> r -> f r' = g r') ->
  (nansum (g <$> l) == nansum (f <$> l) - nan0 (f r) + nan0 (g r))%Q.
Proof.
  induction 1 as [|x l Hx Hnd IH]; intros Hr Hfg.
  - by apply elem_of_nil in Hr.
  - rewrite !fmap_cons, !nansum_cons.
    destruct (decide (x = r)) as [->|Hne].
    + rewrite (nansum_ext f g l); [lra|].
      intros r' Hr'. apply Hfg; [by right|]. by intros ->.
    + apply elem_of_cons in Hr as [->|Hr]; [done|].
      rewrite IH; [|done|].
      * rewrite (Hfg x); [lra|left|done].
      * intros r' Hr'. apply Hfg. by right.
Qed.

Lemma cell_outside_index (mat : DataFrame) (r c : Z) :
  well_formed mat -> r ∉ index mat -> cell mat r c = None.
Proof.
  intros (_ & Hdom & _) Hr. destruct (cell mat r c) eqn:E; [|done].
  exfalso. apply Hr. apply (Hdom r c). by eexists.
Qed.

(** The sum of a column the write covers moves by the difference
    between the old and the new value of the row. *)
Lemma colsum_loc_set_in (mat : DataFrame) (r a b : Z) (v : Q) (c : Z) :
  well_formed mat -> a <= c <= b -> c ∈ columns mat ->
  (colsum (loc_set mat r a b v) c == colsum mat c - nan0 (cell mat r c) + v)%Q.
Proof.
  intros Hwf Hc Hcol. unfold colsum.
  assert (cell (loc_set mat r a b v) r c = Some v) as Hnew
    by by apply loc_set_lookup_in.
  assert (forall r', r' <> r ->
            cell (loc_set mat r a b v) r' c = cell mat r' c) as Hother
    by (intros; by apply loc_set_lookup_other_row).
  unfold loc_set at 2; simpl. case_decide as Hr.
  - rewrite (nansum_update (fun r' => cell mat r' c)
               (fun r' => cell (loc_set mat r a b v) r' c) (index mat) r)
      by (try apply Hwf; try done; intros; symmetry; by apply Hother).
    rewrite Hnew. unfold nan0 at 2; simpl. lra.
  - rewrite fmap_app, nansum_app. simpl. rewrite Hnew.
    rewrite (nansum_ext (fun r0 => cell (loc_set mat r a b v) r0 c)
               (fun r => cell mat r c)).
    + rewrite (cell_outside_index mat r c) by done. unfold nan0; simpl. lra.
    + intros r' Hr'. apply Hother. by intros ->.
Qed.


(** ** Partitions whose years increase *)

Lemma sorted_le_last (l : list Z) (y_end : Z) :
  StronglySorted Z.lt l -> last l = Some y_end ->
  forall y, y ∈ l -> y <= y_end.
Proof.
  induction 1 as [|x l Hs IH Hx]; intros Hlast y Hy.
  - by apply elem_of_nil in Hy.
  - destruct l as [|x' l'].
    + simpl in Hlast. injection Hlast as <-.
      apply list_elem_of_singleton in Hy. lia.
    + change (last (x :: x' :: l')) with (last (x' :: l')) in Hlast.
      apply elem_of_cons in Hy as [->|Hy]; [|by apply IH].
      rewrite Forall_forall in Hx.
      assert (x' <= y_end) by (apply IH; [done|left]).
      assert (x < x') by (apply Hx; left). lia.
Qed.

Lemma foldr_max_ge (y : Z) (l : list Z) (x : Z) :
  x ∈ y :: l -> x <= foldr Z.max y l.
Proof.
  induction l as [|a l IH]; simpl.
  - intros Hx%list_elem_of_singleton. lia.
  - intros [Hx|[Hx|Hx]%elem_of_cons]%elem_of_cons.
    + assert (x <= foldr Z.max y l) by (apply IH; subst; left). lia.
    + lia.
    + assert (x <= foldr Z.max y l) by (apply IH; by right). lia.
Qed.

Lemma foldr_max_elem (y : Z) (l : list Z) : foldr Z.max y l ∈ y :: l.
Proof.
  induction l as [|a l IH]; simpl; [left|].
  destruct (Z.max_spec a (foldr Z.max y l)) as [[_ ->]|[_ ->]].
  - apply elem_of_cons in IH as [->|IH]; [left|by do 2 right].
  - right; left.
Qed.

Section SortedPartition.
Context (df : Partition) (y_start y_end : Z).
Hypothesis Hsorted : sorted_years df.
Hypothesis Hfirst : index_nth df 0 = inr y_start.
Hypothesis Hlast : index_last df = inr y_end.

Lemma years_cons : exists l, years df = y_start :: l.
Proof.
  unfold index_nth in Hfirst. destruct (years df) as [|y l] eqn:E;
    [discriminate|].
  simpl in Hfirst. injection Hfirst as <-. by exists l.
Qed.

Lemma years_bounds (y : Z) : y ∈ years df -> y_start <= y <= y_end.
Proof.
  intros Hy. unfold index_last in Hlast.
  destruct (last (years df)) as [e|] eqn:E; [|discriminate].
  injection Hlast as ->. split; [|by apply (sorted_le_last (years df))].
  destruct years_cons as [l Hl]. unfold sorted_years in Hsorted.
  rewrite Hl in Hsorted, Hy. apply StronglySorted_inv in Hsorted as [_ Hx].
  apply elem_of_cons in Hy as [->|Hy]; [lia|].
  rewrite Forall_forall in Hx. apply Hx in Hy. lia.
Qed.

Lemma y_start_in_years : y_start ∈ years df.
Proof. destruct years_cons as [l ->]. left. Qed.

Lemma y_end_in_years : y_end ∈ years df.
Proof.
  unfold index_last in Hlast.
  destruct (last (years df)) as [e|] eqn:E; [|discriminate].
  injection Hlast as ->. apply last_Some in E as [l' ->].
  apply elem_of_app. right. left.
Qed.

Lemma y_start_le_y_end : y_start <= y_end.
Proof. apply (years_bounds y_start), y_start_in_years. Qed.

Lemma index_max_y_end : index_max df = y_end.
Proof.
  unfold index_max. destruct years_cons as [l Hl]. rewrite Hl.
  apply Z.le_antisymm.
  - apply years_bounds. rewrite Hl. apply foldr_max_elem.
  - apply foldr_max_ge. rewrite <- Hl. apply y_end_in_years.
Qed.

(** The second observed year, where the walk of [setHistorical]
    starts: every later observed year is at or after it. *)
Lemma second_year :
  y_start < y_end ->
  exists y1, index_nth df 1 = inr y1 /\ y_start < y1
    /\ forall y, y ∈ years df -> y <> y_start -> y1 <= y.
Proof.
  intros Hlt. destruct years_cons as [l Hl]. unfold index_nth.
  unfold sorted_years in Hsorted. rewrite Hl in *.
  destruct l as [|y1 l].
  - exfalso. unfold index_last in Hlast. rewrite Hl in Hlast.
    simpl in Hlast. injection Hlast as <-. lia.
  - exists y1. split; [done|].
    apply StronglySorted_inv in Hsorted as [Hs Hx].
    rewrite Forall_forall in Hx. split; [apply Hx; left|].
    intros y [->|[->|Hy]%elem_of_cons]%elem_of_cons Hne; [done|lia|].
    apply StronglySorted_inv in Hs as [_ Hx1].
    rewrite Forall_forall in Hx1. apply Hx1 in Hy. lia.
Qed.
End SortedPartition.

(** ** The shape of the matrix of a partition *)

Lemma range_snoc (a b : Z) : a <= b -> range a (b + 1) = range a b ++ [b].
Proof.
  intros H. unfold range.
  replace (b + 1 - a) with ((b - a) + 1) by lia.
  rewrite seqZ_app by lia. f_equal.
  replace (a + (b - a)) with b by lia. done.
Qed.

Lemma matrix_shape_fresh (y_start y_end life : Z) :
  matrix_shape (y_start - life + 1) y_end life
    (fresh_matrix y_start y_end life).
Proof.
  split; [|split; [done|by left]].
  apply well_formed_new, NoDup_range.
Qed.

Lemma matrix_shape_loc_set (lo y_end life : Z) (mat : DataFrame)
    (r a b : Z) (v : Q) :
  lo <= r <= y_end -> matrix_shape lo y_end life mat ->
  matrix_shape lo y_end life (loc_set mat r a b v).
Proof.
  intros Hr (Hwf & Hcols & Hidx).
  split; [by apply well_formed_loc_set|]. split; [done|].
  unfold loc_set; simpl. case_decide as Hin; [done|]. right.
  destruct Hidx as [Hidx|Hidx]; rewrite Hidx in Hin |- *;
    rewrite elem_of_range in Hin.
  - assert (r = y_end) as -> by lia. by rewrite range_snoc by lia.
  - lia.
Qed.

Lemma matrix_shape_index (lo y_end life : Z) (mat : DataFrame) (r : Z) :
  matrix_shape lo y_end life mat -> r ∈ index mat -> lo <= r <= y_end.
Proof.
  intros (_ & _ & [->| ->]); rewrite elem_of_range; lia.
Qed.

Lemma matrix_shape_sorted (lo y_end life : Z) (mat : DataFrame) :
  matrix_shape lo y_end life mat -> StronglySorted Z.lt (index mat).
Proof.
  assert (forall n a, StronglySorted Z.lt (seqZ a (Z.of_nat n))) as Hseq.
  { induction n as [|n IH]; intros a.
    - rewrite seqZ_nil by lia. constructor.
    - rewrite seqZ_cons by lia. constructor.
      + replace (Z.pred (Z.of_nat (S n))) with (Z.of_nat n) by lia. apply IH.
      + apply Forall_seqZ. lia. }
  assert (forall a b, StronglySorted Z.lt (range a b)) as Hrange.
  { intros a b. unfold range. destruct (decide (0 <= b - a)) as [H|H].
    - rewrite <- (Z2Nat.id (b - a)) by done. apply Hseq.
    - rewrite seqZ_nil by lia. constructor. }
  intros (_ & _ & [->| ->]); apply Hrange.
Qed.

Lemma matrix_shape_reduce_loop (lo y_end life : Z) (life' y_pres : Z)
    (todo : list Z) (a : Q) (m m' : DataFrame) :
  matrix_shape lo y_end life m ->
  reduce_loop life' y_pres a m todo = inr m' ->
  matrix_shape lo y_end life m'.
Proof.
  intros (Hwf & Hcols & Hidx) H.
  destruct (reduce_loop_frame _ _ _ _ _ _ H) as [Hi Hc].
  split; [|by rewrite Hi, Hc].
  revert H. apply (reduce_loop_preserves well_formed); [|done].
  intros a' m1 y r Hm Hr. by apply (well_formed_reduce_row _ _ _ _ _ _ Hr).
Qed.

Lemma matrix_shape_setHistorical_year (lo y_end life : Z) (df : Partition)
    (mat mat' : DataFrame) (year : Z) :
  lo <= year <= y_end -> matrix_shape lo y_end life mat ->
  setHistorical_year df life mat year = inr mat' ->
  matrix_shape lo y_end life mat'.
Proof.
  intros Hy Hshape H.
  destruct (setHistorical_year_inr _ _ _ _ _ H) as (v & _ & [->|[a Hred]]).
  - by apply matrix_shape_loc_set.
  - apply (matrix_shape_reduce_loop _ _ _ _ _ _ _ _ _
             (matrix_shape_loc_set lo y_end life mat year year
                (year + life - 1) v Hy Hshape) Hred).
Qed.

(** ** Rows that have not been written *)

Lemma unassigned_reduce_loop (life y_pres : Z) (todo : list Z) (a : Q)
    (m m' : DataFrame) (r : Z) :
  (forall c, cell m r c = None) ->
  reduce_loop life y_pres a m todo = inr m' ->
  forall c, cell m' r c = None.
Proof.
  intros Hm H. revert H.
  apply (reduce_loop_preserves (fun m => forall c, cell m r c = None));
    [|done].
  intros a' m1 y res Hm1 Hres c.
  destruct (reduce_row_inr _ _ _ _ _ _ Hres) as
    (_ & _ & [[-> _]|[(R & HR & _ & _ & ->)|(R & HR & _ & _ & ->)]]);
    simpl; [done| |];
    (destruct (decide (r = y)) as [->|Hne];
     [by rewrite Hm1 in HR
     |unfold cell; rewrite loc_set_lookup_other_row by done; apply Hm1]).
Qed.

Lemma unassigned_setHistorical_year (df : Partition) (life : Z)
    (mat mat' : DataFrame) (year : Z) :
  unassigned_from year mat ->
  setHistorical_year df life mat year = inr mat' ->
  unassigned_from (year + 1) mat'.
Proof.
  intros Hun H r c Hr.
  assert (forall v c, cell (loc_set mat year year (year + life - 1) v) r c
                      = None) as Hset.
  { intros v c'. unfold cell. rewrite loc_set_lookup_other_row by lia.
    apply Hun. lia. }
  destruct (setHistorical_year_inr _ _ _ _ _ H) as (v & _ & [->|[a Hred]]).
  - apply Hset.
  - by apply (unassigned_reduce_loop _ _ _ _ _ _ r (Hset v) Hred).
Qed.

(** ** The initial distribution on the fresh matrix *)

Lemma index_first_fresh (y_start y_end life : Z) (first_row : Z) :
  index_first (fresh_matrix y_start y_end life) = inr first_row <->
  y_start - life + 1 < y_end /\ first_row = y_start - life + 1.
Proof.
  unfold index_first, fresh_matrix, DataFrame_new, range; simpl.
  destruct (decide (0 < y_end - (y_start - life + 1))) as [H|H].
  - rewrite seqZ_cons by done. split.
    + intros [= <-]. lia.
    + by intros [_ ->].
  - rewrite seqZ_nil by lia. split; [discriminate|lia].
Qed.

Lemma columns_last_fresh (y_start y_end life : Z) :
  y_start - life + 1 < y_end + life ->
  columns_last (fresh_matrix y_start y_end life) = inr (y_end + life - 1).
Proof.
  intros H. unfold columns_last, fresh_matrix, DataFrame_new; simpl.
  by rewrite last_range by done.
Qed.

Lemma cell_fresh (y_start y_end life r c : Z) :
  cell (fresh_matrix y_start y_end life) r c = None.
Proof. apply cell_new. Qed.

Section InitialOnFresh.
Context (dfs : Partition) (y_start y_end life : Z).
Hypothesis Hfirst : index_nth dfs 0 = inr y_start.
Hypothesis Hlife : 0 < life.
Hypothesis Hle : y_start <= y_end.

(** The rows the loop writes are the [life] vintage years up to
    [y_start]; each holds the policy's value on its [life] columns. *)
Lemma setInitial_fresh_inr (mat0 : DataFrame) :
  setInitial (fresh_matrix y_start y_end life) dfs life = inr mat0 ->
  exists cap, loc_Capacity dfs y_start = inr cap
    /\ (y_start - life + 1) < y_end
    /\ matrix_shape (y_start - life + 1) y_end life mat0
    /\ (forall r c, y_start - life + 1 <= r <= y_start ->
                     r <= c <= r + life - 1 ->
          cell mat0 r c = Some (initial_value dfs cap life y_start r))
    /\ (forall r c, ~ (y_start - life + 1 <= r <= y_start
                       /\ r <= c <= r + life - 1) ->
          cell mat0 r c = None).
Proof.
  intros H.
  assert (exists cap value,
            loc_Capacity dfs y_start = inr cap /\ (y_start - life + 1) < y_end
            /\ initial_loop value life (fresh_matrix y_start y_end life)
                 (range (y_start - life + 1) (y_start + 1)) = inr mat0
            /\ forall y h, y_start - life + 1 <= y <= y_start ->
                           value y = inr h ->
                 h = initial_value dfs cap life y_start y)
    as (cap & value & Hcap & Hlo & Hloop & Hval).
  { unfold setInitial, initial_value in *. case_decide as Hfuel.
    - apply setInitial_Triangle_inr in H
        as (y0 & cap & dic & fr & Hy & Hc & Hdic & Hf & H).
      rewrite Hfirst in Hy. injection Hy as <-.
      apply index_first_fresh in Hf as [Hlo ->].
      exists cap, (dict_get_Z dic). repeat split; try done.
      intros y h Hy Hh. unfold dict_get_Z in Hh.
      rewrite (triangle_dic_lookup cap life Hlife y_start dic y Hdic Hy)
        in Hh.
      by injection Hh as <-.
    - apply setInitial_Flat_inr in H
        as (y0 & cap & fr & Hy & Hc & Hne & Hf & H).
      rewrite Hfirst in Hy. injection Hy as <-.
      apply index_first_fresh in Hf as [Hlo ->].
      exists cap, (fun _ => ret (flat_height cap life)).
      repeat split; try done. by intros y h _ [= <-]. }
  exists cap. split; [done|]. split; [done|].
  pose proof (matrix_shape_fresh y_start y_end life) as Hshape.
  destruct (initial_loop_cells value life _
              (NoDup_range (y_start - life + 1) (y_start + 1))
              _ _ (proj1 Hshape) Hloop) as (_ & _ & Hin & Hout).
  split; [|split].
  - revert Hloop. apply initial_loop_preserves; [|done].
    intros m y h m' Hy%elem_of_range Hm _ Hrow.
    destruct (setInitial_row_inr _ _ _ _ _ Hrow) as (l & _ & ->).
    apply matrix_shape_loc_set; [lia|done].
  - intros r c Hr Hc.
    destruct (Hin r c) as (h & Hh & ->); [apply elem_of_range; lia|done| |].
    + apply elem_of_range. lia.
    + f_equal. by apply Hval.
  - intros r c Hn. rewrite Hout; [apply cell_fresh|].
    rewrite elem_of_range. intros (Hr & Hc & _). apply Hn. lia.
Qed.

(** With a row in the fresh matrix, the initial distribution returns. *)
Lemma setInitial_fresh_total :
  y_start ∈ years dfs -> (y_start - life + 1) < y_end ->
  exists mat0,
    setInitial (fresh_matrix y_start y_end life) dfs life = inr mat0.
Proof.
  intros Hin Hlo.
  destruct (loc_Capacity_total dfs y_start Hin) as [cap Hcap].
  assert (index_first (fresh_matrix y_start y_end life)
          = inr (y_start - life + 1)) as Hf
    by by apply index_first_fresh.
  assert (columns_last (fresh_matrix y_start y_end life)
          = inr (y_end + life - 1)) as Hlc
    by (apply columns_last_fresh; lia).
  unfold setInitial. case_decide as Hfuel.
  - destruct (initial_loop_total
                (dict_get_Z (list_to_map
                   (zip (range (y_start - life + 1) (y_start + 1))
                        (triangle_series (triangle_height cap life)
                           (triangle_decr cap life) life))))
                life (range (y_start - life + 1) (y_start + 1)) _ _ Hlc) as [mat0 H].
    + intros y Hy%elem_of_range. unfold dict_get_Z.
      rewrite (triangle_dic_lookup cap life Hlife y_start _ y
                 (triangle_dic_inr cap life Hlife y_start)) by lia.
      by eexists.
    + exists mat0. apply setInitial_Triangle_inr.
      eexists y_start, cap, _, (y_start - life + 1).
      by rewrite triangle_dic_inr by done.
  - destruct (initial_loop_total (fun _ => ret (flat_height cap life))
                life (range (y_start - life + 1) (y_start + 1)) _ _ Hlc) as [mat0 H].
    + intros y _. by eexists.
    + exists mat0. apply setInitial_Flat_inr.
      exists y_start, cap, (y_start - life + 1). repeat split; try done. lia.
Qed.
End InitialOnFresh.

(** ** Conservation of the first observed capacity *)

Lemma nansum_none (l : list Z) :
  nansum ((fun _ => @None Q) <$> l) = 0%Q.
Proof. induction l as [|x l IH]; simpl; [done|apply IH]. Qed.

Lemma nansum_flat (h : Q) (n : nat) (a : Z) :
  (nansum ((fun _ => Some h) <$> seqZ a (Z.of_nat n))
   == inject_Z (Z.of_nat n) * h)%Q.
Proof.
  revert a. induction n as [|n IH]; intros a.
  - simpl. change (inject_Z (Z.of_nat 0)) with 0%Q. lra.
  - rewrite seqZ_cons by lia. rewrite fmap_cons, nansum_cons.
    replace (Z.pred (Z.of_nat (S n))) with (Z.of_nat n) by lia.
    rewrite IH. replace (Z.of_nat (S n)) with (Z.of_nat n + 1) by lia.
    rewrite inject_Z_plus. unfold nan0; simpl. change (inject_Z 1) with 1%Q.
    lra.
Qed.

Lemma nansum_triangle (cap : Q) (life y_start : Z) (n : nat) :
  (nansum ((fun r => Some (triangle_value cap life (y_start - r)))
             <$> seqZ (y_start - Z.of_nat n + 1) (Z.of_nat n))
   == inject_Z (Z.of_nat n) * triangle_height cap life
      - triangle_decr cap life
        * (inject_Z (Z.of_nat n) * (inject_Z (Z.of_nat n) - 1) / 2))%Q.
Proof.
  induction n as [|n IH].
  - simpl. change (inject_Z (Z.of_nat 0)) with 0%Q. field.
  - rewrite seqZ_cons by lia. rewrite fmap_cons, nansum_cons.
    replace (Z.pred (Z.of_nat (S n))) with (Z.of_nat n) by lia.
    replace (Z.succ (y_start - Z.of_nat (S n) + 1))
      with (y_start - Z.of_nat n + 1) by lia.
    rewrite IH.
    replace (y_start - (y_start - Z.of_nat (S n) + 1)) with (Z.of_nat n)
      by lia.
    replace (Z.of_nat (S n)) with (Z.of_nat n + 1) by lia.
    rewrite inject_Z_plus. unfold nan0, triangle_value; simpl.
    change (inject_Z 1) with 1%Q. field.
Qed.

(** The values of the [life] initial vintage years add up to the first
    observed capacity, under either policy. *)
Lemma initial_values_sum (dfs : Partition) (cap : Q) (life y_start : Z) :
  0 < life ->
  (nansum ((fun r => Some (initial_value dfs cap life y_start r))
             <$> range (y_start - life + 1) (y_start + 1)) == cap)%Q.
Proof.
  intros Hlife. unfold range, initial_value.
  replace (y_start + 1 - (y_start - life + 1)) with life by lia.
  pose proof (inject_Z_nonzero life Hlife) as Hnz.
  case_decide as Hfuel.
  - pose proof (nansum_triangle cap life y_start (Z.to_nat life)) as H.
    rewrite Z2Nat.id in H by lia. rewrite H.
    unfold triangle_height, triangle_decr, flat_height. by field.
  - pose proof (nansum_flat (flat_height cap life) (Z.to_nat life)
                  (y_start - life + 1)) as H.
    rewrite Z2Nat.id in H by lia. rewrite H.
    unfold flat_height. by field.
Qed.

Lemma range_split (a b c : Z) :
  a <= b <= c -> range a c = range a b ++ range b c.
Proof.
  intros H. unfold range. replace (c - a) with ((b - a) + (c - b)) by lia.
  rewrite seqZ_app by lia. do 2 f_equal. lia.
Qed.

(** After the initial distribution the column of the first observed
    year adds up to the capacity observed in it. *)
Lemma initial_distribution_conserves (dfs : Partition)
    (y_start y_end life : Z) (mat0 : DataFrame) :
  index_nth dfs 0 = inr y_start -> 0 < life -> y_start <= y_end ->
  setInitial (fresh_matrix y_start y_end life) dfs life = inr mat0 ->
  exists cap, loc_Capacity dfs y_start = inr cap
    /\ (colsum mat0 y_start == cap)%Q.
Proof.
  intros Hfirst Hlife Hle H.
  destruct (setInitial_fresh_inr dfs y_start y_end life Hfirst Hlife Hle
              mat0 H) as (cap & Hcap & Hlo & Hshape & Hin & Hout).
  exists cap. split; [done|].
  assert (exists K, index mat0 = range (y_start - life + 1) K
                    /\ y_start + 1 <= K) as (K & HK & HKle).
  { destruct Hshape as (Hwf & _ & Hidx).
    assert (y_start ∈ index mat0) as Hrow.
    { destruct Hwf as (_ & Hdom & _). apply (Hdom y_start y_start).
      rewrite Hin by lia. by eexists. }
    destruct Hidx as [Hidx|Hidx]; rewrite Hidx in Hrow;
      apply elem_of_range in Hrow; eexists; (split; [exact Hidx|lia]). }
  unfold colsum. rewrite HK.
  rewrite (range_split _ (y_start + 1) K) by lia.
  rewrite fmap_app, nansum_app.
  rewrite (nansum_ext _ (fun r => Some (initial_value dfs cap life y_start r))
             (range (y_start - life + 1) (y_start + 1))).
  2:{ intros r Hr%elem_of_range. apply Hin; lia. }
  rewrite (nansum_ext _ (fun _ => None) (range (y_start + 1) K)).
  2:{ intros r Hr%elem_of_range. apply Hout. lia. }
  rewrite nansum_none, initial_values_sum by done. lra.
Qed.

(** ** The walk through the observed years *)

Lemma setHistorical_walk (mat : DataFrame) (df : Partition) (life : Z) :
  setHistorical mat df life
  = let* year := index_nth df 1 in walk df life mat year (index_max df + 1).
Proof. done. Qed.

Lemma walk_split (df : Partition) (life : Z) (mat : DataFrame)
    (from year to_ : Z) :
  from <= year < to_ ->
  walk df life mat from to_
  = let* m := walk df life mat from year in
    let* m' := setHistorical_year df life m year in
    walk df life m' (year + 1) to_.
Proof.
  intros H. unfold walk.
  rewrite (range_split from year to_) by lia.
  rewrite for_each_app. f_equal.
  unfold range at 1. rewrite seqZ_cons by lia. simpl.
  replace (Z.pred (to_ - year)) with (to_ - (year + 1)) by lia.
  done.
Qed.

Lemma setHistorical_year_total (df : Partition) (life : Z)
    (mat : DataFrame) (year : Z) :
  year ∈ columns mat ->
  exists mat', setHistorical_year df life mat year = inr mat'.
Proof.
  intros Hc. unfold setHistorical_year. case_decide as Hin; [|by eexists].
  destruct (loc_Capacity_total df year Hin) as [cap ->]. simpl.
  rewrite column_sum_colsum by done. simpl.
  destruct (Qle_bool 0 (cap - colsum mat year)); [by eexists|].
  by apply reduceVintages_total.
Qed.

Section Walk.
Context (df : Partition) (lo y_end life : Z).
Hypothesis Hlife : 0 < life.

Lemma shape_column (mat : DataFrame) (year : Z) :
  matrix_shape lo y_end life mat -> lo <= year <= y_end ->
  year ∈ columns mat.
Proof. intros (_ & -> & _) H. apply elem_of_range. lia. Qed.

(** The walk over years of the matrix raises nothing; it keeps the
    shape of the matrix and leaves the rows of later years unwritten. *)
Lemma walk_total (n : nat) :
  forall (y : Z) (mat : DataFrame),
    matrix_shape lo y_end life mat -> unassigned_from y mat ->
    lo <= y -> y + Z.of_nat n <= y_end + 1 ->
    exists mat', walk df life mat y (y + Z.of_nat n) = inr mat'
      /\ matrix_shape lo y_end life mat'
      /\ unassigned_from (y + Z.of_nat n) mat'.
Proof.
  unfold walk, range. induction n as [|n IH]; intros y mat Hshape Hun Hlo Hhi.
  - rewrite seqZ_nil by lia. exists mat. simpl.
    split; [done|]. split; [done|]. by rewrite Z.add_0_r.
  - rewrite seqZ_cons by lia. simpl.
    destruct (setHistorical_year_total df life mat y) as [m1 H1];
      [apply shape_column; [done|lia]|].
    rewrite H1. simpl.
    destruct (IH (y + 1) m1) as (mat' & H & Hs & Hu); try lia.
    + apply (matrix_shape_setHistorical_year lo y_end life df mat m1 y);
        [lia|done|done].
    + by apply (unassigned_setHistorical_year df life mat m1 y).
    + exists mat'.
      replace (Z.succ y) with (y + 1) by lia.
      replace (Z.pred (y + Z.of_nat (S n) - y))
        with (y + 1 + Z.of_nat n - (y + 1)) by lia.
      replace (y + Z.of_nat (S n)) with (y + 1 + Z.of_nat n) by lia.
      done.
Qed.

Lemma walk_total_between (mat : DataFrame) (from to_ : Z) :
  matrix_shape lo y_end life mat -> unassigned_from from mat ->
  lo <= from <= to_ -> to_ <= y_end + 1 ->
  exists mat', walk df life mat from to_ = inr mat'
    /\ matrix_shape lo y_end life mat'
    /\ unassigned_from to_ mat'.
Proof.
  intros Hshape Hun Hf Ht.
  destruct (walk_total (Z.to_nat (to_ - from)) from mat) as (mat' & H);
    try done; try lia.
  replace (from + Z.of_nat (Z.to_nat (to_ - from))) with to_ in H by lia.
  by exists mat'.
Qed.
End Walk.

Lemma unassigned_from_mono (y y' : Z) (mat : DataFrame) :
  y <= y' -> unassigned_from y mat -> unassigned_from y' mat.
Proof. intros Hle H r c Hr. apply H. lia. Qed.

(** * The claims *)

(** The state in which the walk reaches a year [Y] between the second
    observed year and the last: the initial distribution returned, the
    walk up to [Y] returned, and the run of [setHistorical] continues
    from there. *)
Lemma walk_reaches_year (dfs : Partition) (y_start y_end life y1 Y : Z) :
  sorted_years dfs ->
  index_nth dfs 0 = inr y_start -> index_last dfs = inr y_end ->
  0 < life -> index_nth dfs 1 = inr y1 -> y_start < y1 -> y1 <= Y <= y_end ->
  exists mat0 mat,
    setInitial (fresh_matrix y_start y_end life) dfs life = inr mat0
    /\ walk dfs life mat0 y1 Y = inr mat
    /\ setHistorical mat0 dfs life
       = (let* mat' := setHistorical_year dfs life mat Y in
          walk dfs life mat' (Y + 1) (y_end + 1))
    /\ matrix_shape (y_start - life + 1) y_end life mat
    /\ unassigned_from Y mat.
Proof.
  intros Hsorted Hfirst Hlast Hlife Hy1 Hy1lt HY.
  destruct (setInitial_fresh_total dfs y_start y_end life Hfirst Hlife)
    as [mat0 Hmat0]; [by apply (y_start_in_years dfs y_start)|lia|].
  destruct (setInitial_fresh_inr dfs y_start y_end life Hfirst Hlife
              ltac:(lia) mat0 Hmat0) as (cap0 & _ & _ & Hshape0 & _ & Hout).
  assert (unassigned_from y1 mat0) as Hun0.
  { intros r c Hr. apply Hout. lia. }
  destruct (walk_total_between dfs (y_start - life + 1) y_end life Hlife
              mat0 y1 Y Hshape0 Hun0) as (mat & Hwalk & Hshape & Hun);
    [lia|lia|].
  exists mat0, mat. do 2 (split; [done|]). split; [|done].
  rewrite setHistorical_walk, Hy1. simpl.
  rewrite (index_max_y_end dfs y_start y_end Hsorted Hfirst Hlast).
  rewrite (walk_split dfs life mat0 y1 Y (y_end + 1)) by lia.
  by rewrite Hwalk.
Qed.

(** The same at an observed year after the first. *)
Lemma walk_reaches (dfs : Partition) (y_start y_end life Y : Z) :
  sorted_years dfs ->
  index_nth dfs 0 = inr y_start -> index_last dfs = inr y_end ->
  0 < life -> Y ∈ years dfs -> Y <> y_start ->
  exists mat0 y1 mat,
    setInitial (fresh_matrix y_start y_end life) dfs life = inr mat0
    /\ index_nth dfs 1 = inr y1
    /\ walk dfs life mat0 y1 Y = inr mat
    /\ setHistorical mat0 dfs life
       = (let* mat' := setHistorical_year dfs life mat Y in
          walk dfs life mat' (Y + 1) (y_end + 1))
    /\ y_start < y1 <= Y /\ Y <= y_end
    /\ matrix_shape (y_start - life + 1) y_end life mat
    /\ unassigned_from Y mat.
Proof.
  intros Hsorted Hfirst Hlast Hlife HY Hne.
  pose proof (years_bounds dfs y_start y_end Hsorted Hfirst Hlast Y HY) as HYb.
  assert (y_start < y_end) as Hlt by lia.
  destruct (second_year dfs y_start y_end Hsorted Hfirst Hlast Hlt)
    as (y1 & Hy1 & Hy1lt & Hy1le).
  pose proof (Hy1le Y HY Hne) as HY1.
  destruct (walk_reaches_year dfs y_start y_end life y1 Y Hsorted Hfirst
              Hlast Hlife Hy1 Hy1lt ltac:(lia))
    as (mat0 & mat & Hmat0 & Hwalk & Hrun & Hshape & Hun).
  exists mat0, y1, mat. do 4 (split; [done|]).
  split; [lia|split; [lia|done]].
Qed.

(** C1. In a partition whose years increase, at every observed year [Y]
    after the first the allocator reads [surviving], the sum of the
    column [Y] over all vintage rows, and [addition = Capacity(Y) -
    surviving]; when [addition >= 0] it writes [addition] into the row
    [Y] on the columns [Y .. Y+life-1], all of them columns of the
    matrix, and the column [Y] then adds up to [Capacity(Y)]. *)
Theorem allocator_year_matches_capacity (dfs : Partition)
    (y_start y_end life Y : Z) (cap : Q) :
  sorted_years dfs ->
  index_nth dfs 0 = inr y_start -> index_last dfs = inr y_end ->
  0 < life -> Y ∈ years dfs -> Y <> y_start ->
  loc_Capacity dfs Y = inr cap ->
  exists mat0 y1 mat,
    setInitial (fresh_matrix y_start y_end life) dfs life = inr mat0
    /\ index_nth dfs 1 = inr y1
    /\ walk dfs life mat0 y1 Y = inr mat
    /\ setHistorical mat0 dfs life
       = (let* mat' := setHistorical_year dfs life mat Y in
          walk dfs life mat' (Y + 1) (y_end + 1))
    /\ column_sum mat Y = inr (colsum mat Y)
    /\ let addition := (cap - colsum mat Y)%Q in
       let mat' := loc_set mat Y Y (Y + life - 1) addition in
       (0 <= addition)%Q ->
       setHistorical_year dfs life mat Y = inr mat'
       /\ (forall c, Y <= c <= Y + life - 1 ->
             c ∈ columns mat' /\ cell mat' Y c = Some addition)
       /\ (forall r c, r <> Y -> cell mat' r c = cell mat r c)
       /\ (colsum mat' Y == cap)%Q.
Proof.
  intros Hsorted Hfirst Hlast Hlife HY Hne Hcap.
  destruct (walk_reaches dfs y_start y_end life Y Hsorted Hfirst Hlast Hlife
              HY Hne)
    as (mat0 & y1 & mat & Hmat0 & Hy1 & Hwalk & Hrun & HY1 & HYe & Hshape
        & Hun).
  exists mat0, y1, mat. do 4 (split; [done|]).
  assert (forall c, Y <= c <= Y + life - 1 -> c ∈ columns mat) as Hcols.
  { intros c Hc. destruct Hshape as (_ & -> & _). apply elem_of_range. lia. }
  assert (Y ∈ columns mat) as HYc by (apply Hcols; lia).
  split; [by apply column_sum_colsum|].
  intros addition mat' Hadd. split; [|split; [|split]].
  - unfold setHistorical_year. rewrite decide_True by done.
    rewrite Hcap. simpl. rewrite column_sum_colsum by done. simpl.
    fold addition. by rewrite (proj2 (Qle_bool_iff 0 addition) Hadd).
  - intros c Hc. split; [by apply Hcols|].
    apply loc_set_lookup_in; [done|by apply Hcols].
  - intros r c Hr. by apply loc_set_lookup_other_row.
  - unfold mat'. rewrite colsum_loc_set_in; [|apply Hshape|lia|done].
    rewrite (Hun Y Y) by lia. unfold addition, nan0; simpl. lra.
Qed.

Lemma scenario_sorted : sorted_years scenario.
Proof.
  unfold sorted_years, years, scenario; simpl.
  repeat (constructor; [|repeat constructor; lia]). constructor.
Defined.

Lemma allocator_year_matches_capacity_witness :
  exists mat0 y1 mat,
    setInitial (fresh_matrix 2000 2002 3) scenario 3 = inr mat0
    /\ index_nth scenario 1 = inr y1
    /\ walk scenario 3 mat0 y1 2001 = inr mat
    /\ setHistorical mat0 scenario 3
       = (let* mat' := setHistorical_year scenario 3 mat 2001 in
          walk scenario 3 mat' (2001 + 1) (2002 + 1))
    /\ column_sum mat 2001 = inr (colsum mat 2001)
    /\ let addition := (120 - colsum mat 2001)%Q in
       let mat' := loc_set mat 2001 2001 (2001 + 3 - 1) addition in
       (0 <= addition)%Q ->
       setHistorical_year scenario 3 mat 2001 = inr mat'
       /\ (forall c, 2001 <= c <= 2001 + 3 - 1 ->
             c ∈ columns mat' /\ cell mat' 2001 c = Some addition)
       /\ (forall r c, r <> 2001 -> cell mat' r c = cell mat r c)
       /\ (colsum mat' 2001 == 120)%Q.
Proof.
  apply (allocator_year_matches_capacity scenario 2000 2002 3 2001 120%Q).
  - exact scenario_sorted.
  - reflexivity.
  - reflexivity.
  - lia.
  - by apply (bool_decide_unpack _).
  - lia.
  - reflexivity.
Defined.

Lemma dict_get_str_inr (d : gmap string Z) (k : string) (v : Z) :
  dict_get_str d k = inr v <-> d !! k = Some v.
Proof.
  unfold dict_get_str. destruct (d !! k); split; try discriminate;
    by intros [= <-].
Qed.

(** The stages of [cohort_matrix]. *)
Lemma cohort_matrix_inr (fueltype_to_life : gmap string Z) (dfs : Partition)
    (life : Z) (mat : DataFrame) :
  cohort_matrix fueltype_to_life dfs = inr (life, mat) <->
  exists y_start y_end mat0,
    index_nth dfs 0 = inr y_start /\ index_last dfs = inr y_end
    /\ fueltype_to_life !! Fueltype dfs = Some life
    /\ setInitial (fresh_matrix y_start y_end life) dfs life = inr mat0
    /\ (if decide (y_end > y_start) then setHistorical mat0 dfs life
        else ret mat0) = inr mat.
Proof.
  unfold cohort_matrix. split.
  - intros H. apply bind_inr in H as (y_start & Hs & H).
    apply bind_inr in H as (y_end & He & H).
    apply bind_inr in H as (life' & Hl & H).
    apply bind_inr in H as (mat0 & H0 & H).
    apply bind_inr in H as (mat1 & H1 & H).
    injection H as <- <-. apply dict_get_str_inr in Hl.
    by exists y_start, y_end, mat0.
  - intros (y_start & y_end & mat0 & Hs & He & Hl & H0 & H1).
    rewrite Hs; simpl. rewrite He; simpl.
    rewrite (proj2 (dict_get_str_inr _ _ _) Hl); simpl.
    rewrite H0; simpl. by rewrite H1.
Qed.

Lemma walk_preserves (I : DataFrame -> Prop) (df : Partition) (life : Z)
    (mat mat' : DataFrame) (from to_ : Z) :
  (forall m y m', I m -> setHistorical_year df life m y = inr m' -> I m') ->
  I mat -> walk df life mat from to_ = inr mat' -> I mat'.
Proof.
  intros Hyear. apply for_each_preserves. intros m y m' _. apply Hyear.
Qed.

Lemma setHistorical_preserves (I : DataFrame -> Prop) (df : Partition)
    (life : Z) (mat mat' : DataFrame) :
  (forall m y m', I m -> setHistorical_year df life m y = inr m' -> I m') ->
  I mat -> setHistorical mat df life = inr mat' -> I mat'.
Proof.
  intros Hyear Hmat H. rewrite setHistorical_walk in H.
  apply bind_inr in H as (y1 & _ & H). by apply (walk_preserves I) in H.
Qed.



(** C7. In every row the non-zero cells form one interval without gaps,
    inside [[vintage, vintage + life - 1]], hence of at most [life]
    columns.  The fresh matrix satisfies this, and every operation keeps
    it: the initial distribution and each of its row assignments, each
    allocator year, each turn and each run of the retirement loop, each
    stretch of the walk; so it holds in the matrix extraction reads. *)
Theorem span_contiguous_at_every_step (fueltype_to_life : gmap string Z)
    (dfs : Partition) (life : Z) :
  (forall y_start y_end,
     span_invariant life (fresh_matrix y_start y_end life))
  /\ (forall mat y h mat',
        span_invariant life mat ->
        setInitial_row life mat y h = inr mat' -> span_invariant life mat')
  /\ (forall mat mat',
        span_invariant life mat ->
        setInitial mat dfs life = inr mat' -> span_invariant life mat')
  /\ (forall mat year mat',
        span_invariant life mat ->
        setHistorical_year dfs life mat year = inr mat' ->
        span_invariant life mat')
  /\ (forall mat addition y_pres year r,
        span_invariant life mat ->
        reduce_row life y_pres addition mat year = inr r ->
        span_invariant life r.2)
  /\ (forall mat addition y_pres mat',
        span_invariant life mat ->
        reduceVintages addition mat life y_pres = inr mat' ->
        span_invariant life mat')
  /\ (forall mat from to_ mat',
        span_invariant life mat ->
        walk dfs life mat from to_ = inr mat' -> span_invariant life mat')
  /\ (forall mat,
        cohort_matrix fueltype_to_life dfs = inr (life, mat) ->
        span_invariant life mat)
  /\ (forall mat r c1 c2,
        span_invariant life mat -> nonzero mat r c1 -> nonzero mat r c2 ->
        r <= c1 /\ c2 <= r + life - 1 /\ c2 - c1 + 1 <= life
        /\ forall c, c1 <= c <= c2 -> nonzero mat r c).
Proof.
  assert (forall y_start y_end,
            span_invariant life (fresh_matrix y_start y_end life)) as Hfresh.
  { intros y_start y_end. split.
    - apply well_formed_new, NoDup_range.
    - apply span_ok_new. }
  assert (forall mat mat',
            span_invariant life mat ->
            setInitial mat dfs life = inr mat' -> span_invariant life mat')
    as Hinit.
  { intros mat mat' [Hwf Hspan] H. split.
    - by apply (well_formed_setInitial _ _ _ _ H).
    - by apply (span_ok_setInitial _ _ _ _ H). }
  assert (forall mat year mat',
            span_invariant life mat ->
            setHistorical_year dfs life mat year = inr mat' ->
            span_invariant life mat') as Hyear.
  { intros mat year mat' [Hwf Hspan] H. split.
    - by apply (well_formed_setHistorical_year _ _ _ _ _ H).
    - by apply (span_ok_setHistorical_year _ _ _ _ _ H). }
  assert (forall mat addition y_pres year r,
            span_invariant life mat ->
            reduce_row life y_pres addition mat year = inr r ->
            span_invariant life r.2) as Hturn.
  { intros mat addition y_pres year r [Hwf Hspan] H. split.
    - by apply (well_formed_reduce_row _ _ _ _ _ _ H).
    - by apply (span_ok_reduce_row _ _ _ _ _ _ H). }
  split; [done|]. split; [|split; [done|split; [done|split; [done|]]]].
  { intros mat y h mat' [Hwf Hspan] H. split.
    - by apply (well_formed_setInitial_row _ _ _ _ _ H).
    - by apply (span_ok_setInitial_row _ _ _ _ _ H). }
  split; [|split; [|split]].
  - intros mat addition y_pres mat' Hmat H. revert H.
    apply (reduce_loop_preserves (span_invariant life)); [|done].
    intros a m y r Hm Hr. by apply (Hturn m a y_pres y r).
  - intros mat from to_ mat' Hmat H.
    by apply (walk_preserves (span_invariant life)) in H.
  - intros mat (y_start & y_end & mat0 & _ & _ & _ & H0 & H)%cohort_matrix_inr.
    apply Hinit in H0; [|apply Hfresh]. case_decide.
    + by apply (setHistorical_preserves (span_invariant life)) in H.
    + by injection H as <-.
  - intros mat r c1 c2 [_ Hspan] H1 H2. destruct (Hspan r) as [Hin Hconv].
    pose proof (Hin c1 H1). pose proof (Hin c2 H2).
    repeat split; try lia. intros c Hc. by apply (Hconv c1 c c2).
Qed.



(** C3. The scenario: one partition of a fuel type with the flat
    distribution, [life = 3], the series 2000: 100, 2001: 120, 2002: 90,
    [base_year = 2002].  The result has exactly three rows, for the years
    2000, 2001 and 2002, with the capacities [100/3], [120 - 2*(100/3)]
    and [90 - (120 - 100/3)], which add up to 90. *)
Theorem scenario_cohorts (fueltype_to_life : gmap string Z)
    (country technology fueltype set_ : string) :
  fueltype ∉ triangle_fueltypes ->
  fueltype_to_life !! fueltype = Some 3 ->
  exists c2000 c2001 c2002,
    derive_vintage_cohorts_from_statistics fueltype_to_life
      [mkPartition country technology fueltype set_
         [(2000, 100%Q); (2001, 120%Q); (2002, 90%Q)]]
      2002
    = inr [mkCohort country technology fueltype set_ 2000 c2000;
           mkCohort country technology fueltype set_ 2001 c2001;
           mkCohort country technology fueltype set_ 2002 c2002]
    /\ (c2000 == 100 / 3)%Q
    /\ (c2001 == 120 - 2 * (100 / 3))%Q
    /\ (c2002 == 90 - (120 - 100 / 3))%Q
    /\ (c2000 + c2001 + c2002 == 90)%Q.
Proof.
  intros Hfuel Hlife.
  unfold derive_vintage_cohorts_from_statistics, for_each, append_partition,
    derive_partition, cohort_matrix, setInitial.
  cbn [Fueltype index_nth index_last years rows bind ret fmap list_fmap
       lookup list_lookup last fst].
  rewrite (proj2 (dict_get_str_inr _ _ _) Hlife).
  cbn [bind].
  rewrite (decide_False _ _ Hfuel).
  eexists _, _, _. split; [vm_compute; reflexivity|].
  repeat split.
Qed.

Lemma scenario_cohorts_witness :
  exists c2000 c2001 c2002,
    derive_vintage_cohorts_from_statistics scenario_lifetimes [scenario] 2002
    = inr [mkCohort "DE" "Run-Of-River" "Hydro" "PP" 2000 c2000;
           mkCohort "DE" "Run-Of-River" "Hydro" "PP" 2001 c2001;
           mkCohort "DE" "Run-Of-River" "Hydro" "PP" 2002 c2002]
    /\ (c2000 == 100 / 3)%Q
    /\ (c2001 == 120 - 2 * (100 / 3))%Q
    /\ (c2002 == 90 - (120 - 100 / 3))%Q
    /\ (c2000 + c2001 + c2002 == 90)%Q.
Proof.
  apply (scenario_cohorts scenario_lifetimes "DE" "Run-Of-River" "Hydro" "PP").
  - by apply (bool_decide_unpack _).
  - reflexivity.
Defined.

(** ** The loop over the partitions *)

Lemma derive_unfold (fueltype_to_life : gmap string Z) (df : list Partition)
    (base_year : Z) :
  derive_vintage_cohorts_from_statistics fueltype_to_life df base_year
  = let* dfe := for_each (append_partition fueltype_to_life base_year) [] df
    in ret (filter (fun row => isclose0 (Capacity row) = false) dfe).
Proof. done. Qed.

(** The call raises what the first failing partition raises. *)
Lemma partitions_first_failure (fueltype_to_life : gmap string Z)
    (base_year : Z) (before after : list Partition) (dfs : Partition)
    (e : exn) :
  (forall p, p ∈ before ->
     exists out, derive_partition fueltype_to_life base_year p = inr out) ->
  derive_partition fueltype_to_life base_year dfs = inl e ->
  derive_vintage_cohorts_from_statistics fueltype_to_life
    (before ++ dfs :: after) base_year = inl e.
Proof.
  intros Hbefore Hdfs. rewrite derive_unfold, for_each_app.
  destruct (for_each_total (fun _ => True)
              (append_partition fueltype_to_life base_year) before [])
    as (dfe & -> & _); [|done|].
  - intros s p Hp _. destruct (Hbefore p Hp) as [out Hout].
    exists (s ++ out). unfold append_partition. by rewrite Hout.
  - simpl. unfold append_partition at 1. by rewrite Hdfs.
Qed.

(** A partition that fails makes the call fail, with the error of some
    partition. *)
Lemma partitions_failure (fueltype_to_life : gmap string Z)
    (base_year : Z) (df : list Partition) (dfs : Partition) (e : exn) :
  dfs ∈ df ->
  derive_partition fueltype_to_life base_year dfs = inl e ->
  exists e' p,
    derive_vintage_cohorts_from_statistics fueltype_to_life df base_year
    = inl e'
    /\ p ∈ df /\ derive_partition fueltype_to_life base_year p = inl e'.
Proof.
  intros Hin Hdfs. rewrite derive_unfold.
  assert (forall dfe, exists e' p,
            for_each (append_partition fueltype_to_life base_year) dfe df
            = inl e'
            /\ p ∈ df
            /\ derive_partition fueltype_to_life base_year p = inl e')
    as Hloop.
  { induction df as [|p df IH]; intros dfe; [by apply elem_of_nil in Hin|].
    simpl. unfold append_partition at 1.
    destruct (derive_partition fueltype_to_life base_year p) as [e1|out]
      eqn:Hp; simpl.
    - exists e1, p. split; [done|]. split; [left|done].
    - apply elem_of_cons in Hin as [->|Hin]; [congruence|].
      destruct (IH Hin (dfe ++ out)) as (e' & p' & H1 & H2 & H3).
      exists e', p'. split; [done|]. split; [by right|done]. }
  destruct (Hloop []) as (e' & p & H1 & H2 & H3). exists e', p.
  by rewrite H1.
Qed.


(** ** A fuel type without a lifetime *)

Lemma index_nth_0_total (dfs : Partition) :
  rows dfs <> [] -> exists y, index_nth dfs 0 = inr y.
Proof.
  unfold index_nth, years. destruct (rows dfs) as [|[y c] l]; [done|].
  by exists y.
Qed.

Lemma index_last_total (dfs : Partition) :
  rows dfs <> [] -> exists y, index_last dfs = inr y.
Proof.
  unfold index_last, years. intros H.
  destruct (last (fst <$> rows dfs)) as [y|] eqn:E; [by exists y|].
  apply last_None in E. apply fmap_nil_inv in E. done.
Qed.

Lemma derive_partition_missing_lifetime (fueltype_to_life : gmap string Z)
    (base_year : Z) (dfs : Partition) :
  rows dfs <> [] -> fueltype_to_life !! Fueltype dfs = None ->
  derive_partition fueltype_to_life base_year dfs
  = inl (KeyError (KStr (Fueltype dfs))).
Proof.
  intros Hrows Hlife. unfold derive_partition, cohort_matrix.
  destruct (index_nth_0_total dfs Hrows) as [y_start ->].
  destruct (index_last_total dfs Hrows) as [y_end ->]. simpl.
  unfold dict_get_str. by rewrite Hlife.
Qed.

(** C8, as the code has it.  A partition (a group of [groupby], so with
    at least one row) whose fuel type has no entry in the lifetime table
    raises the [KeyError] of the dictionary lookup, with the fuel type as
    its key, before its matrix is created; the whole call then fails and
    returns nothing, and it fails with this very error when the
    partitions before this one raised nothing. *)
Theorem missing_lifetime_raises_KeyError (fueltype_to_life : gmap string Z)
    (base_year : Z) (before after : list Partition) (dfs : Partition) :
  rows dfs <> [] -> fueltype_to_life !! Fueltype dfs = None ->
  cohort_matrix fueltype_to_life dfs = inl (KeyError (KStr (Fueltype dfs)))
  /\ derive_partition fueltype_to_life base_year dfs
     = inl (KeyError (KStr (Fueltype dfs)))
  /\ class_name (KeyError (KStr (Fueltype dfs))) = "KeyError"%string
  /\ (exists e,
        derive_vintage_cohorts_from_statistics fueltype_to_life
          (before ++ dfs :: after) base_year = inl e)
  /\ ((forall p, p ∈ before ->
         exists out, derive_partition fueltype_to_life base_year p = inr out)
      -> derive_vintage_cohorts_from_statistics fueltype_to_life
           (before ++ dfs :: after) base_year
         = inl (KeyError (KStr (Fueltype dfs)))).
Proof.
  intros Hrows Hlife.
  pose proof (derive_partition_missing_lifetime fueltype_to_life base_year
                dfs Hrows Hlife) as Hdfs.
  split; [|split; [done|split; [done|split]]].
  - unfold cohort_matrix.
    destruct (index_nth_0_total dfs Hrows) as [y_start ->].
    destruct (index_last_total dfs Hrows) as [y_end ->]. simpl.
    unfold dict_get_str. by rewrite Hlife.
  - destruct (partitions_failure fueltype_to_life base_year
                (before ++ dfs :: after) dfs
                (KeyError (KStr (Fueltype dfs)))) as (e' & p & H & _);
      [apply elem_of_app; right; left|done|by exists e'].
  - intros Hbefore. by apply partitions_first_failure.
Qed.

Lemma missing_lifetime_raises_KeyError_witness :
  derive_vintage_cohorts_from_statistics ∅ ([] ++ scenario :: []) 2002
  = inl (KeyError (KStr "Hydro")).
Proof.
  apply (missing_lifetime_raises_KeyError ∅ 2002 [] [] scenario).
  - discriminate.
  - reflexivity.
  - intros p Hp. by apply elem_of_nil in Hp.
Defined.

(** C8 as the design document states it fails: with an empty lifetime
    table the scenario does not raise an exception of a class named
    ConfigurationError. *)
Lemma missing_lifetime_not_ConfigurationError :
  ~ (exists e,
       derive_vintage_cohorts_from_statistics ∅ [scenario] 2002 = inl e
       /\ class_name e = "ConfigurationError"%string).
Proof.
  intros (e & H & Hclass). vm_compute in H. injection H as <-.
  discriminate Hclass.
Qed.

(** ** Partitions the call returns on *)

Lemma walk_empty (df : Partition) (life : Z) (mat : DataFrame) (y : Z) :
  walk df life mat y y = inr mat.
Proof. unfold walk, range. by rewrite seqZ_nil by lia. Qed.

(** The matrix of a partition with increasing years, a positive life and
    a first row is built without an exception. *)
Lemma cohort_matrix_total (fueltype_to_life : gmap string Z)
    (dfs : Partition) (y_start y_end life : Z) :
  sorted_years dfs ->
  index_nth dfs 0 = inr y_start -> index_last dfs = inr y_end ->
  fueltype_to_life !! Fueltype dfs = Some life -> 0 < life ->
  y_start - life + 1 < y_end ->
  exists mat, cohort_matrix fueltype_to_life dfs = inr (life, mat)
    /\ matrix_shape (y_start - life + 1) y_end life mat.
Proof.
  intros Hsorted Hfirst Hlast Htable Hlife Hlo.
  pose proof (y_start_le_y_end dfs y_start y_end Hsorted Hfirst Hlast) as Hle.
  destruct (setInitial_fresh_total dfs y_start y_end life Hfirst Hlife)
    as [mat0 Hmat0]; [by apply (y_start_in_years dfs y_start)|done|].
  destruct (setInitial_fresh_inr dfs y_start y_end life Hfirst Hlife Hle
              mat0 Hmat0) as (cap0 & _ & _ & Hshape0 & _ & Hout).
  destruct (decide (y_end > y_start)) as [Hgt|Hngt].
  - destruct (second_year dfs y_start y_end Hsorted Hfirst Hlast
                ltac:(lia)) as (y1 & Hy1 & Hy1lt & Hy1le).
    pose proof (Hy1le y_end (y_end_in_years dfs y_end Hlast) ltac:(lia)).
    destruct (walk_total_between dfs (y_start - life + 1) y_end life Hlife
                mat0 y1 (y_end + 1) Hshape0) as (mat & Hwalk & Hshape & _);
      [intros r c Hr; apply Hout; lia|lia|lia|].
    exists mat. split; [|done]. apply cohort_matrix_inr.
    exists y_start, y_end, mat0. do 4 (split; [done|]).
    rewrite decide_True by done. rewrite setHistorical_walk, Hy1. simpl.
    by rewrite (index_max_y_end dfs y_start y_end Hsorted Hfirst Hlast).
  - exists mat0. split; [|done]. apply cohort_matrix_inr.
    exists y_start, y_end, mat0. do 4 (split; [done|]).
    by rewrite decide_False by done.
Qed.

Lemma loc_column_inr (mat : DataFrame) (c : Z) :
  c ∈ columns mat ->
  loc_column mat c = inr ((fun r => cell mat r c) <$> index mat).
Proof. intros Hc. unfold loc_column. by rewrite decide_True by done. Qed.

Lemma loc_column_inl (mat : DataFrame) (c : Z) :
  c ∉ columns mat -> loc_column mat c = inl (KeyError (KInt c)).
Proof. intros Hc. unfold loc_column. by rewrite decide_False by done. Qed.




(** ** The exceptions the call can raise *)

Lemma is_KeyError_class (e : exn) :
  is_KeyError e <-> class_name e = "KeyError"%string.
Proof.
  split; [by intros [k ->]|]. destruct e; try discriminate. by eexists.
Qed.


Lemma for_each_inl {S A} (P : exn -> Prop) (body : S -> A -> Result S)
    (l : list A) (s : S) (e : exn) :
  (forall s x e, x ∈ l -> body s x = inl e -> P e) ->
  for_each body s l = inl e -> P e.
Proof.
  revert s. induction l as [|x l IH]; intros s Hbody H; simpl in H;
    [discriminate|].
  apply bind_inl in H as [H|(s' & _ & H)].
  - apply (Hbody s x e); [left|done].
  - apply (IH s'); [|done]. intros s1 y e1 Hy. apply Hbody. by right.
Qed.

















(** The error of the call is the error of one of its partitions. *)
Lemma derive_inl (fueltype_to_life : gmap string Z) (df : list Partition)
    (base_year : Z) (e : exn) :
  derive_vintage_cohorts_from_statistics fueltype_to_life df base_year
  = inl e ->
  exists p, p ∈ df
    /\ derive_partition fueltype_to_life base_year p = inl e.
Proof.
  rewrite derive_unfold. intros [H|(dfe & _ & H)]%bind_inl; [|discriminate].
  revert H.
  apply (for_each_inl
           (fun e => exists p, p ∈ df
              /\ derive_partition fueltype_to_life base_year p = inl e)).
  intros s p e' Hp H. unfold append_partition in H.
  apply bind_inl in H as [H|(add & _ & H)]; [|discriminate]. by exists p.
Qed.







(** ** Logging *)

(** The gap is what [aggregate_RES_by_yeardiff] warns about. *)
Example aggregate_RES_by_yeardiff_warns :
  (aggregate_RES_by_yeardiff_group gap_scenario).1
  = [YearColumnNotContinuous "DE" "Run-Of-River"].
Proof. reflexivity. Qed.







(** ** The waterfall of [reduceVintages] *)

Lemma pos_nonneg (o : option Q) : (0 <= pos o)%Q.
Proof.
  destruct o as [v|]; simpl; [|apply Qle_refl].
  destruct (Qlt_bool 0 v) eqn:E; [|apply Qle_refl].
  apply Qlt_bool_true in E. by apply Qlt_le_weak.
Qed.

Lemma pos_positive (v : Q) : (0 < v)%Q -> pos (Some v) = v.
Proof. intros H. simpl. by rewrite (proj2 (Qlt_bool_true 0 v) H). Qed.

Lemma pos_not_positive (o : option Q) :
  (forall v, o = Some v -> (v <= 0)%Q) -> pos o = 0%Q.
Proof.
  intros H. destruct o as [v|]; [|done]. simpl.
  by rewrite (proj2 (Qlt_bool_false 0 v) (H v eq_refl)).
Qed.

Lemma surviving_nonneg (mat : DataFrame) (Y : Z) (l : list Z) :
  (0 <= surviving mat Y l)%Q.
Proof.
  induction l as [|r l IH]; simpl; [apply Qle_refl|].
  pose proof (pos_nonneg (cell mat r Y)). lra.
Qed.

Lemma surviving_ext (m1 m2 : DataFrame) (Y : Z) (l : list Z) :
  (forall r, r ∈ l -> cell m1 r Y = cell m2 r Y) ->
  surviving m1 Y l = surviving m2 Y l.
Proof.
  induction l as [|r l IH]; intros H; simpl; [done|].
  rewrite (H r) by left. rewrite IH; [done|]. intros r' Hr'. apply H.
  by right.
Qed.

Lemma surviving_app (mat : DataFrame) (Y : Z) (l1 l2 : list Z) :
  (surviving mat Y (l1 ++ l2) == surviving mat Y l1 + surviving mat Y l2)%Q.
Proof.
  induction l1 as [|r l1 IH]; simpl; [lra|]. rewrite IH. lra.
Qed.

Lemma cons_split {A} (y r : A) (todo before after : list A) :
  y :: todo = before ++ r :: after ->
  (before = [] /\ r = y /\ after = todo)
  \/ exists before', before = y :: before' /\ todo = before' ++ r :: after.
Proof.
  destruct before as [|b before']; simpl; intros [= -> ->]; [by left|].
  right. by exists before'.
Qed.

Lemma Qabs_negative (a : Q) : (a < 0)%Q -> (Qabs a == - a)%Q.
Proof. intros H. apply Qabs_neg. by apply Qlt_le_weak. Qed.

(** The loop over the rows [todo], entered with the deficit [-a] still to
    absorb: each row gets what the waterfall gives it, the rows before it
    in [todo] counting as the older ones. *)
Lemma reduce_loop_waterfall (life Y : Z) (todo : list Z) :
  forall (a : Q) (m : DataFrame),
    (a < 0)%Q -> NoDup todo -> todo ⊆ index m -> Y ∈ columns m ->
    (forall r v, r ∈ todo -> cell m r Y = Some v -> (0 < v)%Q ->
                 Y <= r + life - 1) ->
    exists mat',
      reduce_loop life Y a m todo = inr mat'
      /\ (forall r c, r ∉ todo -> cell mat' r c = cell m r c)
      /\ (forall before r after, todo = before ++ r :: after ->
            waterfall_row life Y (- a) (surviving m Y before) m mat' r).
Proof.
  induction todo as [|y todo IH]; intros a m Ha Hnd Hsub HY Hspan.
  { exists m. split; [done|]. split; [done|].
    intros before r after H. by destruct before. }
  apply NoDup_cons in Hnd as [Hy Hnd].
  assert (y ∈ index m) as Hyi by (apply Hsub; left).
  assert (todo ⊆ index m) as Hsub' by (intros x Hx; apply Hsub; by right).
  assert (loc_get m y Y = inr (cell m y Y)) as Hget.
  { unfold loc_get. by rewrite !decide_True by done. }
  (* a row without a positive value at [Y]: the loop goes on unchanged *)
  assert ((forall v, cell m y Y = Some v -> (v <= 0)%Q) ->
          reduce_row life Y a m y = inr (Some a, m) ->
          exists mat',
            reduce_loop life Y a m (y :: todo) = inr mat'
            /\ (forall r c, r ∉ y :: todo -> cell mat' r c = cell m r c)
            /\ (forall before r after, y :: todo = before ++ r :: after ->
                  waterfall_row life Y (- a) (surviving m Y before) m mat' r))
    as Hskip.
  { intros Hnp Hrow.
    destruct (IH a m Ha Hnd Hsub' HY) as (mat' & Hloop & Hout & Hin).
    { intros r v Hr. apply Hspan. by right. }
    exists mat'. split; [simpl; by rewrite Hrow|]. split.
    { intros r c Hr. apply Hout. intros Hr'. apply Hr. by right. }
    intros before r after [(-> & -> & ->)|(before' & -> & ->)]%cons_split.
    - split; [|split].
      + intros c _. by apply Hout.
      + intros v Hv Hpos. apply Hnp in Hv. lra.
      + intros _ c. by apply Hout.
    - simpl. rewrite (pos_not_positive _ Hnp).
      destruct (Hin before' r after eq_refl) as (H1 & H2 & H3).
      split; [done|]. split; [|done].
      intros v Hv Hpos. destruct (H2 v Hv Hpos) as (H21 & H22 & H23).
      split; [|split].
      + intros Hlt. apply H21. lra.
      + intros Hlt Hle c Hc Hcol.
        destruct (H22 ltac:(lra) ltac:(lra) c Hc Hcol) as (v' & Hv' & Heq).
        exists v'. split; [done|]. lra.
      + intros Hle. apply H23. lra. }
  destruct (cell m y Y) as [R|] eqn:ER.
  2:{ apply Hskip; [intros v [=]|]. unfold reduce_row. by rewrite Hget. }
  destruct (Qlt_bool 0 R) eqn:E0.
  2:{ apply Hskip.
      - intros v [= <-]. by apply Qlt_bool_false.
      - unfold reduce_row. rewrite Hget. simpl. by rewrite E0. }
  unfold reduce_loop; fold reduce_loop. unfold reduce_row at 1.
  rewrite Hget. simpl. rewrite E0.
  apply Qlt_bool_true in E0.
  pose proof (Qabs_negative a Ha) as Habs.
  pose proof (Hspan y R ltac:(left) ER E0) as HYy.
  assert (forall v r c, r <> y ->
            cell (loc_set m y Y (y + life - 1) v) r c = cell m r c)
    as Hother by (intros; by apply loc_set_lookup_other_row).
  destruct (Qlt_bool R (Qabs a)) eqn:E1.
  - (* the row is retired in full *)
    apply Qlt_bool_true in E1. simpl.
    set (m1 := loc_set m y Y (y + life - 1) 0%Q).
    destruct (IH (a + R)%Q m1) as (mat' & Hloop & Hout & Hin);
      [lra|done| | | |].
    { intros x Hx. apply loc_set_index. left. by apply Hsub'. }
    { done. }
    { intros r v Hr Hv. apply (Hspan r v); [by right|].
      rewrite <- Hv. symmetry. apply Hother. by intros ->. }
    exists mat'. split; [done|]. split.
    { intros r c Hr. rewrite Hout by (intros Hr'; apply Hr; by right).
      apply Hother. intros ->. apply Hr. left. }
    intros before r after [(-> & -> & ->)|(before' & -> & ->)]%cons_split.
    + simpl. split; [|split].
      * intros c Hc. rewrite Hout by done. unfold m1, cell.
        rewrite loc_set_lookup. by rewrite decide_False by tauto.
      * intros v Hv Hpos. rewrite ER in Hv. injection Hv as <-.
        split; [|split].
        -- intros _ c Hc Hcol. rewrite Hout by done.
           by apply loc_set_lookup_in.
        -- intros _ Hle. lra.
        -- intros Hle. lra.
      * intros Hnp. specialize (Hnp R ER). lra.
    + assert (r <> y) as Hry.
      { intros ->. apply Hy. apply elem_of_app. right. left. }
      assert (surviving m1 Y before' = surviving m Y before') as Hsurv.
      { apply surviving_ext. intros r' Hr'. apply Hother. intros ->.
        apply Hy. apply elem_of_app. by left. }
      destruct (Hin before' r after eq_refl) as (H1 & H2 & H3).
      rewrite Hsurv in H2. simpl. rewrite ER, (pos_positive R E0).
      split; [|split].
      * intros c Hc. rewrite H1 by done. by apply Hother.
      * intros v Hv Hpos. rewrite <- (Hother 0%Q r Y Hry) in Hv.
        destruct (H2 v Hv Hpos) as (H21 & H22 & H23). split; [|split].
        -- intros Hlt. apply H21. lra.
        -- intros Hlt Hle c Hc Hcol.
           destruct (H22 ltac:(lra) ltac:(lra) c Hc Hcol)
             as (v' & Hv' & Heq).
           exists v'. split; [done|]. lra.
        -- intros Hle c. rewrite H23 by lra. by apply Hother.
      * intros Hnp c. rewrite H3; [by apply Hother|].
        intros v Hv. apply Hnp. rewrite <- Hv. symmetry. by apply Hother.
  - (* the deficit ends in the row *)
    apply Qlt_bool_false in E1. simpl.
    exists (loc_set m y Y (y + life - 1) (R + a)%Q). split; [done|]. split.
    { intros r c Hr. apply Hother. intros ->. apply Hr. left. }
    intros before r after [(-> & -> & ->)|(before' & -> & ->)]%cons_split.
    + simpl. split; [|split].
      * intros c Hc. unfold cell. rewrite loc_set_lookup.
        by rewrite decide_False by tauto.
      * intros v Hv Hpos. rewrite ER in Hv. injection Hv as <-.
        split; [|split].
        -- intros Hlt. lra.
        -- intros _ _ c Hc Hcol. exists (R + a)%Q.
           split; [by apply loc_set_lookup_in|lra].
        -- intros Hle. lra.
      * intros Hnp. specialize (Hnp R ER). lra.
    + assert (r <> y) as Hry.
      { intros ->. apply Hy. apply elem_of_app. right. left. }
      simpl. rewrite ER, (pos_positive R E0).
      pose proof (surviving_nonneg m Y before') as Hs.
      split; [|split].
      * intros c _. by apply Hother.
      * intros v Hv Hpos. split; [|split].
        -- intros Hlt. lra.
        -- intros Hlt. lra.
        -- intros _ c. by apply Hother.
      * intros _ c. by apply Hother.
Qed.

Lemma cell_loc_set_in (mat : DataFrame) (r a b : Z) (v : Q) (c : Z) :
  a <= c <= b -> c ∈ columns mat -> cell (loc_set mat r a b v) r c = Some v.
Proof. apply loc_set_lookup_in. Qed.

(** What the loop leaves alive at [Y] in the rows it ran over: the
    capacity they held less the deficit, or nothing when the deficit
    exceeds it. *)
Lemma reduce_loop_sum (life Y : Z) (todo : list Z) :
  forall (a : Q) (m mat' : DataFrame),
    (a < 0)%Q -> NoDup todo -> todo ⊆ index m -> Y ∈ columns m ->
    (forall r v, r ∈ todo -> cell m r Y = Some v -> (0 < v)%Q ->
                 Y <= r + life - 1) ->
    reduce_loop life Y a m todo = inr mat' ->
    ((- a <= surviving m Y todo)%Q ->
     (surviving mat' Y todo == surviving m Y todo + a)%Q)
    /\ ((surviving m Y todo < - a)%Q -> (surviving mat' Y todo == 0)%Q).
Proof.
  induction todo as [|y todo IH]; intros a m mat' Ha Hnd Hsub HY Hspan Hloop.
  { simpl. split; intros; lra. }
  destruct (reduce_loop_waterfall life Y (y :: todo) a m Ha Hnd Hsub HY Hspan)
    as (mat'' & Hloop' & _ & Hin).
  rewrite Hloop in Hloop'. injection Hloop' as <-.
  apply NoDup_cons in Hnd as [Hy Hnd].
  assert (y ∈ index m) as Hyi by (apply Hsub; left).
  assert (todo ⊆ index m) as Hsub' by (intros x Hx; apply Hsub; by right).
  assert (forall v r c, r <> y ->
            cell (loc_set m y Y (y + life - 1) v) r c = cell m r c)
    as Hother by (intros; by apply loc_set_lookup_other_row).
  assert (forall v, surviving (loc_set m y Y (y + life - 1) v) Y todo
                    = surviving m Y todo) as Hsurv.
  { intros v. apply surviving_ext. intros r Hr. apply Hother. by intros ->. }
  simpl in Hloop. apply bind_inr in Hloop as ([o m1] & Hrow & Hloop).
  destruct (reduce_row_inr _ _ _ _ _ _ Hrow) as
    (_ & _ & [[[= -> ->] Hnp]|[(R & HR & Hpos & Habs & [= -> ->])
                             |(R & HR & Hpos & Habs & [= -> ->])]]).
  - (* no positive value in the row *)
    destruct (IH a m mat' Ha Hnd Hsub' HY) as [IH1 IH2]; [|done|].
    { intros r v Hr. apply Hspan. by right. }
    destruct (Hin [] y todo eq_refl) as (_ & _ & Hsame).
    simpl. rewrite (Hsame Hnp Y), (pos_not_positive _ Hnp).
    split; intros H; [rewrite IH1|rewrite IH2]; lra.
  - (* the row is retired in full *)
    pose proof (Qabs_negative a Ha) as Ha'.
    pose proof (Hspan y R ltac:(left) HR Hpos) as HYy.
    destruct (IH (a + R)%Q (loc_set m y Y (y + life - 1) 0%Q) mat'
                ltac:(lra) Hnd) as [IH1 IH2]; [| | |done|].
    { intros x Hx. apply loc_set_index. left. by apply Hsub'. }
    { done. }
    { intros r v Hr Hv. apply (Hspan r v); [by right|].
      rewrite <- Hv. symmetry. apply Hother. by intros ->. }
    rewrite Hsurv in IH1, IH2.
    destruct (Hin [] y todo eq_refl) as (_ & Hfull & _).
    destruct (Hfull R HR Hpos) as (Hzero & _ & _). simpl in Hzero.
    simpl. rewrite (Hzero ltac:(lra) Y ltac:(lia) HY), HR.
    rewrite (pos_positive R Hpos). simpl.
    split; intros H; [rewrite IH1|rewrite IH2]; lra.
  - (* the deficit ends in the row *)
    pose proof (Qabs_negative a Ha) as Ha'.
    pose proof (Hspan y R ltac:(left) HR Hpos) as HYy.
    injection Hloop as <-. simpl. rewrite Hsurv.
    rewrite (cell_loc_set_in m y Y (y + life - 1) (R + a) Y ltac:(lia) HY).
    rewrite HR, (pos_positive R Hpos).
    pose proof (surviving_nonneg m Y todo) as Hs.
    assert (pos (Some (R + a)%Q) == R + a)%Q as Hp.
    { simpl. destruct (Qlt_bool 0 (R + a)) eqn:E; [lra|].
      apply Qlt_bool_false in E. lra. }
    split; intros H; [rewrite Hp|]; lra.
Qed.

Lemma colsum_surviving (mat : DataFrame) (Y : Z) :
  non_negative mat -> (colsum mat Y == surviving mat Y (index mat))%Q.
Proof.
  intros Hnn. unfold colsum.
  induction (index mat) as [|r l IH]; [simpl; lra|].
  rewrite fmap_cons, nansum_cons, IH.
  change (surviving mat Y (r :: l))
    with (pos (cell mat r Y) + surviving mat Y l)%Q.
  destruct (cell mat r Y) as [v|] eqn:E; unfold nan0; simpl; [|lra].
  apply Hnn in E. destruct (Qlt_bool 0 v) eqn:E0; [lra|].
  apply Qlt_bool_false in E0. lra.
Qed.

Lemma filter_all {A} (P : A -> Prop) `{!forall x, Decision (P x)}
    (l : list A) :
  Forall P l -> filter P l = l.
Proof.
  induction 1 as [|x l Hx Hl IH]; [done|].
  rewrite filter_cons. by rewrite decide_True, IH by done.
Qed.

Lemma filter_none {A} (P : A -> Prop) `{!forall x, Decision (P x)}
    (l : list A) :
  Forall (fun x => ~ P x) l -> filter P l = [].
Proof.
  induction 1 as [|x l Hx Hl IH]; [done|].
  rewrite filter_cons. by rewrite decide_False, IH by done.
Qed.

(** In an ascending index the rows before [r] are the older vintages. *)
Lemma sorted_older (before after : list Z) (r : Z) :
  StronglySorted Z.lt (before ++ r :: after) ->
  filter (fun r' => r' < r) (before ++ r :: after) = before.
Proof.
  intros Hsorted. rewrite filter_app.
  rewrite (filter_all (fun r' => r' < r) before).
  - rewrite (filter_none (fun r' => r' < r) (r :: after)); [apply app_nil_r|].
    apply StronglySorted_app_1_r, StronglySorted_inv in Hsorted as [_ Hx].
    constructor; [lia|]. eapply Forall_impl; [exact Hx|]. simpl. lia.
  - apply Forall_forall. intros x Hx.
    apply (StronglySorted_app_1_elem_of _ _ _ x r Hsorted Hx). left.
Qed.

Lemma sorted_NoDup (l : list Z) : StronglySorted Z.lt l -> NoDup l.
Proof.
  induction 1 as [|x l Hs IH Hx]; constructor; [|done].
  intros Hin. rewrite Forall_forall in Hx. apply Hx in Hin. lia.
Qed.

(** C2. Called with [addition < 0], that is with the deficit
    [D = -addition > 0], at the year [Y], on a matrix that satisfies the
    invariants and has its vintage rows in ascending order,
    [reduceVintages] raises nothing and goes through the rows oldest
    first: a row with a positive value [v] at [Y] is zeroed from [Y] to
    its scheduled end [r+life-1] when the deficit the older rows left
    exceeds [v], is set to [v] minus that deficit when it does not, and
    is left as it was once the deficit is absorbed; the other rows are
    untouched.  When the column [Y] holds at least [D] its sum drops by
    exactly [D]; when it holds less, every positive row is zeroed from
    [Y] on and the column is left with nothing. *)
Theorem retirement_waterfall (mat : DataFrame) (life Y : Z) (addition : Q) :
  well_formed mat -> non_negative mat -> span_ok life mat ->
  StronglySorted Z.lt (index mat) -> Y ∈ columns mat -> (addition < 0)%Q ->
  let D := (- addition)%Q in
  exists mat',
    reduceVintages addition mat life Y = inr mat'
    /\ index mat' = index mat /\ columns mat' = columns mat
    /\ (forall r, r ∈ index mat ->
          waterfall_row life Y D (surviving mat Y (older_vintages mat r))
            mat mat' r)
    /\ (forall r c, r ∉ index mat -> cell mat' r c = cell mat r c)
    /\ ((D <= colsum mat Y)%Q -> (colsum mat' Y == colsum mat Y - D)%Q)
    /\ ((colsum mat Y < D)%Q ->
        (colsum mat' Y == 0)%Q
        /\ forall r v, cell mat r Y = Some v -> (0 < v)%Q ->
             forall c, Y <= c <= r + life - 1 -> c ∈ columns mat ->
               cell mat' r c = Some 0%Q).
Proof.
  intros Hwf Hnn Hspan Hsorted HY Ha D.
  pose proof (sorted_NoDup _ Hsorted) as Hnd.
  assert (forall r v, r ∈ index mat -> cell mat r Y = Some v -> (0 < v)%Q ->
                      Y <= r + life - 1) as Hend.
  { intros r v _ Hv Hpos. destruct (Hspan r) as [Hin _].
    assert (nonzero mat r Y) as Hnz; [|apply Hin in Hnz; lia].
    exists v. split; [done|]. intros H0. rewrite H0 in Hpos.
    by apply Qlt_irrefl in Hpos. }
  destruct (reduce_loop_waterfall life Y (index mat) addition mat Ha Hnd)
    as (mat' & Hloop & Hout & Hin); [done|done|done|].
  destruct (reduce_loop_sum life Y (index mat) addition mat mat' Ha Hnd)
    as [Hsum1 Hsum2]; [done|done|done|done|].
  destruct (reduce_loop_frame _ _ _ _ _ _ Hloop) as [Hidx Hcols].
  assert (non_negative mat') as Hnn'.
  { revert Hloop. apply (reduce_loop_preserves non_negative); [|done].
    intros a m y r Hm Hr. by apply (non_negative_reduce_row _ _ _ _ _ _ Hr). }
  pose proof (colsum_surviving mat Y Hnn) as Hcs.
  pose proof (colsum_surviving mat' Y Hnn') as Hcs'. rewrite Hidx in Hcs'.
  assert (forall r, r ∈ index mat ->
            waterfall_row life Y D (surviving mat Y (older_vintages mat r))
              mat mat' r) as Hrows.
  { intros r Hr. apply list_elem_of_split in Hr as (before & after & Hsplit).
    unfold older_vintages. rewrite Hsplit.
    rewrite sorted_older by (by rewrite <- Hsplit).
    by apply (Hin before r after). }
  exists mat'. do 3 (split; [done|]). split; [done|]. split; [done|].
  unfold D in *. split.
  - intros Hle. rewrite Hcs', Hsum1; lra.
  - intros Hlt. split; [rewrite Hcs', Hsum2; lra|].
    intros r v Hv Hpos c Hc Hcol.
    assert (r ∈ index mat) as Hr.
    { destruct Hwf as (_ & Hdom & _). apply (Hdom r Y). by eexists. }
    destruct (Hrows r Hr) as (_ & H2 & _).
    destruct (H2 v Hv Hpos) as (Hfull & _ & _). apply Hfull; [|done|done].
    apply list_elem_of_split in Hr as (before & after & Hsplit).
    unfold older_vintages. rewrite Hsplit at 1.
    rewrite sorted_older by (by rewrite <- Hsplit).
    assert (surviving mat Y before + v <= surviving mat Y (index mat))%Q;
      [|lra].
    rewrite Hsplit, surviving_app. simpl.
    rewrite Hv, (pos_positive v Hpos).
    pose proof (surviving_nonneg mat Y after). lra.
Qed.

Lemma retirement_waterfall_witness :
  exists mat0 mat',
    setInitial (fresh_matrix 2000 2002 3) scenario 3 = inr mat0
    /\ reduceVintages (- 50) mat0 3 2000 = inr mat'
    /\ (colsum mat' 2000 == 100 - 50)%Q.
Proof.
  destruct (setInitial_fresh_total scenario 2000 2002 3 eq_refl)
    as [mat0 H0]; [lia|by apply (bool_decide_unpack _)|lia|].
  destruct (setInitial_fresh_inr scenario 2000 2002 3 eq_refl ltac:(lia)
              ltac:(lia) mat0 H0) as (cap & _ & _ & Hshape & _ & _).
  destruct (initial_distribution_conserves scenario 2000 2002 3 mat0 eq_refl
              ltac:(lia) ltac:(lia) H0) as (cap' & Hcap' & Hsum).
  injection Hcap' as <-.
  destruct (retirement_waterfall mat0 3 2000 (- 50)%Q)
    as (mat' & Hred & _ & _ & _ & _ & Hdrop & _).
  - apply Hshape.
  - apply (non_negative_setInitial _ _ _ _ H0); [lia| |apply non_negative_new].
    unfold scenario; simpl. repeat constructor; discriminate.
  - apply (span_ok_setInitial _ _ _ _ H0);
      [apply well_formed_new, NoDup_range|apply span_ok_new].
  - by apply (matrix_shape_sorted _ _ _ _ Hshape).
  - destruct Hshape as (_ & -> & _). by apply (bool_decide_unpack _).
  - reflexivity.
  - exists mat0, mat'. split; [done|]. split; [done|].
    rewrite Hdrop; rewrite Hsum; [reflexivity|discriminate].
Defined.

(** A deficit the column can absorb: the loop returns, the column loses
    exactly the deficit, and a row without a positive value at [Y] is
    left as it was. *)
Lemma reduceVintages_absorbs (mat : DataFrame) (life Y : Z) (addition : Q) :
  well_formed mat -> non_negative mat -> span_ok life mat ->
  Y ∈ columns mat -> (addition < 0)%Q -> (- addition <= colsum mat Y)%Q ->
  exists mat',
    reduceVintages addition mat life Y = inr mat'
    /\ (colsum mat' Y == colsum mat Y + addition)%Q
    /\ (forall r, r ∈ index mat ->
          (forall v, cell mat r Y = Some v -> (v <= 0)%Q) ->
          forall c, cell mat' r c = cell mat r c).
Proof.
  intros Hwf Hnn Hspan HY Ha Hle.
  assert (NoDup (index mat)) as Hnd by apply Hwf.
  assert (forall r v, r ∈ index mat -> cell mat r Y = Some v -> (0 < v)%Q ->
                      Y <= r + life - 1) as Hend.
  { intros r v _ Hv Hpos. destruct (Hspan r) as [Hin _].
    assert (nonzero mat r Y) as Hnz; [|apply Hin in Hnz; lia].
    exists v. split; [done|]. intros H0. rewrite H0 in Hpos.
    by apply Qlt_irrefl in Hpos. }
  destruct (reduce_loop_waterfall life Y (index mat) addition mat Ha Hnd)
    as (mat' & Hloop & _ & Hin); [done|done|done|].
  destruct (reduce_loop_sum life Y (index mat) addition mat mat' Ha Hnd)
    as [Hsum _]; [done|done|done|done|].
  destruct (reduce_loop_frame _ _ _ _ _ _ Hloop) as [Hidx _].
  assert (non_negative mat') as Hnn'.
  { revert Hloop. apply (reduce_loop_preserves non_negative); [|done].
    intros a m y r Hm Hr. by apply (non_negative_reduce_row _ _ _ _ _ _ Hr). }
  pose proof (colsum_surviving mat Y Hnn) as Hcs.
  pose proof (colsum_surviving mat' Y Hnn') as Hcs'. rewrite Hidx in Hcs'.
  exists mat'. split; [done|]. split.
  - rewrite Hcs', Hsum; lra.
  - intros r Hr Hnp.
    apply list_elem_of_split in Hr as (before & after & Hsplit).
    by destruct (Hin before r after Hsplit) as (_ & _ & Hsame); apply Hsame.
Qed.

(** The allocator year of a decline.  In a partition with increasing
    years and non-negative capacities, at an observed year [Y] after the
    first whose capacity is below what survives, the allocator writes
    zero into the row [Y] and retires older vintages, after which the
    column [Y] adds up to the observed capacity; the row [Y] stays zero. *)
Theorem allocator_year_decline_matches_capacity (dfs : Partition)
    (y_start y_end life Y : Z) (cap : Q) :
  sorted_years dfs ->
  index_nth dfs 0 = inr y_start -> index_last dfs = inr y_end ->
  0 < life -> Forall (fun row => (0 <= row.2)%Q) (rows dfs) ->
  Y ∈ years dfs -> Y <> y_start -> loc_Capacity dfs Y = inr cap ->
  exists mat0 y1 mat,
    setInitial (fresh_matrix y_start y_end life) dfs life = inr mat0
    /\ index_nth dfs 1 = inr y1
    /\ walk dfs life mat0 y1 Y = inr mat
    /\ setHistorical mat0 dfs life
       = (let* mat' := setHistorical_year dfs life mat Y in
          walk dfs life mat' (Y + 1) (y_end + 1))
    /\ ((cap - colsum mat Y < 0)%Q ->
        exists mat',
          setHistorical_year dfs life mat Y = inr mat'
          /\ (forall c, Y <= c <= Y + life - 1 -> cell mat' Y c = Some 0%Q)
          /\ (colsum mat' Y == cap)%Q).
Proof.
  intros Hsorted Hfirst Hlast Hlife Hcaps HY Hne Hcap.
  destruct (walk_reaches dfs y_start y_end life Y Hsorted Hfirst Hlast Hlife
              HY Hne)
    as (mat0 & y1 & mat & Hmat0 & Hy1 & Hwalk & Hrun & HY1 & HYe & Hshape
        & Hun).
  exists mat0, y1, mat. do 4 (split; [done|]). intros Hneg.
  assert (forall c, Y <= c <= Y + life - 1 -> c ∈ columns mat) as Hcols.
  { intros c Hc. destruct Hshape as (_ & -> & _). apply elem_of_range. lia. }
  assert (Y ∈ columns mat) as HYc by (apply Hcols; lia).
  assert (0 <= cap)%Q as Hcap0.
  { apply loc_Capacity_inr in Hcap. rewrite Forall_forall in Hcaps.
    by apply Hcaps in Hcap. }
  assert (non_negative mat /\ span_ok life mat) as [Hnn Hspan].
  { split.
    - apply (walk_preserves non_negative) in Hwalk; [done| |].
      + intros m y m' Hm H.
        by apply (non_negative_setHistorical_year _ _ _ _ _ H).
      + apply (non_negative_setInitial _ _ _ _ Hmat0 Hlife Hcaps).
        apply non_negative_new.
    - apply (walk_preserves (fun m => well_formed m /\ span_ok life m))
        in Hwalk; [tauto| |].
      + intros m y m' [Hm1 Hm2] H. split.
        * by apply (well_formed_setHistorical_year _ _ _ _ _ H).
        * by apply (span_ok_setHistorical_year _ _ _ _ _ H).
      + split.
        * apply (well_formed_setInitial _ _ _ _ Hmat0).
          apply well_formed_new, NoDup_range.
        * apply (span_ok_setInitial _ _ _ _ Hmat0);
            [apply well_formed_new, NoDup_range|apply span_ok_new]. }
  set (m1 := loc_set mat Y Y (Y + life - 1) 0%Q).
  assert (matrix_shape (y_start - life + 1) y_end life m1) as Hshape1
    by (apply matrix_shape_loc_set; [lia|done]).
  assert (colsum m1 Y == colsum mat Y)%Q as Hsum1.
  { unfold m1. rewrite colsum_loc_set_in; [|apply Hshape|lia|done].
    rewrite (Hun Y Y) by lia. unfold nan0; simpl. lra. }
  destruct (reduceVintages_absorbs m1 life Y (cap - colsum mat Y)%Q)
    as (mat' & Hred & Hdrop & Hrows); try done.
  - apply Hshape1.
  - apply non_negative_loc_set; [apply Qle_refl|done].
  - destruct (Hspan Y) as [Hin _].
    apply span_ok_loc_set; [apply Hshape|done|lia|lia| |].
    + intros c Hc. apply Hin in Hc. lia.
    + left. intros c Hc. apply Hin in Hc. lia.
  - lra.
  - exists mat'. split; [|split].
    + unfold setHistorical_year. rewrite decide_True by done.
      rewrite Hcap. simpl. rewrite column_sum_colsum by done. simpl.
      by rewrite (proj2 (Qle_bool_false 0 (cap - colsum mat Y)) Hneg).
    + intros c Hc.
      assert (Y ∈ index m1) as Hrow by (apply loc_set_index; by right).
      rewrite (Hrows Y Hrow); [by apply cell_loc_set_in; [|apply Hcols]|].
      intros v Hv. unfold m1 in Hv.
      rewrite cell_loc_set_in in Hv by (try lia; done).
      injection Hv as <-. apply Qle_refl.
    + rewrite Hdrop; lra.
Qed.

Lemma allocator_year_decline_matches_capacity_witness :
  exists mat0 y1 mat,
    setInitial (fresh_matrix 2000 2001 3) decline_scenario 3 = inr mat0
    /\ index_nth decline_scenario 1 = inr y1
    /\ walk decline_scenario 3 mat0 y1 2001 = inr mat
    /\ setHistorical mat0 decline_scenario 3
       = (let* mat' := setHistorical_year decline_scenario 3 mat 2001 in
          walk decline_scenario 3 mat' (2001 + 1) (2001 + 1))
    /\ ((40 - colsum mat 2001 < 0)%Q ->
        exists mat',
          setHistorical_year decline_scenario 3 mat 2001 = inr mat'
          /\ (forall c, 2001 <= c <= 2001 + 3 - 1 ->
                cell mat' 2001 c = Some 0%Q)
          /\ (colsum mat' 2001 == 40)%Q).
Proof.
  apply (allocator_year_decline_matches_capacity decline_scenario 2000 2001
           3 2001 40%Q).
  - unfold sorted_years, years, decline_scenario; simpl.
    repeat (constructor; [|repeat constructor; lia]). constructor.
  - reflexivity.
  - reflexivity.
  - lia.
  - unfold decline_scenario; simpl. repeat constructor; discriminate.
  - by apply (bool_decide_unpack _).
  - lia.
  - reflexivity.
Defined.

(** ** A single observed year with a life of one year *)

(** With one observed year and [life = 1] the matrix is created without
    a row, and [mat.index[0]] raises. *)
Lemma setInitial_without_row (dfs : Partition) (y_start y_end life : Z) :
  index_nth dfs 0 = inr y_start -> 0 < life ->
  y_end <= y_start - life + 1 ->
  setInitial (fresh_matrix y_start y_end life) dfs life = inl IndexError.
Proof.
  intros Hfirst Hlife Hrow.
  destruct (loc_Capacity_total dfs y_start (y_start_in_years _ _ Hfirst))
    as [cap Hcap].
  assert (index_first (fresh_matrix y_start y_end life) = inl IndexError)
    as Hidx.
  { unfold index_first, fresh_matrix, DataFrame_new, range; simpl.
    by rewrite seqZ_nil by lia. }
  unfold setInitial. case_decide as Hfuel.
  - unfold setInitial_Triangle. rewrite Hfirst; simpl. rewrite Hcap; simpl.
    rewrite triangle_dic_inr by done. simpl. by rewrite Hidx.
  - unfold setInitial_Flat. rewrite Hfirst; simpl. rewrite Hcap; simpl.
    rewrite fdiv_inr by lia. simpl. by rewrite Hidx.
Qed.

(** The sum of the terms of the comprehension of [setInitial_Triangle],
    in the order it computes them. *)
Lemma nansum_series (ht d : Q) (n : nat) :
  (nansum ((fun i => Some (ht - inject_Z i * d)%Q) <$> seqZ 0 (Z.of_nat n))
   == inject_Z (Z.of_nat n) * ht
      - d * (inject_Z (Z.of_nat n) * (inject_Z (Z.of_nat n) - 1) / 2))%Q.
Proof.
  induction n as [|n IH].
  - simpl. change (inject_Z (Z.of_nat 0)) with 0%Q. field.
  - rewrite seqZ_S, fmap_app, nansum_app, IH. simpl.
    replace (0 + Z.of_nat n) with (Z.of_nat n) by lia.
    replace (Z.of_nat (S n)) with (Z.of_nat n + 1) by lia.
    rewrite inject_Z_plus. change (inject_Z 1) with 1%Q. field.
Qed.

(** C4 on the partition of a single observed year with a lifetime of one
    year: the matrix has the column 2000 and no row, both initial
    distributions raise [IndexError] and the call fails; nothing is
    assigned, so the capacity of 100 is not conserved. *)
Theorem lone_year_life_one_raises :
  index (fresh_matrix 2000 2000 1) = []
  /\ columns (fresh_matrix 2000 2000 1) = [2000]
  /\ setInitial_Flat (fresh_matrix 2000 2000 1) (lone_year "Hydro") 1
     = inl IndexError
  /\ setInitial_Triangle (fresh_matrix 2000 2000 1) (lone_year "Wind") 1
     = inl IndexError
  /\ derive_vintage_cohorts_from_statistics {[ "Hydro"%string := 1 ]}
       [lone_year "Hydro"] 2000 = inl IndexError
  /\ derive_vintage_cohorts_from_statistics {[ "Wind"%string := 1 ]}
       [lone_year "Wind"] 2000 = inl IndexError.
Proof. repeat split; vm_compute; reflexivity. Qed.

(** C4 where the matrix has a row.  With a positive life, in a partition
    whose matrix is created with at least one row (several observed
    years, or a life of two years or more), the initial distribution
    returns under either policy; each of the [life] vintage years up to
    [y_start] holds the policy's value at the column [y_start], and these
    values, hence the column [y_start], add up to the first observed
    capacity. *)
Theorem initial_distribution_conserves_capacity (dfs : Partition)
    (y_start y_end life : Z) :
  sorted_years dfs ->
  index_nth dfs 0 = inr y_start -> index_last dfs = inr y_end ->
  0 < life -> y_start - life + 1 < y_end ->
  exists mat0 cap,
    setInitial (fresh_matrix y_start y_end life) dfs life = inr mat0
    /\ loc_Capacity dfs y_start = inr cap
    /\ (forall y, y_start - life + 1 <= y <= y_start ->
          cell mat0 y y_start
          = Some (if decide (Fueltype dfs ∈ triangle_fueltypes)
                  then (triangle_height cap life
                        - inject_Z (y_start - y) * triangle_decr cap life)%Q
                  else (cap / inject_Z life)%Q))
    /\ (forall y, ~ (y_start - life + 1 <= y <= y_start) ->
          cell mat0 y y_start = None)
    /\ (inject_Z life * (cap / inject_Z life) == cap)%Q
    /\ (nansum ((fun i => Some (triangle_height cap life
                                - inject_Z i * triangle_decr cap life)%Q)
                  <$> range 0 life) == cap)%Q
    /\ (colsum mat0 y_start == cap)%Q.
Proof.
  intros Hsorted Hfirst Hlast Hlife Hrow.
  pose proof (y_start_le_y_end dfs y_start y_end Hsorted Hfirst Hlast) as Hle.
  destruct (setInitial_fresh_total dfs y_start y_end life Hfirst Hlife)
    as [mat0 Hmat0]; [by apply (y_start_in_years dfs y_start)|done|].
  destruct (setInitial_fresh_inr dfs y_start y_end life Hfirst Hlife Hle
              mat0 Hmat0) as (cap & Hcap & _ & _ & Hin & Hout).
  destruct (initial_distribution_conserves dfs y_start y_end life mat0
              Hfirst Hlife Hle Hmat0) as (cap' & Hcap' & Hsum).
  rewrite Hcap in Hcap'. injection Hcap' as <-.
  pose proof (inject_Z_nonzero life Hlife) as Hnz.
  exists mat0, cap. do 2 (split; [done|]). split; [|split; [|split; [|split]]].
  - intros y Hy. rewrite (Hin y y_start Hy) by lia.
    unfold initial_value, triangle_value, flat_height. by case_decide.
  - intros y Hy. apply Hout. tauto.
  - by field.
  - pose proof (nansum_series (triangle_height cap life)
                  (triangle_decr cap life) (Z.to_nat life)) as H.
    rewrite Z2Nat.id in H by lia.
    unfold range. replace (life - 0) with life by lia. rewrite H.
    unfold triangle_height, triangle_decr, flat_height. by field.
  - done.
Qed.

Lemma initial_distribution_conserves_capacity_witness :
  exists mat0 cap,
    setInitial (fresh_matrix 2000 2002 3) scenario_wind 3 = inr mat0
    /\ loc_Capacity scenario_wind 2000 = inr cap
    /\ (colsum mat0 2000 == cap)%Q.
Proof.
  destruct (initial_distribution_conserves_capacity scenario_wind 2000 2002 3)
    as (mat0 & cap & H0 & Hcap & _ & _ & _ & _ & Hsum).
  - unfold sorted_years, years, scenario_wind; simpl.
    repeat (constructor; [|repeat constructor; lia]). constructor.
  - reflexivity.
  - reflexivity.
  - lia.
  - lia.
  - by exists mat0, cap.
Defined.

(** * The result of [derive_vintage_cohorts_from_statistics] *)

(** ** The rows of the result *)

Lemma derive_partition_inr (fueltype_to_life : gmap string Z)
    (base_year : Z) (dfs : Partition) (out : list Cohort) :
  derive_partition fueltype_to_life base_year dfs = inr out <->
  exists life mat,
    cohort_matrix fueltype_to_life dfs = inr (life, mat)
    /\ base_year ∈ columns mat
    /\ out = cohorts_of dfs mat base_year.
Proof.
  unfold derive_partition, cohorts_of. split.
  - intros H. apply bind_inr in H as ([life mat] & Hm & H).
    apply bind_inr in H as (caps & Hc & H). injection H as <-.
    simpl in Hc. unfold loc_column in Hc. case_decide as Hin; [|done].
    injection Hc as <-. by exists life, mat.
  - intros (life & mat & -> & Hin & ->). simpl.
    by rewrite loc_column_inr by done.
Qed.

Lemma elem_of_cohorts_of (dfs : Partition) (mat : DataFrame) (base_year : Z)
    (row : Cohort) :
  row ∈ cohorts_of dfs mat base_year <->
  exists r v, r ∈ index mat /\ cell mat r base_year = Some v /\ (0 < v)%Q
    /\ row = mkCohort (Country dfs) (Technology dfs) (Fueltype dfs)
                      (Set_ dfs) r v.
Proof.
  unfold cohorts_of. induction (index mat) as [|r l IH]; simpl.
  - split; [by intros H%elem_of_nil|]. by intros (r & v & H%elem_of_nil & _).
  - unfold cohort_row at 1. simpl.
    destruct (cell mat r base_year) as [v|] eqn:E.
    + destruct (Qlt_bool 0 v) eqn:E0.
      * apply Qlt_bool_true in E0. rewrite elem_of_cons, IH. split.
        -- intros [->|(r' & v' & Hr & H)].
           ++ exists r, v. split; [left|done].
           ++ exists r', v'. split; [by right|done].
        -- intros (r' & v' & Hr & Hv & Hpos & ->).
           apply elem_of_cons in Hr as [->|Hr].
           ++ left. rewrite E in Hv. by injection Hv as <-.
           ++ right. by exists r', v'.
      * apply Qlt_bool_false in E0. rewrite IH. split.
        -- intros (r' & v' & Hr & H). exists r', v'. split; [by right|done].
        -- intros (r' & v' & Hr & Hv & Hpos & ->).
           apply elem_of_cons in Hr as [->|Hr].
           ++ rewrite E in Hv. injection Hv as <-. lra.
           ++ by exists r', v'.
    + rewrite IH. split.
      * intros (r' & v' & Hr & H). exists r', v'. split; [by right|done].
      * intros (r' & v' & Hr & Hv & Hpos & ->).
        apply elem_of_cons in Hr as [->|Hr]; [congruence|].
        by exists r', v'.
Qed.

(** The matrix extraction reads satisfies the invariant of the spans. *)
Lemma cohort_matrix_span_invariant (fueltype_to_life : gmap string Z)
    (dfs : Partition) (life : Z) (mat : DataFrame) :
  cohort_matrix fueltype_to_life dfs = inr (life, mat) ->
  span_invariant life mat.
Proof.
  intros (y_start & y_end & mat0 & _ & _ & _ & H0 & H)%cohort_matrix_inr.
  assert (span_invariant life mat0) as Hinv0.
  { split.
    - apply (well_formed_setInitial _ _ _ _ H0).
      apply well_formed_new, NoDup_range.
    - apply (span_ok_setInitial _ _ _ _ H0);
        [apply well_formed_new, NoDup_range|apply span_ok_new]. }
  case_decide; [|by injection H as <-].
  apply (setHistorical_preserves (span_invariant life)) in H; [done| |done].
  intros m y m' [Hwf Hspan] Hy. split.
  - by apply (well_formed_setHistorical_year _ _ _ _ _ Hy).
  - by apply (span_ok_setHistorical_year _ _ _ _ _ Hy).
Qed.

(** The loop over the partitions returns when every partition does, and
    appends what they return, in their order. *)
Lemma partitions_inr (fueltype_to_life : gmap string Z) (base_year : Z)
    (df : list Partition) (dfe dfe' : list Cohort) :
  for_each (append_partition fueltype_to_life base_year) dfe df = inr dfe' <->
  exists outs,
    Forall2 (fun dfs out =>
               derive_partition fueltype_to_life base_year dfs = inr out)
            df outs
    /\ dfe' = dfe ++ concat outs.
Proof.
  revert dfe. induction df as [|dfs df IH]; intros dfe; simpl.
  - split.
    + intros [= <-]. exists []. split; [constructor|]. simpl.
      by rewrite app_nil_r.
    + intros (outs & ->%Forall2_nil_inv_l & ->). simpl.
      by rewrite app_nil_r.
  - unfold append_partition at 1. split.
    + intros H. apply bind_inr in H as (s & Hs & H).
      apply bind_inr in Hs as (out & Hout & Hs). injection Hs as <-.
      apply IH in H as (outs & Hall & ->). exists (out :: outs).
      split; [by constructor|]. simpl. by rewrite app_assoc.
    + intros (outs & Hall & ->).
      apply Forall2_cons_inv_l in Hall as (out & outs' & Hout & Hall & ->).
      rewrite Hout. simpl. apply IH. exists outs'. split; [done|].
      simpl. by rewrite app_assoc.
Qed.

Lemma derive_inr (fueltype_to_life : gmap string Z) (df : list Partition)
    (base_year : Z) (out : list Cohort) :
  derive_vintage_cohorts_from_statistics fueltype_to_life df base_year
  = inr out <->
  exists outs,
    Forall2 (fun dfs out =>
               derive_partition fueltype_to_life base_year dfs = inr out)
            df outs
    /\ out = filter (fun row => isclose0 (Capacity row) = false)
                    (concat outs).
Proof.
  rewrite derive_unfold. split.
  - intros H. apply bind_inr in H as (dfe & Hdfe & H). injection H as <-.
    apply partitions_inr in Hdfe as (outs & Hall & ->). by exists outs.
  - intros (outs & Hall & ->).
    assert (for_each (append_partition fueltype_to_life base_year) [] df
            = inr (concat outs)) as ->; [|done].
    apply partitions_inr. by exists outs.
Qed.

Lemma elem_of_concat {A} (x : A) (ls : list (list A)) :
  x ∈ concat ls <-> exists l, x ∈ l /\ l ∈ ls.
Proof.
  rewrite list_elem_of_In, in_concat. split.
  - intros (l & Hl & Hx). exists l. by rewrite !list_elem_of_In.
  - intros (l & Hx & Hl). exists l. by rewrite <- !list_elem_of_In.
Qed.

Lemma isclose0_false (v : Q) :
  (0 < v)%Q -> isclose0 v = false <-> (1 # 100000000 < v)%Q.
Proof.
  intros Hpos. unfold isclose0. rewrite Qle_bool_false.
  rewrite Qabs_pos by lra. done.
Qed.

(** Whatever the frame, every row of a result comes from one of the
    partitions, whose labels it carries; its commissioning year is one of
    the [life] years up to [base_year], [life] the lifetime of the
    partition's fuel type, and its capacity exceeds the tolerance 1e-8 of
    [np.isclose]: no vintage older than the lifetime, none commissioned
    after [base_year], none of zero capacity is returned. *)
Theorem cohorts_within_lifetime_window (fueltype_to_life : gmap string Z)
    (df : list Partition) (base_year : Z) (out : list Cohort) :
  derive_vintage_cohorts_from_statistics fueltype_to_life df base_year
  = inr out ->
  forall row, row ∈ out ->
    exists dfs life,
      dfs ∈ df /\ fueltype_to_life !! Fueltype dfs = Some life
      /\ cCountry row = Country dfs /\ cTechnology row = Technology dfs
      /\ cFueltype row = Fueltype dfs /\ cSet row = Set_ dfs
      /\ base_year - life + 1 <= YearCommissioned row <= base_year
      /\ (1 # 100000000 < Capacity row)%Q.
Proof.
  intros (outs & Hall & ->)%derive_inr row Hrow.
  apply list_elem_of_filter in Hrow as [Hclose Hrow].
  apply elem_of_concat in Hrow as (o & Hrow & Ho).
  apply list_elem_of_lookup in Ho as [i Ho].
  destruct (Forall2_lookup_r _ _ _ _ _ Hall Ho) as (dfs & Hdfs & Hout).
  apply derive_partition_inr in Hout as (life & mat & Hmat & Hcol & ->).
  apply elem_of_cohorts_of in Hrow as (r & v & Hr & Hv & Hpos & ->).
  simpl in *. exists dfs, life.
  split; [by apply list_elem_of_lookup_2 in Hdfs|].
  split.
  { by apply cohort_matrix_inr in Hmat as (? & ? & ? & _ & _ & ? & _). }
  do 4 (split; [done|]).
  split; [|by apply isclose0_false].
  destruct (cohort_matrix_span_invariant _ _ _ _ Hmat) as [_ Hspan].
  destruct (Hspan r) as [Hin _].
  assert (nonzero mat r base_year) as Hnz; [|apply Hin in Hnz; lia].
  exists v. split; [done|]. intros H0. rewrite H0 in Hpos.
  by apply Qlt_irrefl in Hpos.
Qed.

Lemma cohorts_within_lifetime_window_witness :
  exists out,
    derive_vintage_cohorts_from_statistics scenario_lifetimes [scenario] 2002
    = inr out
    /\ forall row, row ∈ out ->
         exists dfs life,
           dfs ∈ [scenario] /\ scenario_lifetimes !! Fueltype dfs = Some life
           /\ cCountry row = Country dfs /\ cTechnology row = Technology dfs
           /\ cFueltype row = Fueltype dfs /\ cSet row = Set_ dfs
           /\ 2002 - life + 1 <= YearCommissioned row <= 2002
           /\ (1 # 100000000 < Capacity row)%Q.
Proof.
  eexists. split.
  - vm_compute. reflexivity.
  - apply (cohorts_within_lifetime_window scenario_lifetimes [scenario] 2002).
    vm_compute. reflexivity.
Defined.

(** ** Columns of years the walk has passed *)
















(** ** A lifetime of zero years *)

(** A partition whose fuel type has a lifetime of zero: the matrix is
    created, and the first division of the initial distribution, of the
    first statistic by the lifetime, raises [ZeroDivisionError] under
    either policy; the call fails with it when the partitions before
    raised nothing. *)
Theorem zero_lifetime_raises_ZeroDivisionError
    (fueltype_to_life : gmap string Z) (base_year : Z)
    (before after : list Partition) (dfs : Partition) :
  rows dfs <> [] -> fueltype_to_life !! Fueltype dfs = Some 0 ->
  (forall y_start y_end,
     setInitial (fresh_matrix y_start y_end 0) dfs 0 = inl ZeroDivisionError)
  /\ cohort_matrix fueltype_to_life dfs = inl ZeroDivisionError
  /\ derive_partition fueltype_to_life base_year dfs = inl ZeroDivisionError
  /\ ((forall p, p ∈ before ->
         exists out, derive_partition fueltype_to_life base_year p = inr out)
      -> derive_vintage_cohorts_from_statistics fueltype_to_life
           (before ++ dfs :: after) base_year = inl ZeroDivisionError).
Proof.
  intros Hrows Hlife.
  destruct (index_nth_0_total dfs Hrows) as [y_start Hfirst].
  destruct (index_last_total dfs Hrows) as [y_end Hlast].
  destruct (loc_Capacity_total dfs y_start (y_start_in_years _ _ Hfirst))
    as [cap Hcap].
  assert (forall y0 y1,
            setInitial (fresh_matrix y0 y1 0) dfs 0 = inl ZeroDivisionError)
    as Hinit.
  { intros y0 y1. unfold setInitial. case_decide.
    - unfold setInitial_Triangle. rewrite Hfirst; simpl. by rewrite Hcap.
    - unfold setInitial_Flat. rewrite Hfirst; simpl. by rewrite Hcap. }
  assert (cohort_matrix fueltype_to_life dfs = inl ZeroDivisionError) as Hmat.
  { unfold cohort_matrix. rewrite Hfirst; simpl. rewrite Hlast; simpl.
    rewrite (proj2 (dict_get_str_inr _ _ _) Hlife); simpl.
    by rewrite Hinit. }
  assert (derive_partition fueltype_to_life base_year dfs
          = inl ZeroDivisionError) as Hdfs.
  { unfold derive_partition. by rewrite Hmat. }
  do 3 (split; [done|]).
  intros Hbefore. by apply partitions_first_failure.
Qed.

Lemma zero_lifetime_raises_ZeroDivisionError_witness :
  derive_vintage_cohorts_from_statistics {[ "Hydro"%string := 0 ]}
    ([] ++ scenario :: []) 2002 = inl ZeroDivisionError.
Proof.
  apply (zero_lifetime_raises_ZeroDivisionError {[ "Hydro"%string := 0 ]}
           2002 [] [] scenario).
  - discriminate.
  - reflexivity.
  - intros p Hp. by apply elem_of_nil in Hp.
Defined.

(** ** Partitions are handled one by one *)



(** ** The order of the rows *)





(** * The aggregations of the module *)

(** ** Keys of a [groupby] *)

Lemma elem_of_group_keys (l : list string) (k : string) :
  k ∈ group_keys l <-> k ∈ l.
Proof.
  unfold group_keys. rewrite merge_sort_Permutation.
  apply elem_of_remove_dups.
Qed.

Lemma NoDup_group_keys (l : list string) : NoDup (group_keys l).
Proof.
  unfold group_keys. rewrite merge_sort_Permutation.
  apply NoDup_remove_dups.
Qed.

(** ** Rows and their labels *)

Lemma labelled_fst {A} (df : list A) : (labelled df).*1 = seq 0 (length df).
Proof. apply fst_zip. rewrite length_seq. lia. Qed.


Lemma NoDup_labelled {A} (df : list A) : NoDup (labelled df).*1.
Proof. rewrite labelled_fst. apply NoDup_seq. Qed.

Lemma filter_snd_zip {K A} (P : A -> Prop) `{!forall x, Decision (P x)}
    (P' : K * A -> Prop) `{!forall x, Decision (P' x)}
    (ks : list K) (l : list A) :
  (forall ir, P' ir <-> P ir.2) -> length ks = length l ->
  (filter P' (zip ks l)).*2 = filter P l.
Proof.
  intros HP. revert ks.
  induction l as [|x l IH]; intros [|k ks] Hlen; try done.
  simpl. rewrite !filter_cons.
  destruct (decide (P' (k, x))) as [H1|H1], (decide (P x)) as [H2|H2];
    csimpl; try (rewrite IH by (simpl in Hlen; lia); done); exfalso.
  - by apply HP in H1.
  - apply H1. by apply HP.
Qed.

Lemma NoDup_fst_filter {K A} (P : K * A -> Prop)
    `{!forall x, Decision (P x)} (l : list (K * A)) :
  NoDup l.*1 -> NoDup (filter P l).*1.
Proof.
  intros Hnd. apply (sublist_NoDup _ (l.*1)); [done|].
  apply fmap_sublist, sublist_filter.
Qed.

(** A label names one row. *)
Lemma labelled_row {A} (l : list (nat * A)) (i : nat) (r r' : A) :
  NoDup l.*1 -> (i, r) ∈ l -> (i, r') ∈ l -> r = r'.
Proof.
  intros Hnd H1 H2.
  apply (elem_of_list_to_map_1 (M := gmap nat)) in H1; [|done].
  apply (elem_of_list_to_map_1 (M := gmap nat)) in H2; [|done].
  congruence.
Qed.

(** ** Differences and running totals *)

Lemma length_diff (previous : Q) (l : list Q) :
  length (diff previous l) = length l.
Proof. revert previous. induction l as [|c l IH]; intros p; simpl; auto. Qed.

Lemma length_diff_fillna_first (l : list Q) :
  length (diff_fillna_first l) = length l.
Proof. destruct l as [|c l]; simpl; [done|]. by rewrite length_diff. Qed.

(** Adding up the differences gives back the last value. *)
Lemma nansum_diff (previous : Q) (l : list Q) (k : nat) (c : Q) :
  l !! k = Some c ->
  (nansum (Some <$> take (S k) (diff previous l)) == c - previous)%Q.
Proof.
  revert previous k. induction l as [|x l IH]; intros p k Hk; [done|].
  destruct k as [|k]; simpl in *.
  - injection Hk as ->. simpl. lra.
  - rewrite (IH x k Hk). lra.
Qed.

Lemma nansum_diff_fillna_first (l : list Q) (k : nat) (c : Q) :
  l !! k = Some c ->
  (nansum (Some <$> take (S k) (diff_fillna_first l)) == c)%Q.
Proof.
  destruct l as [|x l]; [done|]. destruct k as [|k]; simpl.
  - intros [= ->]. simpl. lra.
  - intros Hk. rewrite (nansum_diff x l k c Hk). lra.
Qed.

(** ** The two loops as one *)

Lemma yeardiff_loops (df : list (nat * Statistic)) (cs : list string)
    (st : Logged (gmap nat Q)) :
  foldl (yeardiff_country df) st cs
  = foldl (fun st g => yeardiff_group g.1 g.2 (group_stats df g) st) st
          (cs ≫= fun c =>
             (fun tech => (c, tech))
               <$> group_keys (omap (fun ir => sTechnology ir.2)
                                 (filter (fun ir => sCountry ir.2 = c) df))).
Proof.
  revert st. induction cs as [|c cs IH]; intros st; csimpl; [done|].
  rewrite foldl_app, <- IH. f_equal.
  unfold yeardiff_country. by rewrite foldl_fmap.
Qed.

(** The log and the column [Addition] after the groups [gs]. *)
Lemma yeardiff_groups_log (df : list (nat * Statistic))
    (gs : list (string * string)) (st : Logged (gmap nat Q)) :
  (foldl (fun st g => yeardiff_group g.1 g.2 (group_stats df g) st) st gs).1
  = st.1 ++ (gs ≫= group_warning df).
Proof.
  revert st. induction gs as [|g gs IH]; intros st; csimpl.
  - by rewrite app_nil_r.
  - rewrite IH. simpl. by rewrite <- app_assoc.
Qed.

Lemma yeardiff_groups_lookup_None (df : list (nat * Statistic))
    (gs : list (string * string)) (st : Logged (gmap nat Q)) (i : nat) :
  (forall g, g ∈ gs -> group_additions df g !! i = None) ->
  (foldl (fun st g => yeardiff_group g.1 g.2 (group_stats df g) st) st gs).2
    !! i = st.2 !! i.
Proof.
  revert st. induction gs as [|g gs IH]; intros st Hgs; simpl; [done|].
  rewrite IH by (intros g' Hg'; apply Hgs; by right). simpl.
  unfold update_Addition. rewrite lookup_union_r; [done|].
  apply (Hgs g). left.
Qed.

Lemma yeardiff_groups_lookup_Some (df : list (nat * Statistic))
    (gs : list (string * string)) (st : Logged (gmap nat Q)) (i : nat)
    (g : string * string) (v : Q) :
  g ∈ gs -> group_additions df g !! i = Some v ->
  (forall g', g' ∈ gs -> is_Some (group_additions df g' !! i) -> g' = g) ->
  (foldl (fun st g => yeardiff_group g.1 g.2 (group_stats df g) st) st gs).2
    !! i = Some v.
Proof.
  revert st. induction gs as [|g0 gs IH]; intros st Hg Hv Huniq;
    [by apply elem_of_nil in Hg|].
  simpl. destruct (decide (g ∈ gs)) as [Hin|Hnin].
  - apply IH; [done|done|]. intros g' Hg'. apply Huniq. by right.
  - apply elem_of_cons in Hg as [->|Hg]; [|done].
    rewrite yeardiff_groups_lookup_None.
    + simpl. unfold update_Addition. by apply lookup_union_Some_l.
    + intros g' Hg'. destruct (group_additions df g' !! i) eqn:E; [|done].
      exfalso. apply Hnin. rewrite <- (Huniq g'); [done|by right|by eexists].
Qed.

(** ** The groups *)

Lemma elem_of_group_stats (df : list (nat * Statistic))
    (g : string * string) (ir : nat * Statistic) :
  ir ∈ group_stats df g <->
  ir ∈ df /\ sCountry ir.2 = g.1 /\ sTechnology ir.2 = Some g.2.
Proof.
  unfold group_stats. rewrite !list_elem_of_filter. tauto.
Qed.

Lemma elem_of_groups_of (df : list (nat * Statistic)) (g : string * string) :
  g ∈ groups_of df <-> exists ir, ir ∈ group_stats df g.
Proof.
  unfold groups_of. rewrite list_elem_of_bind. split.
  - intros (c & Hg & Hc). apply list_elem_of_fmap in Hg as (tech & -> & Ht).
    apply elem_of_group_keys, list_elem_of_omap in Ht as (ir & Hir & Ht).
    apply list_elem_of_filter in Hir as [Hc' Hir].
    exists ir. by apply elem_of_group_stats.
  - intros (ir & (Hir & Hc & Ht)%elem_of_group_stats).
    exists g.1. split.
    + apply list_elem_of_fmap. exists g.2. split; [by destruct g|].
      apply elem_of_group_keys, list_elem_of_omap. exists ir.
      split; [|done]. by apply list_elem_of_filter.
    + apply elem_of_group_keys, list_elem_of_fmap. by exists ir.
Qed.

Lemma NoDup_groups_of (df : list (nat * Statistic)) : NoDup (groups_of df).
Proof.
  unfold groups_of. apply NoDup_bind.
  - intros c1 c2 g _ _ (t1 & -> & _)%list_elem_of_fmap
           (t2 & [= <- _] & _)%list_elem_of_fmap. done.
  - intros c _. apply NoDup_fmap_2; [|apply NoDup_group_keys].
    by intros t1 t2 [= ->].
  - apply NoDup_group_keys.
Qed.

(** The labels of a group are those of its rows, and the value written
    under the label of its [k]-th row is the [k]-th difference. *)
Lemma group_additions_lookup (df : list (nat * Statistic))
    (g : string * string) (k : nat) (ir : nat * Statistic) :
  NoDup df.*1 -> group_stats df g !! k = Some ir ->
  group_additions df g !! ir.1
  = diff_fillna_first ((fun ir => sCapacity ir.2) <$> group_stats df g) !! k.
Proof.
  intros Hnd Hk. unfold group_additions.
  set (stats := group_stats df g) in *.
  set (vals := diff_fillna_first ((fun ir => sCapacity ir.2) <$> stats)).
  assert (length vals = length stats) as Hlen.
  { unfold vals. by rewrite length_diff_fillna_first, length_fmap. }
  destruct (lookup_lt_is_Some_2 vals k) as [v Hv].
  { rewrite Hlen. by apply lookup_lt_Some in Hk. }
  rewrite Hv. apply elem_of_list_to_map.
  - rewrite fst_zip by (rewrite length_fmap; lia).
    apply NoDup_fst_filter, NoDup_fst_filter, Hnd.
  - apply (list_elem_of_lookup_2 _ k). apply lookup_zip_with_Some.
    exists ir.1, v. split; [done|]. split; [|done].
    by rewrite list_lookup_fmap, Hk.
Qed.

Lemma group_additions_is_Some (df : list (nat * Statistic))
    (g : string * string) (i : nat) :
  is_Some (group_additions df g !! i) ->
  exists r, (i, r) ∈ group_stats df g.
Proof.
  unfold group_additions. intros [v Hv].
  apply elem_of_list_to_map_2, elem_of_zip_l in Hv.
  apply list_elem_of_fmap in Hv as ([i' r] & -> & Hir). by exists r.
Qed.

(** The column [Addition] when the loops are over: a row without a
    technology keeps NaN, a row with one holds what its group wrote. *)
Lemma yeardiff_final (df : list (nat * Statistic)) (i : nat)
    (r : Statistic) :
  NoDup df.*1 -> (i, r) ∈ df ->
  (foldl (yeardiff_country df) ([], ∅)
         (group_keys ((fun ir => sCountry ir.2) <$> df))).2 !! i
  = match sTechnology r with
    | Some tech => group_additions df (sCountry r, tech) !! i
    | None => None
    end.
Proof.
  intros Hnd Hir. rewrite yeardiff_loops. fold (groups_of df).
  assert (forall g, is_Some (group_additions df g !! i) ->
            sTechnology r = Some g.2 /\ sCountry r = g.1) as Hgroup.
  { intros g (r' & Hr')%group_additions_is_Some.
    apply elem_of_group_stats in Hr' as (Hr' & Hc & Ht). simpl in *.
    by rewrite (labelled_row df i r r' Hnd Hir Hr'). }
  destruct (sTechnology r) as [tech|] eqn:Etech.
  - assert ((i, r) ∈ group_stats df (sCountry r, tech)) as Hin
      by by apply elem_of_group_stats.
    apply list_elem_of_lookup in Hin as [k Hk].
    pose proof (group_additions_lookup df _ k _ Hnd Hk) as Hv. simpl in Hv.
    destruct (lookup_lt_is_Some_2
                (diff_fillna_first ((fun ir => sCapacity ir.2)
                   <$> group_stats df (sCountry r, tech))) k) as [v Hvk].
    { rewrite length_diff_fillna_first, length_fmap.
      by apply lookup_lt_Some in Hk. }
    rewrite Hvk in Hv. rewrite Hv.
    apply (yeardiff_groups_lookup_Some df _ _ i (sCountry r, tech)).
    + apply elem_of_groups_of. exists (i, r).
      by apply list_elem_of_lookup_2 in Hk.
    + done.
    + intros [c t] _ Hs. destruct (Hgroup _ Hs) as [Ht Hc]. simpl in *.
      congruence.
  - rewrite yeardiff_groups_lookup_None; [done|].
    intros g _. destruct (group_additions df g !! i) eqn:E; [|done].
    destruct (Hgroup g) as [? _]; [by eexists|done].
Qed.

(** ** [aggregate_RES_by_yeardiff]: the result *)

Lemma filter_fmap {A B} (f : A -> B) (P : B -> Prop)
    `{!forall x, Decision (P x)} (l : list A) :
  filter P (f <$> l) = f <$> filter (fun x => P (f x)) l.
Proof.
  induction l as [|x l IH]; [done|]. csimpl. rewrite !filter_cons.
  case_decide; csimpl; by rewrite IH.
Qed.

Lemma group_stats_filter (df : list (nat * Statistic)) (c tech : string) :
  group_stats df (c, tech)
  = filter (fun ir => sCountry ir.2 = c /\ sTechnology ir.2 = Some tech) df.
Proof.
  unfold group_stats. simpl. rewrite list_filter_filter.
  apply list_filter_iff. tauto.
Qed.

(** The rows of a group, in the frame and in the result. *)
Lemma yeardiff_group_rows (df : list Statistic)
    (target_fueltypes : option (list string)) (c tech : string) :
  let D := labelled (kept_statistics target_fueltypes df) in
  let st := foldl (yeardiff_country D) ([], ∅)
                  (group_keys ((fun ir => sCountry ir.2) <$> D)) in
  statistics_group c tech (kept_statistics target_fueltypes df)
  = (group_stats D (c, tech)).*2
  /\ additions_group c tech
       (aggregate_RES_by_yeardiff df target_fueltypes).2
     = (fun ir => mkAddition (sCountry ir.2) (sTechnology ir.2)
                    (sFueltype ir.2) (sSet ir.2) (sYear ir.2)
                    (st.2 !! ir.1)) <$> group_stats D (c, tech).
Proof.
  intros D st. split.
  - rewrite group_stats_filter. unfold statistics_group, D, labelled.
    symmetry. apply filter_snd_zip; [done|]. by rewrite length_seq.
  - rewrite group_stats_filter. unfold additions_group.
    unfold aggregate_RES_by_yeardiff. simpl.
    fold (kept_statistics target_fueltypes df). fold D. fold st.
    by rewrite filter_fmap.
Qed.

(** The additions of a (Country, Technology) group are the first
    statistic of the group and then the differences between each
    statistic and the one before it, in the order of the frame and under
    the same years; adding the additions up from the first row of the
    group gives back the statistic of every row. *)
Theorem yeardiff_additions_sum_to_capacity (df : list Statistic)
    (target_fueltypes : option (list string)) (c tech : string) :
  let ins := statistics_group c tech
               (kept_statistics target_fueltypes df) in
  let outs := additions_group c tech
                (aggregate_RES_by_yeardiff df target_fueltypes).2 in
  aYearCommissioned <$> outs = sYear <$> ins
  /\ aCapacity <$> outs = Some <$> diff_fillna_first (sCapacity <$> ins)
  /\ forall k cap,
       (sCapacity <$> ins) !! k = Some cap ->
       (nansum (take (S k) (aCapacity <$> outs)) == cap)%Q.
Proof.
  intros ins outs.
  destruct (yeardiff_group_rows df target_fueltypes c tech) as [Hins Houts].
  fold ins in Hins. fold outs in Houts.
  set (D := labelled (kept_statistics target_fueltypes df)) in *.
  set (st := foldl (yeardiff_country D) ([], ∅)
               (group_keys ((fun ir => sCountry ir.2) <$> D))) in *.
  set (S := group_stats D (c, tech)) in *.
  assert (aCapacity <$> outs = Some <$> diff_fillna_first (sCapacity <$> ins))
    as Hcaps.
  { rewrite Houts, Hins, <- !list_fmap_compose.
    apply list_eq. intros k. rewrite !list_lookup_fmap.
    destruct (S !! k) as [[i r]|] eqn:Hk; simpl.
    - assert ((i, r) ∈ S) as Hin by by apply list_elem_of_lookup_2 in Hk.
      apply elem_of_group_stats in Hin as (Hin & Hc & Ht). simpl in *.
      unfold st. rewrite (yeardiff_final D i r (NoDup_labelled _) Hin), Ht.
      rewrite Hc.
      pose proof (group_additions_lookup D (c, tech) k (i, r)
                    (NoDup_labelled _) Hk) as Hv.
      simpl in Hv. rewrite Hv. fold S. unfold compose.
      destruct (lookup_lt_is_Some_2
                  (diff_fillna_first ((fun ir => sCapacity ir.2) <$> S)) k)
        as [v Hvk]; [|by rewrite Hvk].
      rewrite length_diff_fillna_first, length_fmap.
      by apply lookup_lt_Some in Hk.
    - symmetry. apply fmap_None, lookup_ge_None.
      rewrite length_diff_fillna_first, length_fmap.
      by apply lookup_ge_None in Hk. }
  split; [|split; [done|]].
  - by rewrite Houts, Hins, <- !list_fmap_compose.
  - intros k cap Hk. rewrite Hcaps, <- fmap_take.
    by apply nansum_diff_fillna_first.
Qed.


(** ** [aggregate_RES_by_yeardiff]: the log *)

Lemma year_not_continuous_nil_false (ys : list Z) :
  year_not_continuous ys = true -> ys <> [].
Proof. by destruct ys. Qed.

(** The warning of a (Country, Technology) group is logged exactly when
    two rows of the group that follow each other are not one year apart,
    and it is logged once. *)
Theorem yeardiff_warns_iff_years_not_consecutive (df : list Statistic)
    (target_fueltypes : option (list string)) (c tech : string) :
  let log := (aggregate_RES_by_yeardiff df target_fueltypes).1 in
  (YearColumnNotContinuous c tech ∈ log <->
   year_not_continuous
     (sYear <$> statistics_group c tech
                  (kept_statistics target_fueltypes df)) = true)
  /\ NoDup log.
Proof.
  intros log.
  destruct (yeardiff_group_rows df target_fueltypes c tech) as [Hins _].
  rewrite Hins. clear Hins.
  unfold log, aggregate_RES_by_yeardiff. simpl.
  fold (kept_statistics target_fueltypes df).
  set (D := labelled (kept_statistics target_fueltypes df)).
  rewrite yeardiff_loops. fold (groups_of D).
  rewrite yeardiff_groups_log. simpl.
  rewrite <- list_fmap_compose.
  assert (forall g rec, rec ∈ group_warning D g <->
            rec = YearColumnNotContinuous g.1 g.2
            /\ year_not_continuous
                 ((fun ir => sYear ir.2) <$> group_stats D g) = true)
    as Hwarn.
  { intros g rec. unfold group_warning.
    destruct (year_not_continuous _).
    - rewrite list_elem_of_singleton. tauto.
    - rewrite elem_of_nil. split; [done|]. by intros [_ ?]. }
  split.
  - rewrite list_elem_of_bind. split.
    + intros ([c' t'] & [[= <- <-] H]%Hwarn & _). done.
    + intros H. exists (c, tech). split; [by apply Hwarn|].
      apply elem_of_groups_of.
      apply year_not_continuous_nil_false in H.
      destruct (group_stats D (c, tech)) as [|ir l]; [done|].
      exists ir. left.
  - apply NoDup_bind; [| |apply NoDup_groups_of].
    + intros [c1 t1] [c2 t2] rec _ _ [-> _]%Hwarn [[= -> ->] _]%Hwarn. done.
    + intros g _. unfold group_warning.
      destruct (year_not_continuous _); [apply NoDup_singleton|constructor].
Qed.

(** ** [average_empty_commyears] *)

Lemma notnull_elem (l : list (option Q)) (y : Q) :
  y ∈ notnull l <-> Some y ∈ l.
Proof.
  unfold notnull. rewrite list_elem_of_omap. split.
  - intros (o & Ho & Hy). simpl in Hy. by subst o.
  - intros Hy. by exists (Some y).
Qed.

Lemma nanmean_is_Some (l : list (option Q)) :
  is_Some (nanmean l) <-> exists y, Some y ∈ l.
Proof.
  unfold nanmean. destruct (notnull l) as [|y ys] eqn:E.
  - split; [by intros [? ?]|]. intros [y Hy%notnull_elem].
    rewrite E in Hy. by apply elem_of_nil in Hy.
  - split; [|by eexists]. intros _. exists y. apply notnull_elem.
    rewrite E. left.
Qed.

Lemma transform_mean_is_Some {K} `{EqDecision K} (key : Unit -> K)
    (df : list Unit) (row : Unit) :
  is_Some (transform_mean key df row) <->
  exists r, r ∈ df /\ key r = key row /\ is_Some (uYearCommissioned r).
Proof.
  unfold transform_mean. rewrite nanmean_is_Some. split.
  - intros (y & Hy). apply list_elem_of_fmap in Hy as (r & Hr & Hin).
    apply list_elem_of_filter in Hin as [Hk Hin].
    exists r. split; [done|]. split; [done|]. rewrite <- Hr. by eexists.
  - intros (r & Hin & Hk & [y Hy]). exists y. apply list_elem_of_fmap.
    exists r. split; [done|]. by apply list_elem_of_filter.
Qed.

Section Fill.
Context {K} `{EqDecision K} (key : Unit -> K) (df : list Unit) (row : Unit).

Lemma fillna_row_labels :
  uCountry (fillna_row key df row) = uCountry row
  /\ uFueltype (fillna_row key df row) = uFueltype row
  /\ uTechnology (fillna_row key df row) = uTechnology row
  /\ uCapacity (fillna_row key df row) = uCapacity row.
Proof. unfold fillna_row. by destruct (uYearCommissioned row). Qed.

Lemma fillna_row_known (y : Q) :
  uYearCommissioned row = Some y -> fillna_row key df row = row.
Proof. unfold fillna_row. by intros ->. Qed.

Lemma fillna_row_empty :
  uYearCommissioned row = None ->
  uYearCommissioned (fillna_row key df row) = transform_mean key df row.
Proof. unfold fillna_row. by intros ->. Qed.

Lemma fillna_row_is_Some :
  is_Some (uYearCommissioned (fillna_row key df row)) <->
  is_Some (uYearCommissioned row)
  \/ exists r, r ∈ df /\ key r = key row /\ is_Some (uYearCommissioned r).
Proof.
  rewrite <- transform_mean_is_Some. unfold fillna_row.
  destruct (uYearCommissioned row) as [y|] eqn:E; simpl.
  - rewrite E. split; [by left|by eexists].
  - split; [by right|]. intros [[? ?]|?]; done.
Qed.
End Fill.

(** Which rows hold a year after the second fill, and after the third. *)
Lemma second_fill_is_Some (df : list Unit) (row : Unit) :
  row ∈ df ->
  let df1 := fillna_mean (fun r => (uCountry r, uFueltype r)) df in
  let row1 := fillna_row (fun r => (uCountry r, uFueltype r)) df row in
  is_Some (uYearCommissioned (fillna_row uFueltype df1 row1))
  <-> fueltype_dated df row.
Proof.
  intros Hin df1 row1. rewrite fillna_row_is_Some.
  unfold fueltype_dated. rewrite Exists_exists.
  destruct (fillna_row_labels (fun r => (uCountry r, uFueltype r)) df row)
    as (Hc & Hf & _).
  fold row1 in Hc, Hf. split.
  - intros [H1|(r1 & Hr1 & Hk & H1)].
    + apply fillna_row_is_Some in H1 as [H0|(r0 & H0 & [= _ Hk] & Hy)].
      * by exists row.
      * by exists r0.
    + unfold df1, fillna_mean in Hr1.
      apply list_elem_of_fmap in Hr1 as (r & -> & Hr).
      destruct (fillna_row_labels (fun r => (uCountry r, uFueltype r)) df r)
        as (_ & Hf' & _).
      apply fillna_row_is_Some in H1 as [H0|(r0 & H0 & [= _ Hk0] & Hy)].
      * exists r. split; [done|]. split; [congruence|done].
      * exists r0. split; [done|]. split; [congruence|done].
  - intros (r0 & H0 & Hk & [y Hy]). right.
    exists (fillna_row (fun r => (uCountry r, uFueltype r)) df r0). split.
    + unfold df1, fillna_mean. apply list_elem_of_fmap. by exists r0.
    + rewrite (fillna_row_known _ _ _ y Hy). split; [congruence|by eexists].
Qed.

Lemma third_fill_is_Some (df : list Unit) (row : Unit) :
  row ∈ df ->
  let g1 := fillna_row (fun r => (uCountry r, uFueltype r)) df in
  let df1 := g1 <$> df in
  let g2 := fillna_row uFueltype df1 in
  let df2 := g2 <$> df1 in
  is_Some (uYearCommissioned (fillna_row uCountry df2 (g2 (g1 row))))
  <-> fillable df row.
Proof.
  intros Hin g1 df1 g2 df2. rewrite fillna_row_is_Some.
  unfold fillable. rewrite Exists_exists.
  assert (forall r, uCountry (g2 (g1 r)) = uCountry r) as Hc.
  { intros r. unfold g2, g1.
    destruct (fillna_row_labels uFueltype df1
                (fillna_row (fun r => (uCountry r, uFueltype r)) df r))
      as (-> & _).
    by destruct (fillna_row_labels (fun r => (uCountry r, uFueltype r)) df r)
      as (-> & _). }
  split.
  - intros [H2|(r2 & Hr2 & Hk & H2)].
    + exists row. split; [done|]. split; [done|].
      by apply (second_fill_is_Some df row Hin).
    + unfold df2 in Hr2. apply list_elem_of_fmap in Hr2 as (r1 & -> & Hr1).
      unfold df1 in Hr1. apply list_elem_of_fmap in Hr1 as (r & -> & Hr).
      exists r. split; [done|]. rewrite !Hc in Hk. split; [done|].
      by apply (second_fill_is_Some df r Hr).
  - intros (r & Hr & Hk & Hd). right. exists (g2 (g1 r)). split.
    + unfold df2, df1. rewrite <- list_fmap_compose.
      apply list_elem_of_fmap. by exists r.
    + rewrite !Hc. split; [done|].
      by apply (second_fill_is_Some df r Hr).
Qed.

Lemma average_empty_commyears_unfold (df : list Unit) :
  average_empty_commyears df
  = let empty := filter (fun row => uYearCommissioned row = None)
                        (filled df <$> df) in
    if decide (empty = []) then inr (omap with_int_year (filled df <$> df))
    else inl (EmptyYearCommissioned (length empty)).
Proof.
  unfold average_empty_commyears, filled, fillna_mean.
  by rewrite <- !list_fmap_compose.
Qed.

Lemma filled_is_Some (df : list Unit) (row : Unit) :
  row ∈ df ->
  is_Some (uYearCommissioned (filled df row)) <-> fillable df row.
Proof. intros Hin. by apply (third_fill_is_Some df row Hin). Qed.

Lemma filled_labels (df : list Unit) (row : Unit) :
  uCountry (filled df row) = uCountry row
  /\ uFueltype (filled df row) = uFueltype row
  /\ uTechnology (filled df row) = uTechnology row
  /\ uCapacity (filled df row) = uCapacity row.
Proof.
  unfold filled.
  repeat match goal with
         | |- context [fillna_row ?k ?d ?r] =>
             let H := fresh in
             destruct (fillna_row_labels k d r) as (-> & -> & -> & ->)
         end.
  done.
Qed.

Lemma filled_known (df : list Unit) (row : Unit) (y : Q) :
  uYearCommissioned row = Some y -> filled df row = row.
Proof.
  intros Hy. unfold filled.
  rewrite (fillna_row_known _ df row y Hy).
  rewrite (fillna_row_known _ _ row y Hy).
  by rewrite (fillna_row_known _ _ row y Hy).
Qed.

(** A row the first fill reaches holds the mean of its (Country,
    Fueltype) group from then on. *)
Lemma filled_first (df : list Unit) (row : Unit) (m : Q) :
  uYearCommissioned row = None ->
  transform_mean (fun r => (uCountry r, uFueltype r)) df row = Some m ->
  uYearCommissioned (filled df row) = Some m.
Proof.
  intros Hy Hm. unfold filled.
  set (row1 := fillna_row (fun r => (uCountry r, uFueltype r)) df row).
  assert (uYearCommissioned row1 = Some m) as H1.
  { unfold row1. by rewrite fillna_row_empty. }
  rewrite (fillna_row_known _ _ row1 m H1).
  by rewrite (fillna_row_known _ _ row1 m H1).
Qed.

Lemma length_filter_fmap {A B} (f : A -> B) (P : B -> Prop)
    `{!forall x, Decision (P x)} (P' : A -> Prop)
    `{!forall x, Decision (P' x)} (l : list A) :
  (forall x, x ∈ l -> P (f x) <-> P' x) ->
  length (filter P (f <$> l)) = length (filter P' l).
Proof.
  induction l as [|x l IH]; intros HP; [done|].
  csimpl. rewrite !filter_cons.
  assert (length (filter P (f <$> l)) = length (filter P' l)) as Hl.
  { apply IH. intros y Hy. apply HP. by right. }
  destruct (decide (P (f x))) as [H1|H1], (decide (P' x)) as [H2|H2];
    simpl; try lia; exfalso.
  - apply H2. apply HP; [left|done].
  - apply H1. apply HP; [left|done].
Qed.

Lemma omap_Forall2 {A B} (f : A -> option B) (l : list A) :
  Forall (fun x => is_Some (f x)) l ->
  Forall2 (fun x y => f x = Some y) l (omap f l).
Proof.
  induction 1 as [|x l [y Hy] Hl IH]; csimpl; [constructor|].
  rewrite Hy. by constructor.
Qed.

Lemma filter_empty_Forall (l : list Unit) :
  filter (fun row => uYearCommissioned row = None) l = [] ->
  Forall (fun row => is_Some (with_int_year row)) l.
Proof.
  intros H. apply Forall_forall. intros row Hrow.
  unfold with_int_year.
  destruct (uYearCommissioned row) eqn:E; [by eexists|].
  assert (row ∈ filter (fun row => uYearCommissioned row = None) l) as Hin
    by by apply list_elem_of_filter.
  rewrite H in Hin. by apply elem_of_nil in Hin.
Qed.

(** The call returns exactly when every row is in a country with a row
    whose fuel type has a commissioning year somewhere in the frame, and
    then returns as many rows as it was given; otherwise it raises the
    [ValueError], whose count is the number of rows of the other
    countries. *)
Theorem average_empty_commyears_returns_or_counts (df : list Unit) :
  match average_empty_commyears df with
  | inr out => Forall (fillable df) df /\ length out = length df
  | inl (EmptyYearCommissioned count) =>
      Exists (fun row => ~ fillable df row) df
      /\ count = length (filter (fun row => ~ fillable df row) df)
  end.
Proof.
  rewrite average_empty_commyears_unfold. simpl.
  assert (length (filter (fun row => uYearCommissioned row = None)
                         (filled df <$> df))
          = length (filter (fun row => ~ fillable df row) df)) as Hlen.
  { apply length_filter_fmap. intros row Hrow.
    rewrite <- (filled_is_Some df row Hrow).
    rewrite <- not_eq_None_Some. split; [by intros ->; auto|].
    intros Hn. destruct (uYearCommissioned (filled df row)); [|done].
    by exfalso; apply Hn. }
  case_decide as Hempty.
  - rewrite Hempty in Hlen. simpl in Hlen. split.
    + apply Forall_forall. intros row Hrow.
      destruct (decide (fillable df row)) as [|Hn]; [done|].
      assert (row ∈ filter (fun row => ~ fillable df row) df) as Hin
        by by apply list_elem_of_filter.
      destruct (filter (fun row => ~ fillable df row) df); [|done].
      by apply elem_of_nil in Hin.
    + apply filter_empty_Forall, omap_Forall2, Forall2_length in Hempty.
      by rewrite <- Hempty, length_fmap.
  - split; [|done]. apply Exists_exists.
    destruct (filter (fun row => ~ fillable df row) df) as [|row l] eqn:E.
    + destruct (filter _ (filled df <$> df)); done.
    + assert (row ∈ filter (fun row => ~ fillable df row) df) as Hin
        by (rewrite E; left).
      apply list_elem_of_filter in Hin as [Hn Hin]. by exists row.
Qed.

Lemma average_empty_commyears_inr (df : list Unit) (out : list DatedUnit) :
  average_empty_commyears df = inr out ->
  Forall2 (fun row d => with_int_year (filled df row) = Some d) df out.
Proof.
  rewrite average_empty_commyears_unfold. simpl.
  case_decide as Hempty; [|done]. intros [= <-].
  apply filter_empty_Forall, omap_Forall2 in Hempty.
  by apply Forall2_fmap_l in Hempty.
Qed.

(** When the call returns, the result has the rows of the frame in their
    order, each with its country, fuel type, technology and capacity; a
    year the frame holds is kept, cut to an integer, and a row without a
    year whose (Country, Fueltype) group holds years gets the mean of
    these, cut to an integer, whatever the later fills would give. *)
Theorem average_empty_commyears_keeps_known_years (df : list Unit)
    (out : list DatedUnit) :
  average_empty_commyears df = inr out ->
  Forall2 (fun row d =>
             dCountry d = uCountry row /\ dFueltype d = uFueltype row
             /\ dTechnology d = uTechnology row
             /\ dCapacity d = uCapacity row
             /\ (forall y, uYearCommissioned row = Some y ->
                   dYearCommissioned d = astype_int y)
             /\ (forall m,
                   uYearCommissioned row = None ->
                   transform_mean (fun r => (uCountry r, uFueltype r)) df row
                   = Some m ->
                   dYearCommissioned d = astype_int m))
          df out.
Proof.
  intros H%average_empty_commyears_inr.
  eapply Forall2_impl; [exact H|]. simpl. intros row d Hd.
  unfold with_int_year in Hd.
  destruct (uYearCommissioned (filled df row)) as [y'|] eqn:Ey; [|done].
  injection Hd as <-. simpl.
  destruct (filled_labels df row) as (-> & -> & -> & ->).
  do 4 (split; [done|]). split.
  - intros y Hy. rewrite (filled_known df row y Hy) in Ey. congruence.
  - intros m Hy Hm. rewrite (filled_first df row m Hy Hm) in Ey. congruence.
Qed.

Lemma average_empty_commyears_keeps_known_years_witness :
  exists out,
    average_empty_commyears units_example = inr out
    /\ Forall2 (fun row d =>
             dCountry d = uCountry row /\ dFueltype d = uFueltype row
             /\ dTechnology d = uTechnology row
             /\ dCapacity d = uCapacity row
             /\ (forall y, uYearCommissioned row = Some y ->
                   dYearCommissioned d = astype_int y)
             /\ (forall m,
                   uYearCommissioned row = None ->
                   transform_mean (fun r => (uCountry r, uFueltype r))
                     units_example row = Some m ->
                   dYearCommissioned d = astype_int m))
          units_example out.
Proof.
  eexists. split.
  - vm_compute. reflexivity.
  - apply (average_empty_commyears_keeps_known_years units_example).
    vm_compute. reflexivity.
Defined.

(** ** Means and integer years *)









(** ** Frames without an empty year *)





(** ** [aggregate_RES_by_commyear] *)

Lemma Qsum_app (l1 l2 : list Q) : (Qsum (l1 ++ l2) == Qsum l1 + Qsum l2)%Q.
Proof. induction l1 as [|x l1 IH]; simpl; [lra|]. rewrite IH. lra. Qed.

(** Among distinct keys, one key is met once. *)
Lemma Qsum_indicator {K} `{EqDecision K} (k0 : K) (v : Q) (ks : list K) :
  NoDup ks ->
  (Qsum ((fun k => if decide (k0 = k) then v else 0%Q) <$> ks)
   == if decide (k0 ∈ ks) then v else 0)%Q.
Proof.
  induction 1 as [|k ks Hk Hnd IH]; [done|]. csimpl. rewrite IH.
  destruct (decide (k0 = k)) as [->|Hne].
  - rewrite decide_False by done. rewrite decide_True by left. lra.
  - destruct (decide (k0 ∈ ks)) as [Hin|Hnin].
    + rewrite decide_True by by right. lra.
    + rewrite decide_False; [lra|]. by intros [?|?]%elem_of_cons.
Qed.

(** The sums of the groups add up to the sum of all rows whose key is
    one of the keys. *)
Lemma Qsum_groups {A K} `{EqDecision K} (key : A -> K) (f : A -> Q)
    (ks : list K) (l : list A) :
  NoDup ks ->
  (Qsum ((fun k => Qsum (f <$> filter (fun x => key x = k) l)) <$> ks)
   == Qsum (f <$> filter (fun x => key x ∈ ks) l))%Q.
Proof.
  intros Hnd. induction l as [|x l IH].
  - simpl. induction ks as [|k ks IHk]; [done|]. csimpl.
    rewrite IHk by by apply NoDup_cons_1_2 in Hnd. lra.
  - assert (Qsum ((fun k => Qsum (f <$> filter (fun x => key x = k)
                                           (x :: l))) <$> ks)
            == Qsum ((fun k => if decide (key x = k) then f x else 0%Q)
                       <$> ks)
               + Qsum ((fun k => Qsum (f <$> filter (fun x => key x = k) l))
                         <$> ks))%Q as ->.
    { clear. induction ks as [|k ks IHk]; csimpl; [lra|].
      rewrite IHk, filter_cons. case_decide; csimpl; lra. }
    rewrite IH, Qsum_indicator by done. rewrite filter_cons.
    case_decide; csimpl; lra.
Qed.

Lemma filter_ext_elem {A} (P1 P2 : A -> Prop) `{!forall x, Decision (P1 x)}
    `{!forall x, Decision (P2 x)} (l : list A) :
  (forall x, x ∈ l -> P1 x <-> P2 x) -> filter P1 l = filter P2 l.
Proof.
  induction l as [|x l IH]; intros HP; [done|]. rewrite !filter_cons.
  rewrite IH by (intros y Hy; apply HP; by right).
  destruct (decide (P1 x)) as [H1|H1], (decide (P2 x)) as [H2|H2];
    try done; exfalso.
  - apply H2. apply HP; [left|done].
  - apply H1. apply HP; [left|done].
Qed.

Lemma replace_dash_inj (s1 s2 : string) :
  replace_dash s1 = replace_dash s2 -> s1 = s2.
Proof. unfold replace_dash. repeat case_decide; congruence. Qed.

Lemma replace_dash_not_dash (s : string) : replace_dash s <> Some "-"%string.
Proof. unfold replace_dash. case_decide; congruence. Qed.

(** The stages of the function when it returns. *)
Lemma aggregate_RES_by_commyear_inr (df : list Unit)
    (target_fueltypes : option (list string)) (out : list CommyearCohort) :
  aggregate_RES_by_commyear df target_fueltypes = inr out ->
  exists dated keys,
    average_empty_commyears (kept_units target_fueltypes df) = inr dated
    /\ NoDup keys
    /\ (forall k, k ∈ keys <-> k ∈ commyear_key_of <$> dated)
    /\ out = commyear_cohort dated <$> keys.
Proof.
  unfold aggregate_RES_by_commyear. fold (kept_units target_fueltypes df).
  destruct (average_empty_commyears (kept_units target_fueltypes df))
    as [e|dated]; [done|].
  intros [= <-]. eexists dated, _. split; [done|]. split; [|split; [|done]].
  - rewrite merge_sort_Permutation. apply NoDup_remove_dups.
  - intros k. rewrite merge_sort_Permutation. apply elem_of_remove_dups.
Qed.

(** The capacities of the groups whose key satisfies [Pk] add up to the
    capacities of the rows whose key does. *)
Lemma commyear_sum (dated : list DatedUnit) (keys : list commyear_key)
    (Pk : commyear_key -> Prop) `{!forall k, Decision (Pk k)} :
  NoDup keys -> (forall k, k ∈ keys <-> k ∈ commyear_key_of <$> dated) ->
  (Qsum (gCapacity <$> (commyear_cohort dated <$> filter Pk keys))
   == Qsum (dCapacity <$> filter (fun d => Pk (commyear_key_of d)) dated))%Q.
Proof.
  intros Hnd Hkeys. rewrite <- list_fmap_compose.
  change (gCapacity ∘ commyear_cohort dated)
    with (fun k => Qsum (dCapacity
                           <$> filter (fun row => commyear_key_of row = k)
                                      dated)).
  rewrite (Qsum_groups commyear_key_of dCapacity)
    by by apply NoDup_filter.
  rewrite (filter_ext_elem _ (fun d => Pk (commyear_key_of d))); [done|].
  intros d Hd. rewrite list_elem_of_filter, Hkeys.
  split; [tauto|]. intros HP. split; [done|].
  apply list_elem_of_fmap. by exists d.
Qed.

(** Sums over related rows of the frame and of the dated frame. *)
Lemma Qsum_dated (Pu : Unit -> Prop) `{!forall x, Decision (Pu x)}
    (Pd : DatedUnit -> Prop) `{!forall x, Decision (Pd x)}
    (l : list Unit) (k : list DatedUnit) :
  Forall2 (fun row d => (Pd d <-> Pu row) /\ dCapacity d = uCapacity row)
          l k ->
  Qsum (dCapacity <$> filter Pd k) = Qsum (uCapacity <$> filter Pu l).
Proof.
  induction 1 as [|row d l k [HP Hcap] Hl IH]; [done|].
  rewrite !filter_cons.
  destruct (decide (Pd d)) as [H1|H1], (decide (Pu row)) as [H2|H2];
    csimpl; try (by rewrite IH, ?Hcap); exfalso; tauto.
Qed.

Lemma dated_labels (df : list Unit) (dated : list DatedUnit) :
  average_empty_commyears df = inr dated ->
  Forall2 (fun row d =>
             dCountry d = uCountry row /\ dFueltype d = uFueltype row
             /\ dTechnology d = uTechnology row
             /\ dCapacity d = uCapacity row) df dated.
Proof.
  intros H%average_empty_commyears_inr.
  eapply Forall2_impl; [exact H|]. simpl. intros row d Hd.
  unfold with_int_year in Hd.
  destruct (uYearCommissioned (filled df row)); [|done].
  injection Hd as <-. simpl. apply filled_labels.
Qed.

(** When the call returns, no capacity is lost or added: the capacities
    of the result add up to the capacities of the units whose fuel type
    is among the targets, in total and for every country and fuel type. *)
Theorem commyear_capacity_conserved (df : list Unit)
    (target_fueltypes : option (list string)) (out : list CommyearCohort) :
  aggregate_RES_by_commyear df target_fueltypes = inr out ->
  (Qsum (gCapacity <$> out)
   == Qsum (uCapacity <$> kept_units target_fueltypes df))%Q
  /\ forall c f,
       (Qsum (gCapacity
                <$> filter (fun g => gCountry g = replace_dash c
                                     /\ gFueltype g = replace_dash f) out)
        == Qsum (uCapacity
                   <$> filter (fun row => uCountry row = c
                                          /\ uFueltype row = f)
                              (kept_units target_fueltypes df)))%Q.
Proof.
  intros (dated & keys & Hdated & Hnd & Hkeys & ->)
         %aggregate_RES_by_commyear_inr.
  pose proof (dated_labels _ _ Hdated) as Hlabels.
  split.
  - rewrite <- (filter_all (fun _ => True) keys) at 1
      by by apply Forall_true.
    rewrite (commyear_sum dated keys (fun _ => True) Hnd Hkeys).
    rewrite <- (filter_all (fun _ => True)
                  (kept_units target_fueltypes df)) at 1
      by by apply Forall_true.
    rewrite (Qsum_dated (fun _ => True) (fun _ => True)
               (kept_units target_fueltypes df) dated); [done|].
    eapply Forall2_impl; [exact Hlabels|]. simpl. tauto.
  - intros c f. rewrite filter_fmap.
    rewrite (filter_ext_elem _ (fun k : commyear_key =>
                                  k.1.1.1 = c /\ k.1.2 = f)).
    2:{ intros k _. simpl. split.
        - intros [H1%replace_dash_inj H2%replace_dash_inj]. done.
        - by intros [-> ->]. }
    rewrite (commyear_sum dated keys _ Hnd Hkeys).
    rewrite (Qsum_dated (fun row => uCountry row = c /\ uFueltype row = f)
               (fun d => (commyear_key_of d).1.1.1 = c
                         /\ (commyear_key_of d).1.2 = f)
               (kept_units target_fueltypes df) dated); [done|].
    eapply Forall2_impl; [exact Hlabels|]. simpl.
    intros row d (-> & -> & _ & ->). tauto.
Qed.

(** When the call returns, the result has one row for every (Country,
    YearCommissioned, Fueltype, Technology) that occurs, a missing
    technology counting as one technology of its own: no two rows agree
    on the four columns, every row has the [Set] PP and shows no
    placeholder, every row stems from a unit of the frame, and every
    unit whose fuel type is among the targets is in a row. *)
Theorem commyear_one_row_per_group (df : list Unit)
    (target_fueltypes : option (list string)) (out : list CommyearCohort) :
  aggregate_RES_by_commyear df target_fueltypes = inr out ->
  NoDup ((fun g => (gCountry g, gYearCommissioned g, gFueltype g,
                    gTechnology g)) <$> out)
  /\ Forall (fun g => gSet g = "PP"%string
                      /\ gCountry g <> Some "-"%string
                      /\ gFueltype g <> Some "-"%string
                      /\ gTechnology g <> Some "-"%string) out
  /\ (forall c f t,
        (exists g, g ∈ out /\ gCountry g = replace_dash c
                   /\ gFueltype g = replace_dash f
                   /\ gTechnology g = replace_dash t)
        <-> exists row, row ∈ kept_units target_fueltypes df
                        /\ uCountry row = c /\ uFueltype row = f
                        /\ default "-"%string (uTechnology row) = t).
Proof.
  intros (dated & keys & Hdated & Hnd & Hkeys & ->)
         %aggregate_RES_by_commyear_inr.
  pose proof (dated_labels _ _ Hdated) as Hlabels.
  split; [|split].
  - rewrite <- list_fmap_compose. apply NoDup_fmap_2; [|done].
    intros [[[c1 y1] f1] t1] [[[c2 y2] f2] t2]. simpl.
    intros [= ->%replace_dash_inj -> ->%replace_dash_inj
              ->%replace_dash_inj]. done.
  - apply Forall_fmap, Forall_forall. intros k _. simpl.
    split; [done|]. repeat split; apply replace_dash_not_dash.
  - intros c f t. split.
    + intros (g & (k & -> & Hk)%list_elem_of_fmap & Hc & Hf & Ht).
      simpl in Hc, Hf, Ht.
      apply replace_dash_inj in Hc, Hf, Ht.
      apply Hkeys, list_elem_of_fmap in Hk as (d & -> & Hd).
      apply list_elem_of_lookup in Hd as [i Hd].
      destruct (Forall2_lookup_r _ _ _ _ _ Hlabels Hd)
        as (row & Hrow & Hc' & Hf' & Ht' & _).
      exists row. split; [by apply list_elem_of_lookup_2 in Hrow|].
      unfold commyear_key_of in *. simpl in *. by rewrite <- Hc', <- Hf', <- Ht'.
    + intros (row & Hrow & <- & <- & <-).
      apply list_elem_of_lookup in Hrow as [i Hrow].
      destruct (Forall2_lookup_l _ _ _ _ _ Hlabels Hrow)
        as (d & Hd & Hc' & Hf' & Ht' & _).
      exists (commyear_cohort dated (commyear_key_of d)). split.
      * apply list_elem_of_fmap. exists (commyear_key_of d).
        split; [done|]. apply Hkeys, list_elem_of_fmap. exists d.
        split; [done|]. by apply list_elem_of_lookup_2 in Hd.
      * unfold commyear_key_of. simpl. by rewrite Hc', Hf', Ht'.
Qed.

Lemma commyear_capacity_conserved_witness :
  exists out,
    aggregate_RES_by_commyear units_example None = inr out
    /\ (Qsum (gCapacity <$> out)
        == Qsum (uCapacity <$> kept_units None units_example))%Q.
Proof.
  eexists. split.
  - vm_compute. reflexivity.
  - apply (commyear_capacity_conserved units_example None).
    vm_compute. reflexivity.
Defined.

Lemma commyear_one_row_per_group_witness :
  exists out,
    aggregate_RES_by_commyear units_example None = inr out
    /\ NoDup ((fun g => (gCountry g, gYearCommissioned g, gFueltype g,
                         gTechnology g)) <$> out).
Proof.
  eexists. split.
  - vm_compute. reflexivity.
  - apply (commyear_one_row_per_group units_example None).
    vm_compute. reflexivity.
Defined.

(** * Statistics of later years *)

(** ** Two matrices with the same cells *)

Lemma nansum_app_None (l1 l2 : list (option Q)) :
  Forall (fun o => o = None) l2 -> nansum (l1 ++ l2) = nansum l1.
Proof.
  intros H2. induction l1 as [|o l1 IH]; simpl.
  - induction H2 as [|o l2 -> _ IH]; [done|]. by simpl.
  - by rewrite IH.
Qed.

Section SameRun.
Context (lo Y y_end life : Z).
Hypothesis Hlife : 0 < life.
Hypothesis HloY : lo <= Y.
Hypothesis HY : Y < y_end.

(** The rows of the longer matrix are those of the shorter one, then
    rows that hold nothing. *)
Lemma same_run_index (m' m : DataFrame) :
  same_run lo Y y_end life m' m ->
  exists extra,
    index m = index m' ++ extra
    /\ (forall r, r ∈ extra -> r ∉ index m')
    /\ forall r, r ∈ extra -> forall c, cell m r c = None.
Proof.
  intros (Hs' & Hs & Hcells).
  assert (exists a b, index m' = range lo a /\ index m = range lo b
                      /\ lo <= a <= b) as (a & b & Ha & Hb & Hab).
  { destruct Hs' as (_ & _ & [->| ->]), Hs as (_ & _ & [->| ->]);
      eexists _, _; (split; [done|split; [done|lia]]). }
  exists (range a b). split; [|split].
  - rewrite Ha, Hb. apply range_split. lia.
  - intros r Hr%elem_of_range. rewrite Ha, elem_of_range. lia.
  - intros r Hr%elem_of_range c. rewrite <- Hcells.
    apply cell_outside_index; [apply Hs'|].
    rewrite Ha, elem_of_range. lia.
Qed.

Lemma same_run_colsum (m' m : DataFrame) (c : Z) :
  same_run lo Y y_end life m' m -> colsum m c = colsum m' c.
Proof.
  intros Hsame.
  destruct (same_run_index m' m Hsame) as (extra & Hidx & _ & Hex).
  destruct Hsame as (_ & _ & Hcells). unfold colsum.
  rewrite Hidx, fmap_app, nansum_app_None.
  - f_equal. apply list_fmap_ext. intros i r _. symmetry. apply Hcells.
  - apply Forall_fmap, Forall_forall. intros r Hr. by apply Hex.
Qed.

Lemma same_run_columns (m' m : DataFrame) (c : Z) :
  same_run lo Y y_end life m' m -> c <= Y + life - 1 ->
  c ∈ columns m' <-> c ∈ columns m.
Proof.
  intros ((_ & -> & _) & (_ & -> & _) & _) Hc. rewrite !elem_of_range. lia.
Qed.

(** The same write in both matrices, within the years of the shorter
    one. *)
Lemma same_run_loc_set (m' m : DataFrame) (r a b : Z) (v : Q) :
  same_run lo Y y_end life m' m -> lo <= r <= Y -> b <= Y + life - 1 ->
  same_run lo Y y_end life (loc_set m' r a b v) (loc_set m r a b v).
Proof.
  intros Hsame Hr Hb. pose proof Hsame as (Hs' & Hs & Hcells).
  split; [by apply matrix_shape_loc_set|].
  split; [apply matrix_shape_loc_set; [lia|done]|].
  intros r' c'. unfold cell. rewrite !loc_set_lookup.
  destruct (decide (a <= c' <= b)) as [Hc|Hc].
  - pose proof (same_run_columns m' m c' Hsame ltac:(lia)) as Hcol.
    repeat case_decide; try done; try tauto. apply Hcells.
  - rewrite !decide_False by tauto. apply Hcells.
Qed.

Lemma same_run_loc_get (m' m : DataFrame) (r c : Z) :
  same_run lo Y y_end life m' m -> r ∈ index m' -> c ∈ columns m' ->
  c <= Y + life - 1 ->
  loc_get m' r c = inr (cell m' r c) /\ loc_get m r c = inr (cell m' r c).
Proof.
  intros Hsame Hr Hc HcY.
  destruct (same_run_index m' m Hsame) as (extra & Hidx & _).
  split; apply loc_get_inr; [done|].
  split; [rewrite Hidx; apply elem_of_app; by left|].
  split; [by apply (same_run_columns m' m c Hsame)|].
  symmetry. apply Hsame.
Qed.

(** The rows the shorter matrix does not have change nothing in the
    retirement loop. *)
Lemma reduce_loop_unassigned (y_pres : Z) (a : Q) (m : DataFrame)
    (extra : list Z) :
  y_pres ∈ columns m ->
  (forall x, x ∈ extra -> x ∈ index m /\ cell m x y_pres = None) ->
  reduce_loop life y_pres a m extra = inr m.
Proof.
  intros Hc. induction extra as [|x extra IH]; intros Hex; [done|].
  simpl. destruct (Hex x) as [Hx Hnone]; [left|].
  unfold reduce_row.
  rewrite (proj2 (loc_get_inr m x y_pres None)) by done. simpl.
  apply IH. intros x' Hx'. apply Hex. by right.
Qed.

(** The retirement loop does the same in both matrices. *)
Lemma same_run_reduce_loop (y_pres : Z) (extra : list Z) :
  y_pres <= Y + life - 1 ->
  forall todo a m' m r',
    same_run lo Y y_end life m' m ->
    (forall x, x ∈ todo -> x ∈ index m') ->
    (forall x, x ∈ extra -> x ∈ index m /\ x ∉ index m') ->
    y_pres ∈ columns m' ->
    reduce_loop life y_pres a m' todo = inr r' ->
    exists r, reduce_loop life y_pres a m (todo ++ extra) = inr r
              /\ same_run lo Y y_end life r' r.
Proof.
  intros Hpres todo.
  induction todo as [|x todo IH]; intros a m' m r' Hsame Htodo Hextra Hc H.
  - simpl in H. injection H as <-. exists m. split; [|done].
    apply reduce_loop_unassigned.
    + by apply (same_run_columns m' m y_pres Hsame).
    + intros x Hx. destruct (Hextra x Hx) as [Hin Hnin].
      split; [done|]. destruct Hsame as (Hs' & _ & Hcells).
      rewrite <- Hcells. apply cell_outside_index; [apply Hs'|done].
  - assert (x ∈ index m') as Hx by (apply Htodo; left).
    pose proof (matrix_shape_index lo Y life m' x (proj1 Hsame) Hx) as Hxb.
    destruct (same_run_loc_get m' m x y_pres Hsame Hx Hc Hpres)
      as [Hget' Hget].
    assert (forall v,
              same_run lo Y y_end life
                (loc_set m' x y_pres (x + life - 1) v)
                (loc_set m x y_pres (x + life - 1) v)
              /\ (forall x', x' ∈ todo ->
                    x' ∈ index (loc_set m' x y_pres (x + life - 1) v))
              /\ (forall x', x' ∈ extra ->
                    x' ∈ index (loc_set m x y_pres (x + life - 1) v)
                    /\ x' ∉ index (loc_set m' x y_pres (x + life - 1) v)))
      as Hset.
    { intros v. split; [apply same_run_loc_set; [done|lia|lia]|]. split.
      - intros x' Hx'. apply loc_set_index. left. apply Htodo. by right.
      - intros x' Hx'. destruct (Hextra x' Hx') as [Hin Hnin].
        rewrite !loc_set_index. split; [by left|].
        intros [?| ->]; done. }
    simpl in H |- *. unfold reduce_row in H |- *.
    rewrite Hget' in H. rewrite Hget. simpl in H |- *.
    destruct (cell m' x y_pres) as [R|].
    + destruct (Qlt_bool 0 R).
      * destruct (Qlt_bool R (Qabs a)); simpl in H |- *.
        -- destruct (Hset 0%Q) as (Hs1 & Ht1 & He1).
           apply (IH _ _ _ _ Hs1 Ht1 He1); [done|exact H].
        -- injection H as <-. eexists. split; [done|]. apply Hset.
      * simpl in H |- *. apply (IH a m' m r' Hsame); try done.
        intros x' Hx'. apply Htodo. by right.
    + simpl in H |- *. apply (IH a m' m r' Hsame); try done.
      intros x' Hx'. apply Htodo. by right.
Qed.

(** An allocator year up to [Y] does the same in both matrices, when the
    two partitions agree on the statistic of the year. *)
Lemma same_run_setHistorical_year (dfs' dfs : Partition)
    (m' m m1' : DataFrame) (y : Z) :
  same_run lo Y y_end life m' m -> lo <= y <= Y ->
  (y ∈ years dfs' <-> y ∈ years dfs) ->
  (y ∈ years dfs' -> loc_Capacity dfs y = loc_Capacity dfs' y) ->
  setHistorical_year dfs' life m' y = inr m1' ->
  exists m1, setHistorical_year dfs life m y = inr m1
             /\ same_run lo Y y_end life m1' m1.
Proof.
  intros Hsame Hy Hin Hcap H.
  assert (y ∈ columns m') as Hc'.
  { destruct Hsame as ((_ & -> & _) & _). apply elem_of_range. lia. }
  assert (y ∈ columns m) as Hc
    by (apply (same_run_columns m' m y Hsame); [lia|done]).
  assert (forall v,
            same_run lo Y y_end life (loc_set m' y y (y + life - 1) v)
                     (loc_set m y y (y + life - 1) v)) as Hset.
  { intros v. apply same_run_loc_set; [done|lia|lia]. }
  unfold setHistorical_year in H |- *.
  destruct (decide (y ∈ years dfs')) as [Hin'|Hnin'].
  - rewrite decide_True by by apply Hin. rewrite (Hcap Hin').
    destruct (loc_Capacity dfs' y) as [e|cap]; [done|]. simpl in H |- *.
    rewrite column_sum_colsum in H |- * by done. simpl in H |- *.
    rewrite (same_run_colsum m' m y Hsame).
    destruct (Qle_bool 0 (cap - colsum m' y)).
    + injection H as <-. eexists. split; [done|]. apply Hset.
    + unfold reduceVintages in H |- *.
      destruct (same_run_index _ _ (Hset 0%Q)) as (extra & Hidx & Hex & _).
      rewrite Hidx.
      apply (same_run_reduce_loop y extra ltac:(lia) _ _ _ _ _ (Hset 0%Q));
        [done| |done|done].
      intros x Hx. split; [|by apply Hex].
      rewrite Hidx. apply elem_of_app. by right.
  - rewrite decide_False by (intros ?; by apply Hnin', Hin).
    injection H as <-. eexists. split; [done|]. apply Hset.
Qed.

(** The same for a stretch of the walk. *)
Lemma same_run_walk (dfs' dfs : Partition) :
  (forall y, lo <= y <= Y ->
     (y ∈ years dfs' <-> y ∈ years dfs)
     /\ (y ∈ years dfs' -> loc_Capacity dfs y = loc_Capacity dfs' y)) ->
  forall l m' m r',
    (forall y, y ∈ l -> lo <= y <= Y) ->
    same_run lo Y y_end life m' m ->
    for_each (setHistorical_year dfs' life) m' l = inr r' ->
    exists r, for_each (setHistorical_year dfs life) m l = inr r
              /\ same_run lo Y y_end life r' r.
Proof.
  intros Hdfs l. induction l as [|y l IH]; intros m' m r' Hl Hsame H.
  - simpl in H. injection H as <-. by exists m.
  - simpl in H. apply bind_inr in H as (m1' & H1 & H).
    destruct (Hdfs y) as [Hin Hcap]; [apply Hl; left|].
    destruct (same_run_setHistorical_year dfs' dfs m' m m1' y Hsame
                ltac:(apply Hl; left) Hin Hcap H1) as (m1 & Hm1 & Hsame1).
    simpl. rewrite Hm1. simpl. apply (IH m1' m1 r'); [|done|done].
    intros y' Hy'. apply Hl. by right.
Qed.
End SameRun.

(** ** The walk does not rewrite earlier years *)

Lemma setHistorical_year_earlier_cells (df : Partition) (life : Z)
    (mat mat' : DataFrame) (y : Z) :
  setHistorical_year df life mat y = inr mat' ->
  forall r c, c < y -> cell mat' r c = cell mat r c.
Proof.
  intros H.
  assert (forall v r c, c < y ->
            cell (loc_set mat y y (y + life - 1) v) r c = cell mat r c)
    as Hset.
  { intros v r c Hc. unfold cell. rewrite loc_set_lookup.
    rewrite decide_False; [done|]. lia. }
  destruct (setHistorical_year_inr _ _ _ _ _ H) as (v & _ & [->|[a Hred]]).
  - apply Hset.
  - revert Hred.
    apply (reduce_loop_preserves
             (fun m => forall r c, c < y -> cell m r c = cell mat r c));
      [|apply Hset].
    intros a' m1 x res Hm1 Hres r c Hc.
    destruct (reduce_row_inr _ _ _ _ _ _ Hres) as
      (_ & _ & [[-> _]|[(R & _ & _ & _ & ->)|(R & _ & _ & _ & ->)]]);
      simpl; [by apply Hm1| |];
      (unfold cell; rewrite loc_set_lookup;
       rewrite decide_False by lia; by apply Hm1).
Qed.

Lemma walk_earlier_cells (df : Partition) (life : Z) (mat mat' : DataFrame)
    (from to_ : Z) :
  walk df life mat from to_ = inr mat' ->
  forall r c, c < from -> cell mat' r c = cell mat r c.
Proof.
  intros H.
  assert (forall r c, c < from -> cell mat r c = cell mat r c) as H0 by done.
  revert H0 H.
  apply (for_each_preserves
           (fun m => forall r c, c < from -> cell m r c = cell mat r c)).
  intros m y m' Hy%elem_of_range Hm Hstep r c Hc.
  rewrite (setHistorical_year_earlier_cells df life m m' y Hstep) by lia.
  by apply Hm.
Qed.

Lemma walk_app (df : Partition) (life : Z) (mat : DataFrame)
    (from mid to_ : Z) :
  from <= mid <= to_ ->
  walk df life mat from to_
  = let* m := walk df life mat from mid in walk df life m mid to_.
Proof.
  intros H. unfold walk. by rewrite (range_split from mid to_), for_each_app.
Qed.

(** ** A partition and its extension *)

Section Later.
Context (dfs : Partition) (later : list (Z * Q)) (y_start Y : Z).
Hypothesis Hsorted : sorted_years (extend dfs later).
Hypothesis Hfirst : index_nth dfs 0 = inr y_start.
Hypothesis Hlast : index_last dfs = inr Y.

Lemma extend_years : years (extend dfs later) = years dfs ++ later.*1.
Proof. unfold years, extend. simpl. by rewrite fmap_app. Qed.

Lemma extend_sorted : sorted_years dfs.
Proof.
  unfold sorted_years in *. rewrite extend_years in Hsorted.
  by apply StronglySorted_app_1_l in Hsorted.
Qed.

Lemma later_years (y : Z) : y ∈ later.*1 -> Y < y.
Proof.
  intros Hy. unfold sorted_years in Hsorted. rewrite extend_years in Hsorted.
  apply (StronglySorted_app_1_elem_of _ _ _ Y y Hsorted); [|done].
  by apply (y_end_in_years dfs Y).
Qed.

Lemma extend_years_upto (y : Z) :
  y <= Y -> y ∈ years dfs <-> y ∈ years (extend dfs later).
Proof.
  intros Hy. rewrite extend_years, elem_of_app. split; [by left|].
  intros [?|Hl%later_years]; [done|lia].
Qed.

Lemma extend_loc_Capacity (y : Z) :
  y ∈ years dfs -> loc_Capacity (extend dfs later) y = loc_Capacity dfs y.
Proof.
  intros Hy. unfold loc_Capacity. simpl.
  destruct (list_find (fun row => row.1 = y) (rows dfs)) as [[i row]|] eqn:E.
  - by rewrite (list_find_app_l _ _ _ _ _ E).
  - exfalso. apply list_find_None in E. rewrite Forall_forall in E.
    apply list_elem_of_fmap in Hy as (row & -> & Hrow). by apply (E row).
Qed.

Lemma extend_index_nth_0 : index_nth (extend dfs later) 0 = inr y_start.
Proof.
  unfold index_nth in *. rewrite extend_years.
  destruct (years dfs) as [|y l]; [done|]. done.
Qed.

Lemma extend_index_nth_1 (y1 : Z) :
  index_nth dfs 1 = inr y1 -> index_nth (extend dfs later) 1 = inr y1.
Proof.
  unfold index_nth. rewrite extend_years.
  destruct (years dfs) as [|y [|y' l]]; try done.
Qed.

Lemma extend_index_last :
  later <> [] ->
  exists y_end, index_last (extend dfs later) = inr y_end /\ Y < y_end.
Proof.
  intros Hne. unfold index_last. rewrite extend_years, last_app.
  destruct (last later.*1) as [y|] eqn:E.
  - exists y. split; [done|]. apply later_years.
    apply last_Some in E as [l ->]. apply elem_of_app. right. left.
  - apply last_None, fmap_nil_inv in E. done.
Qed.
End Later.

Lemma shape_index_prefix (lo Y y_end life : Z) (m' m : DataFrame) :
  lo <= Y -> Y < y_end ->
  matrix_shape lo Y life m' -> matrix_shape lo y_end life m ->
  exists extra,
    index m = index m' ++ extra /\ forall r, r ∈ extra -> r ∉ index m'.
Proof.
  intros HloY HY Hs' Hs.
  assert (exists a b, index m' = range lo a /\ index m = range lo b
                      /\ lo <= a <= b) as (a & b & Ha & Hb & Hab).
  { destruct Hs' as (_ & _ & [->| ->]), Hs as (_ & _ & [->| ->]);
      eexists _, _; (split; [done|split; [done|lia]]). }
  exists (range a b). split.
  - rewrite Ha, Hb. apply range_split. lia.
  - intros r Hr%elem_of_range. rewrite Ha, elem_of_range. lia.
Qed.

(** The matrix of a partition and the matrix of its extension by later
    statistics agree on every year up to the last one of the partition. *)
Lemma extend_cohort_matrix (fueltype_to_life : gmap string Z)
    (dfs : Partition) (later : list (Z * Q)) (y_start Y life : Z) :
  sorted_years (extend dfs later) -> later <> [] ->
  index_nth dfs 0 = inr y_start -> index_last dfs = inr Y ->
  fueltype_to_life !! Fueltype dfs = Some life -> 0 < life ->
  y_start - life + 1 < Y ->
  exists y_end mat' mat,
    Y < y_end
    /\ cohort_matrix fueltype_to_life dfs = inr (life, mat')
    /\ cohort_matrix fueltype_to_life (extend dfs later) = inr (life, mat)
    /\ matrix_shape (y_start - life + 1) Y life mat'
    /\ matrix_shape (y_start - life + 1) y_end life mat
    /\ forall r c, c <= Y -> cell mat r c = cell mat' r c.
Proof.
  intros Hsortedx Hne Hfirst Hlast Htable Hlife Hrow.
  set (lo := y_start - life + 1). set (dfsx := extend dfs later).
  pose proof (extend_sorted dfs later Hsortedx) as Hsorted.
  pose proof (extend_index_nth_0 dfs later y_start Hfirst) as Hfirstx.
  destruct (extend_index_last dfs later Y Hsortedx Hlast Hne)
    as (y_end & Hlastx & HYlt).
  pose proof (y_start_le_y_end dfs y_start Y Hsorted Hfirst Hlast) as Hle.
  exists y_end.
  destruct (cohort_matrix_total fueltype_to_life dfs y_start Y life)
    as (mat' & Hmat' & Hshape'); try done.
  destruct (cohort_matrix_total fueltype_to_life dfsx y_start y_end life)
    as (mat & Hmat & Hshape); try done; [fold lo; lia|].
  exists mat', mat. do 5 (split; [done|]).
  apply cohort_matrix_inr in Hmat'
    as (ys' & ye' & mat0' & Hf' & Hl' & _ & Hmat0' & Hrun').
  rewrite Hfirst in Hf'. injection Hf' as <-.
  rewrite Hlast in Hl'. injection Hl' as <-.
  apply cohort_matrix_inr in Hmat
    as (ysx & yex & mat0 & Hfx & Hlx & _ & Hmat0 & Hrun).
  fold dfsx in Hfirstx, Hlastx.
  rewrite Hfirstx in Hfx. injection Hfx as <-.
  rewrite Hlastx in Hlx. injection Hlx as <-.
  destruct (setInitial_fresh_inr dfs y_start Y life Hfirst Hlife Hle
              mat0' Hmat0') as (cap' & Hcap' & _ & Hshape0' & Hin' & Hout').
  destruct (setInitial_fresh_inr dfsx y_start y_end life Hfirstx Hlife
              ltac:(lia) mat0 Hmat0) as (cap & Hcap & _ & Hshape0 & Hin & Hout).
  unfold dfsx in Hcap.
  rewrite (extend_loc_Capacity dfs later y_start
             (y_start_in_years dfs y_start Hfirst)) in Hcap.
  rewrite Hcap' in Hcap. injection Hcap as <-.
  assert (same_run lo Y y_end life mat0' mat0) as Hsame0.
  { split; [done|]. split; [done|]. intros r c.
    destruct (decide (lo <= r <= y_start /\ r <= c <= r + life - 1))
      as [[Hr Hc]|Hn].
    - by rewrite (Hin' r c Hr Hc), (Hin r c Hr Hc).
    - by rewrite (Hout' r c Hn), (Hout r c Hn). }
  rewrite decide_True in Hrun by lia.
  rewrite setHistorical_walk in Hrun.
  apply bind_inr in Hrun as (y1x & Hy1x & Hrun).
  rewrite (index_max_y_end dfsx y_start y_end Hsortedx Hfirstx Hlastx)
    in Hrun.
  destruct (second_year dfsx y_start y_end Hsortedx Hfirstx Hlastx
              ltac:(lia)) as (y1x' & Hy1x' & Hy1xlt & _).
  rewrite Hy1x in Hy1x'. injection Hy1x' as <-.
  intros r c Hc. destruct (decide (Y > y_start)) as [Hgt|Hngt].
  - rewrite setHistorical_walk in Hrun'.
    apply bind_inr in Hrun' as (y1 & Hy1 & Hrun').
    rewrite (index_max_y_end dfs y_start Y Hsorted Hfirst Hlast) in Hrun'.
    destruct (second_year dfs y_start Y Hsorted Hfirst Hlast ltac:(lia))
      as (y1' & Hy1' & Hy1lt & Hy1le).
    rewrite Hy1 in Hy1'. injection Hy1' as <-.
    pose proof (Hy1le Y (y_end_in_years dfs Y Hlast) ltac:(lia)) as Hy1Y.
    pose proof (extend_index_nth_1 dfs later y1 Hy1) as Hy1x''.
    fold dfsx in Hy1x''. rewrite Hy1x in Hy1x''. injection Hy1x'' as ->.
    rewrite (walk_app dfsx life mat0 y1 (Y + 1) (y_end + 1)) in Hrun by lia.
    destruct (same_run_walk lo Y y_end life Hlife ltac:(unfold lo; lia)
                HYlt dfs dfsx) with (l := range y1 (Y + 1))
                                    (m' := mat0') (m := mat0) (r' := mat')
      as (mY & HmY & HsameY); try done.
    + intros y Hy. split.
      * apply (extend_years_upto dfs later Y Hsortedx Hlast). lia.
      * intros Hin0. by apply extend_loc_Capacity.
    + intros y Hy%elem_of_range. unfold lo. lia.
    + unfold walk in Hrun at 1. rewrite HmY in Hrun. simpl in Hrun.
      rewrite (walk_earlier_cells dfsx life mY mat (Y + 1) (y_end + 1) Hrun)
        by lia.
      symmetry. apply HsameY.
  - assert (Y = y_start) as -> by lia. injection Hrun' as <-.
    rewrite (walk_earlier_cells dfsx life mat0 mat y1x (y_end + 1) Hrun)
      by lia.
    symmetry. apply Hsame0.
Qed.

Lemma zip_fmap_self {A B} (f : A -> B) (l : list A) :
  zip l (f <$> l) = (fun x => (x, f x)) <$> l.
Proof. induction l as [|x l IH]; [done|]. csimpl. by rewrite IH. Qed.

Lemma omap_None {A B} (g : A -> option B) (l : list A) :
  (forall x, x ∈ l -> g x = None) -> omap g l = [].
Proof.
  induction l as [|x l IH]; intros Hl; [done|]. csimpl.
  rewrite (Hl x) by left. apply IH. intros y Hy. apply Hl. by right.
Qed.

Lemma omap_ext_elem {A B} (g1 g2 : A -> option B) (l : list A) :
  (forall x, x ∈ l -> g1 x = g2 x) -> omap g1 l = omap g2 l.
Proof.
  induction l as [|x l IH]; intros Hl; [done|]. csimpl.
  rewrite (Hl x) by left. rewrite IH; [done|].
  intros y Hy. apply Hl. by right.
Qed.

(** The rows a partition contributes for a base year up to its last
    year are those its extension contributes. *)
Lemma extend_derive_partition (fueltype_to_life : gmap string Z)
    (base_year : Z) (dfs : Partition) (later : list (Z * Q))
    (y_start Y life : Z) :
  sorted_years (extend dfs later) ->
  index_nth dfs 0 = inr y_start -> index_last dfs = inr Y ->
  fueltype_to_life !! Fueltype dfs = Some life -> 0 < life ->
  y_start - life + 1 < Y -> base_year <= Y ->
  derive_partition fueltype_to_life base_year (extend dfs later)
  = derive_partition fueltype_to_life base_year dfs.
Proof.
  intros Hsortedx Hfirst Hlast Htable Hlife Hrow Hbase.
  destruct later as [|row later].
  { unfold extend. rewrite app_nil_r. by destruct dfs. }
  destruct (extend_cohort_matrix fueltype_to_life dfs (row :: later)
              y_start Y life)
    as (y_end & mat' & mat & HYlt & Hmat' & Hmat & Hshape' & Hshape & Hcells);
    try done.
  pose proof (y_start_le_y_end dfs y_start Y
                (extend_sorted dfs _ Hsortedx) Hfirst Hlast) as Hle.
  unfold derive_partition. rewrite Hmat', Hmat. simpl.
  destruct (decide (y_start - life + 1 <= base_year)) as [Hlo|Hlo].
  - rewrite !loc_column_inr.
    2:{ destruct Hshape' as (_ & -> & _). apply elem_of_range. lia. }
    2:{ destruct Hshape as (_ & -> & _). apply elem_of_range. lia. }
    simpl. f_equal.
    destruct (shape_index_prefix (y_start - life + 1) Y y_end life mat' mat)
      as (extra & Hidx & Hextra); try done; [lia|].
    rewrite !zip_fmap_self, Hidx, fmap_app, omap_app.
    rewrite (omap_None _ ((fun x => (x, cell mat x base_year)) <$> extra)).
    + rewrite app_nil_r.
      assert ((fun x => (x, cell mat x base_year)) <$> index mat'
              = (fun x => (x, cell mat' x base_year)) <$> index mat') as ->.
      { apply list_fmap_ext. intros i x _. by rewrite Hcells. }
      done.
    + intros [r o] (r' & [= -> ->] & Hr)%list_elem_of_fmap.
      unfold cohort_row. simpl. rewrite (Hcells r' base_year Hbase).
      rewrite (cell_outside_index mat' r' base_year); [done|apply Hshape'|].
      by apply Hextra.
  - rewrite !loc_column_inl; [done| |].
    + destruct Hshape' as (_ & -> & _). rewrite elem_of_range. lia.
    + destruct Hshape as (_ & -> & _). rewrite elem_of_range. lia.
Qed.

(** Statistics of later years do not change the cohorts of an earlier
    base year: when the statistics of every partition reach [base_year]
    or beyond, appending statistics of later years to the partitions
    leaves the result of the call as it is, rows, errors and all. *)
Theorem later_statistics_keep_earlier_cohorts
    (fueltype_to_life : gmap string Z) (df : list Partition)
    (laters : list (list (Z * Q))) (base_year : Z) :
  Forall2 (extended_after fueltype_to_life base_year) df laters ->
  derive_vintage_cohorts_from_statistics fueltype_to_life
    (zip_with extend df laters) base_year
  = derive_vintage_cohorts_from_statistics fueltype_to_life df base_year.
Proof.
  intros Hdf. rewrite !derive_unfold. f_equal.
  generalize (@nil Cohort) as dfe.
  induction Hdf as [|dfs later df laters Hdfs Hdf IH]; intros dfe; [done|].
  destruct Hdfs as (Hsorted & y_start & Y & life & Hfirst & Hlast & Htable
                    & Hlife & Hrow & Hbase).
  simpl. unfold append_partition at 1 3.
  rewrite (extend_derive_partition fueltype_to_life base_year dfs later
             y_start Y life) by done.
  destruct (derive_partition fueltype_to_life base_year dfs) as [e|add];
    [done|].
  simpl. apply IH.
Qed.

Lemma later_statistics_keep_earlier_cohorts_witness :
  derive_vintage_cohorts_from_statistics scenario_lifetimes
    (zip_with extend [decline_scenario] [[(2002, 90%Q)]]) 2001
  = derive_vintage_cohorts_from_statistics scenario_lifetimes
      [decline_scenario] 2001.
Proof.
  apply (later_statistics_keep_earlier_cohorts scenario_lifetimes
           [decline_scenario] [[(2002, 90%Q)]] 2001).
  constructor; [|constructor]. split.
  - unfold sorted_years, years, extend, decline_scenario; simpl.
    repeat (constructor; [|repeat constructor; lia]). constructor.
  - exists 2000, 2001, 3. repeat split; try reflexivity; lia.
Defined.

(** * Years without a statistic *)

Section Observed.
Context (dfs : Partition) (y_start life : Z).

Lemma positive_rows_loc_set (mat : DataFrame) (r a b : Z) (v : Q) :
  positive_rows_observed dfs y_start mat ->
  ((0 < v)%Q -> r ∈ years dfs \/ r <= y_start) ->
  positive_rows_observed dfs y_start (loc_set mat r a b v).
Proof.
  intros Hmat Hv r' c' v'. unfold cell. rewrite loc_set_lookup.
  case_decide as H; [|apply Hmat].
  destruct H as (-> & _). intros [= <-]. apply Hv.
Qed.

Lemma positive_rows_reduce_loop (y_pres : Z) (todo : list Z) (a : Q)
    (m m' : DataFrame) :
  positive_rows_observed dfs y_start m ->
  reduce_loop life y_pres a m todo = inr m' ->
  positive_rows_observed dfs y_start m'.
Proof.
  apply (reduce_loop_preserves (positive_rows_observed dfs y_start)).
  intros a' m1 x res Hm1 Hres.
  destruct (reduce_row_inr _ _ _ _ _ _ Hres) as
    (_ & _ & [[-> _]|[(R & HR & Hpos & _ & ->)|(R & HR & Hpos & _ & ->)]]);
    simpl; [done| |];
    (apply positive_rows_loc_set; [done|]; intros _;
     by apply (Hm1 x y_pres R)).
Qed.

Lemma positive_rows_setHistorical_year (mat mat' : DataFrame) (y : Z) :
  positive_rows_observed dfs y_start mat ->
  setHistorical_year dfs life mat y = inr mat' ->
  positive_rows_observed dfs y_start mat'.
Proof.
  intros Hmat H.
  assert (positive_rows_observed dfs y_start
            (loc_set mat y y (y + life - 1) 0%Q)) as H0.
  { apply positive_rows_loc_set; [done|]. intros Hpos.
    by apply Qlt_irrefl in Hpos. }
  unfold setHistorical_year in H. case_decide as Hin.
  - apply bind_inr in H as (cap & _ & H).
    apply bind_inr in H as (s & _ & H).
    destruct (Qle_bool 0 (cap - s)).
    + injection H as <-. apply positive_rows_loc_set; [done|]. by left.
    + by apply (positive_rows_reduce_loop _ _ _ _ _ H0 H).
  - by injection H as <-.
Qed.

Lemma positive_rows_cohort_matrix (fueltype_to_life : gmap string Z)
    (mat : DataFrame) :
  index_nth dfs 0 = inr y_start ->
  cohort_matrix fueltype_to_life dfs = inr (life, mat) ->
  positive_rows_observed dfs y_start mat.
Proof.
  intros Hfirst (y0 & y_end & mat0 & Hf & _ & _ & H0 & H)%cohort_matrix_inr.
  rewrite Hfirst in Hf. injection Hf as <-.
  assert (positive_rows_observed dfs y_start mat0) as Hmat0.
  { destruct (setInitial_inr _ _ _ _ H0)
      as (y0 & cap & fr & value & Hf & _ & _ & _ & Hloop & _).
    rewrite Hfirst in Hf. injection Hf as <-. revert Hloop.
    apply initial_loop_preserves.
    - intros m y h m' Hy%elem_of_range Hm _ Hrow.
      destruct (setInitial_row_inr _ _ _ _ _ Hrow) as (l & _ & ->).
      apply positive_rows_loc_set; [done|]. intros _. right. lia.
    - intros r c v Hv. by rewrite cell_fresh in Hv. }
  case_decide; [|by injection H as <-].
  apply (setHistorical_preserves (positive_rows_observed dfs y_start)) in H;
    [done| |done].
  intros m y m' Hm Hy. by apply (positive_rows_setHistorical_year m m' y).
Qed.
End Observed.

(** Whatever the frame, no row of a result is commissioned in a year
    without a statistic, the years of the initial distribution apart:
    the commissioning year of every row is an observed year of its
    partition, or a year up to the first observed one. *)
Theorem cohorts_only_for_observed_years (fueltype_to_life : gmap string Z)
    (df : list Partition) (base_year : Z) (out : list Cohort) :
  derive_vintage_cohorts_from_statistics fueltype_to_life df base_year
  = inr out ->
  forall row, row ∈ out ->
    exists dfs y_start,
      dfs ∈ df /\ index_nth dfs 0 = inr y_start
      /\ cCountry row = Country dfs /\ cTechnology row = Technology dfs
      /\ (YearCommissioned row ∈ years dfs
          \/ YearCommissioned row <= y_start).
Proof.
  intros (outs & Hall & ->)%derive_inr row Hrow.
  apply list_elem_of_filter in Hrow as [_ Hrow].
  apply elem_of_concat in Hrow as (o & Hrow & Ho).
  apply list_elem_of_lookup in Ho as [i Ho].
  destruct (Forall2_lookup_r _ _ _ _ _ Hall Ho) as (dfs & Hdfs & Hout).
  apply derive_partition_inr in Hout as (life & mat & Hmat & Hcol & ->).
  apply elem_of_cohorts_of in Hrow as (r & v & Hr & Hv & Hpos & ->).
  pose proof Hmat as (y_start & _ & _ & Hfirst & _)%cohort_matrix_inr.
  exists dfs, y_start. simpl.
  split; [by apply list_elem_of_lookup_2 in Hdfs|].
  do 3 (split; [done|]).
  by apply (positive_rows_cohort_matrix dfs y_start life fueltype_to_life
              mat Hfirst Hmat r base_year v).
Qed.

Lemma gap_scenario_derive :
  exists out,
    derive_vintage_cohorts_from_statistics scenario_lifetimes [gap_scenario]
      2003 = inr out.
Proof. eexists. vm_compute. reflexivity. Defined.

Lemma cohorts_only_for_observed_years_witness :
  exists out,
    derive_vintage_cohorts_from_statistics scenario_lifetimes [gap_scenario]
      2003 = inr out
    /\ forall row, row ∈ out ->
         exists dfs y_start,
           dfs ∈ [gap_scenario] /\ index_nth dfs 0 = inr y_start
           /\ cCountry row = Country dfs
           /\ cTechnology row = Technology dfs
           /\ (YearCommissioned row ∈ years dfs
               \/ YearCommissioned row <= y_start).
Proof.
  destruct gap_scenario_derive as [out Hout]. exists out.
  split; [done|].
  by apply (cohorts_only_for_observed_years scenario_lifetimes
              [gap_scenario] 2003).
Defined.

(** * Base years after the last statistic *)



Section ConstantFrom.
Context (dfs : Partition) (life : Z).



End ConstantFrom.




